(** * The reactive core of Vue 2: Dep, Watcher, Observer and the scheduler

    A shallow embedding of
      - src/core/observer/watcher.js   (class Watcher)
      - src/core/observer/index.js     (Observer, observe, defineReactive, set)
      - src/core/observer/array.js     (the seven patched array methods)
      - src/core/observer/scheduler.js (queueWatcher, flushSchedulerQueue)
      - src/core/util/next-tick.js     (nextTick, flushCallbacks)
      - src/core/instance/state.js     (createComputedGetter, $watch)
    as state-passing functions over one record [World] that holds the
    JavaScript heap, the Dep and Watcher objects, the scheduler's module
    variables and an event trace. *)

From stdpp Require Import gmap strings list fin_maps sorting.
From Stdlib Require Import ZArith.

Open Scope Z_scope.
Open Scope nat_scope.

(** ** JavaScript values *)

Inductive Value : Type :=
| VUndef
| VNull
| VBool (b : bool)
| VNum (n : Z)
| VNaN
| VStr (s : string)
| VRef (r : nat).

#[global] Instance Value_eq_dec : EqDecision Value.
Proof. solve_decision. Defined.

(** [a === b]: NaN is the one value that differs from itself; objects are
    compared by reference. *)
Definition strict_eq (a b : Value) : bool :=
  match a, b with
  | VNaN, _ | _, VNaN => false
  | _, _ => bool_decide (a = b)
  end.

(** [isObject] of shared/util: [obj !== null && typeof obj === 'object']. *)
Definition isObject (v : Value) : bool :=
  match v with VRef _ => true | _ => false end.

(** Truthiness, as used by [e && e.__ob__]. *)
Definition truthy (v : Value) : bool :=
  match v with
  | VUndef | VNull | VNaN => false
  | VBool b => b
  | VNum n => negb (Z.eqb n 0)
  | VStr s => negb (String.eqb s "")
  | VRef _ => true
  end.

Definition Key := string.

(** ** The heap *)

(** [class Observer]: [ob.value] is the object that carries it as
    [__ob__], so only [dep] and [vmCount] are stored. *)
Record Observer : Type := {
  ob_dep : nat;
  ob_vmCount : nat
}.

(** The closure of one [defineReactive] call: [dep], [val], [childOb], and
    the accessor pair found on the property beforehand.  A pre-defined
    accessor is taken to read and write one hidden slot, [r_backing]. *)
Record Reactive : Type := {
  r_dep : nat;
  r_val : Value;
  r_childOb : option nat;
  r_getter : bool;
  r_setter : bool;
  r_backing : Value;
  r_shallow : bool;
  r_customSetter : bool
}.

Inductive Slot : Type :=
| SData (v : Value) (configurable : bool)
| SAccessor (backing : Value) (hasGet hasSet : bool) (configurable : bool)
| SReactive (r : Reactive).

Inductive ObjKind : Type := KPlain | KArray | KOther.

#[global] Instance ObjKind_eq_dec : EqDecision ObjKind.
Proof. solve_decision. Defined.

(** [o_props] are the own enumerable properties in the order of
    [Object.keys]; [o_inherited] are the further keys that the prototype
    chain below [Object.prototype] makes visible to [in]; [o_ob] is the own,
    non-enumerable [__ob__]. *)
Record Obj : Type := {
  o_kind : ObjKind;
  o_props : list (Key * Slot);
  o_elems : list Value;
  o_ob : option Observer;
  o_extensible : bool;
  o_isVue : bool;
  o_isVNode : bool;
  o_inherited : list Key
}.

(** ** User code

    A watcher's getter reads reactive state and computes a value; a
    callback receives [(value, oldValue)] and may assign reactive
    properties.  Both can throw. *)

Inductive GProg : Type :=
| GRet (v : Value)
| GThrow (e : Value)
| GRead (o : nat) (k : Key) (cont : Value → GProg).

Inductive CProg : Type :=
| CRet
| CThrow (e : Value)
| CWrite (o : nat) (k : Key) (v : Value) (cont : CProg).

(** ** Watchers and component instances

    A Watcher object is stored under its [id], which the constructor takes
    from the counter [uid] and never changes; [watcher.id] is the key. *)

Record Watcher : Type := {
  w_vm : nat;
  w_deep : bool;
  w_user : bool;
  w_lazy : bool;
  w_sync : bool;
  w_before : bool;
  w_dirty : bool;
  w_active : bool;
  w_deps : list nat;
  w_newDeps : list nat;
  w_depIds : gset nat;
  w_newDepIds : gset nat;
  w_expression : string;
  w_getter : GProg;
  w_cb : Value → Value → CProg;
  w_value : Value
}.

Record Vm : Type := {
  vm_watchers : list nat;
  vm_watcher : option nat;
  vm_computedWatchers : list (Key * nat);
  vm_isBeingDestroyed : bool;
  vm_isMounted : bool;
  vm_isDestroyed : bool
}.

(** ** Build and platform constants *)

Inductive ArrayMethod : Type :=
| m_push | m_pop | m_shift | m_unshift | m_splice | m_sort | m_reverse.

#[global] Instance ArrayMethod_eq_dec : EqDecision ArrayMethod.
Proof. solve_decision. Defined.

(** What a native [Array.prototype] method hands back. *)
Inductive NativeResult : Type :=
| NValue (v : Value)
| NThis
| NFresh (elems : list Value).

Record Env : Type := {
  production : bool;      (* process.env.NODE_ENV === 'production' *)
  config_async : bool;    (* config.async *)
  serverRendering : bool; (* isServerRendering() *)
  (* arrayProto[method].apply(this, args): new elements and result *)
  arrayProto : ArrayMethod → list Value → list Value → list Value * NativeResult;
  (* the index that a key denotes when isValidArrayIndex(key) holds *)
  isValidArrayIndex : Key → option nat;
  (* the keys of Object.prototype *)
  objectProto : list Key
}.

(** ** Events *)

Inductive Warning : Type :=
| WInfiniteLoopUser (expression : string) (vm : nat)
| WInfiniteLoopRender (vm : nat)
| WSetOnPrimitive
| WSetOnRoot
| WCustomSetter (o : nat) (k : Key).

Inductive Event : Type :=
| EGetter (w : nat)
| ERunBegin (w : nat)
| ERunEnd (w : nat)
| EBefore (w : nat)
| ECallback (w : nat) (value oldValue : Value)
| EDepend (d : nat) (t : nat)
| ENotify (d : nat)
| EUpdate (w : nat)
| EObserve (o : nat)
| EHandleError (e : Value) (vm : option nat) (info : string)
| EWarn (m : Warning)
| EUpdatedHook (vm : nat).

(** ** Scheduler and next-tick module state *)

Record Sched : Type := {
  queue : list nat;
  has : gset nat;
  circular : gmap nat nat;
  waiting : bool;
  flushing : bool;
  index : nat
}.

Inductive TickCb : Type :=
| TFlushSchedulerQueue
| TUser (cb : CProg).

Record Tick : Type := {
  callbacks : list TickCb;
  pending : bool;
  timers : nat
}.

(** ** The world *)

Record World : Type := {
  env : Env;
  heap : gmap nat Obj;
  heap_uid : nat;
  deps : gmap nat (list nat);
  dep_uid : nat;
  watchers : gmap nat Watcher;
  watcher_uid : nat;
  vms : gmap nat Vm;
  targetStack : list (option nat);
  shouldObserve : bool;
  sched : Sched;
  tick : Tick;
  trace : list Event
}.

(** Field updates. *)

Definition upd_heap (f : gmap nat Obj → gmap nat Obj) (w : World) : World :=
  Build_World (env w) (f (heap w)) (heap_uid w) (deps w) (dep_uid w) (watchers w) (watcher_uid w) (vms w) (targetStack w) (shouldObserve w) (sched w) (tick w) (trace w).

Definition upd_heap_uid (f : nat → nat) (w : World) : World :=
  Build_World (env w) (heap w) (f (heap_uid w)) (deps w) (dep_uid w) (watchers w) (watcher_uid w) (vms w) (targetStack w) (shouldObserve w) (sched w) (tick w) (trace w).

Definition upd_deps (f : gmap nat (list nat) → gmap nat (list nat)) (w : World) : World :=
  Build_World (env w) (heap w) (heap_uid w) (f (deps w)) (dep_uid w) (watchers w) (watcher_uid w) (vms w) (targetStack w) (shouldObserve w) (sched w) (tick w) (trace w).

Definition upd_dep_uid (f : nat → nat) (w : World) : World :=
  Build_World (env w) (heap w) (heap_uid w) (deps w) (f (dep_uid w)) (watchers w) (watcher_uid w) (vms w) (targetStack w) (shouldObserve w) (sched w) (tick w) (trace w).

Definition upd_watchers (f : gmap nat Watcher → gmap nat Watcher) (w : World) : World :=
  Build_World (env w) (heap w) (heap_uid w) (deps w) (dep_uid w) (f (watchers w)) (watcher_uid w) (vms w) (targetStack w) (shouldObserve w) (sched w) (tick w) (trace w).

Definition upd_watcher_uid (f : nat → nat) (w : World) : World :=
  Build_World (env w) (heap w) (heap_uid w) (deps w) (dep_uid w) (watchers w) (f (watcher_uid w)) (vms w) (targetStack w) (shouldObserve w) (sched w) (tick w) (trace w).

Definition upd_vms (f : gmap nat Vm → gmap nat Vm) (w : World) : World :=
  Build_World (env w) (heap w) (heap_uid w) (deps w) (dep_uid w) (watchers w) (watcher_uid w) (f (vms w)) (targetStack w) (shouldObserve w) (sched w) (tick w) (trace w).

Definition upd_targetStack (f : list (option nat) → list (option nat)) (w : World) : World :=
  Build_World (env w) (heap w) (heap_uid w) (deps w) (dep_uid w) (watchers w) (watcher_uid w) (vms w) (f (targetStack w)) (shouldObserve w) (sched w) (tick w) (trace w).

Definition upd_shouldObserve (f : bool → bool) (w : World) : World :=
  Build_World (env w) (heap w) (heap_uid w) (deps w) (dep_uid w) (watchers w) (watcher_uid w) (vms w) (targetStack w) (f (shouldObserve w)) (sched w) (tick w) (trace w).

Definition upd_sched (f : Sched → Sched) (w : World) : World :=
  Build_World (env w) (heap w) (heap_uid w) (deps w) (dep_uid w) (watchers w) (watcher_uid w) (vms w) (targetStack w) (shouldObserve w) (f (sched w)) (tick w) (trace w).

Definition upd_tick (f : Tick → Tick) (w : World) : World :=
  Build_World (env w) (heap w) (heap_uid w) (deps w) (dep_uid w) (watchers w) (watcher_uid w) (vms w) (targetStack w) (shouldObserve w) (sched w) (f (tick w)) (trace w).

Definition upd_trace (f : list Event → list Event) (w : World) : World :=
  Build_World (env w) (heap w) (heap_uid w) (deps w) (dep_uid w) (watchers w) (watcher_uid w) (vms w) (targetStack w) (shouldObserve w) (sched w) (tick w) (f (trace w)).

Definition upd_queue (f : list nat → list nat) (s : Sched) : Sched :=
  Build_Sched (f (queue s)) (has s) (circular s) (waiting s) (flushing s) (index s).

Definition upd_has (f : gset nat → gset nat) (s : Sched) : Sched :=
  Build_Sched (queue s) (f (has s)) (circular s) (waiting s) (flushing s) (index s).

Definition upd_circular (f : gmap nat nat → gmap nat nat) (s : Sched) : Sched :=
  Build_Sched (queue s) (has s) (f (circular s)) (waiting s) (flushing s) (index s).

Definition upd_waiting (f : bool → bool) (s : Sched) : Sched :=
  Build_Sched (queue s) (has s) (circular s) (f (waiting s)) (flushing s) (index s).

Definition upd_flushing (f : bool → bool) (s : Sched) : Sched :=
  Build_Sched (queue s) (has s) (circular s) (waiting s) (f (flushing s)) (index s).

Definition upd_index (f : nat → nat) (s : Sched) : Sched :=
  Build_Sched (queue s) (has s) (circular s) (waiting s) (flushing s) (f (index s)).

Definition upd_callbacks (f : list TickCb → list TickCb) (s : Tick) : Tick :=
  Build_Tick (f (callbacks s)) (pending s) (timers s).

Definition upd_pending (f : bool → bool) (s : Tick) : Tick :=
  Build_Tick (callbacks s) (f (pending s)) (timers s).

Definition upd_timers (f : nat → nat) (s : Tick) : Tick :=
  Build_Tick (callbacks s) (pending s) (f (timers s)).

Definition upd_w_dirty (f : bool → bool) (W : Watcher) : Watcher :=
  Build_Watcher (w_vm W) (w_deep W) (w_user W) (w_lazy W) (w_sync W) (w_before W) (f (w_dirty W)) (w_active W) (w_deps W) (w_newDeps W) (w_depIds W) (w_newDepIds W) (w_expression W) (w_getter W) (w_cb W) (w_value W).

Definition upd_w_active (f : bool → bool) (W : Watcher) : Watcher :=
  Build_Watcher (w_vm W) (w_deep W) (w_user W) (w_lazy W) (w_sync W) (w_before W) (w_dirty W) (f (w_active W)) (w_deps W) (w_newDeps W) (w_depIds W) (w_newDepIds W) (w_expression W) (w_getter W) (w_cb W) (w_value W).

Definition upd_w_deps (f : list nat → list nat) (W : Watcher) : Watcher :=
  Build_Watcher (w_vm W) (w_deep W) (w_user W) (w_lazy W) (w_sync W) (w_before W) (w_dirty W) (w_active W) (f (w_deps W)) (w_newDeps W) (w_depIds W) (w_newDepIds W) (w_expression W) (w_getter W) (w_cb W) (w_value W).

Definition upd_w_newDeps (f : list nat → list nat) (W : Watcher) : Watcher :=
  Build_Watcher (w_vm W) (w_deep W) (w_user W) (w_lazy W) (w_sync W) (w_before W) (w_dirty W) (w_active W) (w_deps W) (f (w_newDeps W)) (w_depIds W) (w_newDepIds W) (w_expression W) (w_getter W) (w_cb W) (w_value W).

Definition upd_w_depIds (f : gset nat → gset nat) (W : Watcher) : Watcher :=
  Build_Watcher (w_vm W) (w_deep W) (w_user W) (w_lazy W) (w_sync W) (w_before W) (w_dirty W) (w_active W) (w_deps W) (w_newDeps W) (f (w_depIds W)) (w_newDepIds W) (w_expression W) (w_getter W) (w_cb W) (w_value W).

Definition upd_w_newDepIds (f : gset nat → gset nat) (W : Watcher) : Watcher :=
  Build_Watcher (w_vm W) (w_deep W) (w_user W) (w_lazy W) (w_sync W) (w_before W) (w_dirty W) (w_active W) (w_deps W) (w_newDeps W) (w_depIds W) (f (w_newDepIds W)) (w_expression W) (w_getter W) (w_cb W) (w_value W).

Definition upd_w_value (f : Value → Value) (W : Watcher) : Watcher :=
  Build_Watcher (w_vm W) (w_deep W) (w_user W) (w_lazy W) (w_sync W) (w_before W) (w_dirty W) (w_active W) (w_deps W) (w_newDeps W) (w_depIds W) (w_newDepIds W) (w_expression W) (w_getter W) (w_cb W) (f (w_value W)).

Definition upd_o_props (f : list (Key * Slot) → list (Key * Slot)) (o : Obj) : Obj :=
  Build_Obj (o_kind o) (f (o_props o)) (o_elems o) (o_ob o) (o_extensible o) (o_isVue o) (o_isVNode o) (o_inherited o).

Definition upd_o_elems (f : list Value → list Value) (o : Obj) : Obj :=
  Build_Obj (o_kind o) (o_props o) (f (o_elems o)) (o_ob o) (o_extensible o) (o_isVue o) (o_isVNode o) (o_inherited o).

Definition upd_o_ob (f : option Observer → option Observer) (o : Obj) : Obj :=
  Build_Obj (o_kind o) (o_props o) (o_elems o) (f (o_ob o)) (o_extensible o) (o_isVue o) (o_isVNode o) (o_inherited o).

Definition upd_vm_watchers (f : list nat → list nat) (v : Vm) : Vm :=
  Build_Vm (f (vm_watchers v)) (vm_watcher v) (vm_computedWatchers v)
    (vm_isBeingDestroyed v) (vm_isMounted v) (vm_isDestroyed v).

Definition upd_ob_vmCount (f : nat → nat) (ob : Observer) : Observer :=
  Build_Observer (ob_dep ob) (f (ob_vmCount ob)).

(** ** The monad of effects: state, exceptions, and running out of fuel *)

Inductive Outcome (A : Type) : Type :=
| Ok (a : A) (w : World)
| Thrown (e : Value) (w : World)
| OutOfFuel.

Arguments Ok {A} a w.
Arguments Thrown {A} e w.
Arguments OutOfFuel {A}.

Definition M (A : Type) : Type := World → Outcome A.

#[global] Instance M_ret : MRet M := λ A a w, Ok a w.

#[global] Instance M_bind : MBind M := λ A B f m w,
  match m w with
  | Ok a w' => f a w'
  | Thrown e w' => Thrown e w'
  | OutOfFuel => OutOfFuel
  end.

Definition gets {A} (f : World → A) : M A := λ w, Ok (f w) w.
Definition modify (f : World → World) : M unit := λ w, Ok tt (f w).
Definition throw {A} (e : Value) : M A := λ w, Thrown e w.
Definition out_of_fuel {A} : M A := λ _, OutOfFuel.
Definition skip : M unit := mret tt.
Definition emit (e : Event) : M unit := modify (upd_trace (cons e)).
Definition when (b : bool) (m : M unit) : M unit := if b then m else skip.

(** [try { m } catch (e) { h e }] *)
Definition try_catch {A} (m : M A) (h : Value → M A) : M A := λ w,
  match m w with
  | Thrown e w' => h e w'
  | o => o
  end.

(** [try { x = m } finally { f x }], where [x] keeps its initial value
    [dflt] when [m] throws. *)
Definition try_finally {A} (dflt : A) (m : M A) (f : A → M unit) : M A := λ w,
  match m w with
  | Ok a w' => (f a;; mret a) w'
  | Thrown e w' => (f dflt;; throw e) w'
  | OutOfFuel => OutOfFuel
  end.

(** [for (x of l) f x] *)
Fixpoint forM_ {A} (l : list A) (f : A → M unit) : M unit :=
  match l with
  | [] => skip
  | x :: l' => f x;; forM_ l' f
  end.

Definition TypeError : Value := VStr "TypeError".

Definition getW (i : nat) : M Watcher := λ w,
  match watchers w !! i with
  | Some W => Ok W w
  | None => Thrown TypeError w
  end.

Definition getVm (i : nat) : M Vm := λ w,
  match vms w !! i with
  | Some v => Ok v w
  | None => Thrown TypeError w
  end.

Definition getObj (r : nat) : M Obj := λ w,
  match heap w !! r with
  | Some o => Ok o w
  | None => Thrown TypeError w
  end.

Definition modifyW (i : nat) (f : Watcher → Watcher) : M unit :=
  modify (upd_watchers (alter f i)).

Definition modifyObj (r : nat) (f : Obj → Obj) : M unit :=
  modify (upd_heap (alter f r)).

Definition modifySched (f : Sched → Sched) : M unit :=
  modify (upd_sched f).

(** [warn] of util/debug: reports a development warning. *)
Definition warn (m : Warning) : M unit := emit (EWarn m).

(** Modelled from the spec: [handleError] of util/error, missing from the
    sources at hand.  "a centralized error handler carrying (error,
    component-instance, context-string), non-fatal". *)
Definition handleError (e : Value) (vm : option nat) (info : string) : M unit :=
  emit (EHandleError e vm info).

(** Modelled from the spec: [invokeWithErrorHandling] of util/error; a
    throwing handler is "caught, reported with context". *)
Definition invokeWithErrorHandling (handler : M unit) (vm : option nat)
    (info : string) : M unit :=
  try_catch handler (λ e, handleError e vm info).

(** Modelled from the spec: [remove(arr, item)] of shared/util, which takes
    one occurrence of [item] out of [arr] (the first). *)
Fixpoint util_remove (arr : list nat) (item : nat) : list nat :=
  match arr with
  | [] => []
  | x :: arr' => if decide (x = item) then arr' else x :: util_remove arr' item
  end.

(** ** observer/dep.js

    The file is not among the sources at hand; [Dep] and the target stack
    are written from the specification. *)

(** Modelled from the spec: [Dep.target], "the currently collecting
    Watcher ... mediated as a single-slot stack": the top of
    [targetStack], if any. *)
Definition Dep_target (w : World) : option nat :=
  match targetStack w with
  | t :: _ => t
  | [] => None
  end.

(** Modelled from the spec: [pushTarget], "push on evaluation entry". *)
Definition pushTarget (t : option nat) : M unit :=
  modify (upd_targetStack (cons t)).

(** Modelled from the spec: [popTarget], "pop on exit". *)
Definition popTarget : M unit :=
  modify (upd_targetStack (drop 1)).

(** Modelled from the spec: [new Dep()], "identity (monotonic id)", with
    no subscriber. *)
Definition newDep : M nat :=
  d ← gets dep_uid;
  modify (upd_dep_uid S);;
  modify (upd_deps <[d := []]>);;
  mret d.

Definition subs (d : nat) (w : World) : list nat :=
  default [] (deps w !! d).

(** Modelled from the spec: [dep.addSub(sub)]; the subscribers are an
    "ordered set" that "must support idempotent add/remove". *)
Definition Dep_addSub (d sub : nat) : M unit :=
  modify (λ w, upd_deps <[d := if decide (sub ∈ subs d w) then subs d w
                               else subs d w ++ [sub]]> w).

(** Modelled from the spec: [dep.removeSub(sub)]. *)
Definition Dep_removeSub (d sub : nat) : M unit :=
  modify (λ w, upd_deps <[d := filter (λ x, x ≠ sub) (subs d w)]> w).

(** ** observer/watcher.js, dependency collection *)

(** [addDep (dep: Dep)] *)
Definition Watcher_addDep (this : nat) (dep : nat) : M unit :=
  W ← getW this;
  if decide (dep ∈ w_newDepIds W) then skip
  else
    modifyW this (upd_w_newDepIds (λ s, {[dep]} ∪ s));;
    modifyW this (upd_w_newDeps (λ l, l ++ [dep]));;
    if decide (dep ∈ w_depIds W) then skip
    else Dep_addSub dep this.

(** Modelled from the spec: [dep.depend()], which "registers the active
    Watcher with that property's Dep"; a call made while a Watcher
    collects is recorded in the trace. *)
Definition Dep_depend (d : nat) : M unit :=
  t ← gets Dep_target;
  match t with
  | Some this => emit (EDepend d this);; Watcher_addDep this d
  | None => skip
  end.

(** [cleanupDeps ()] *)
Definition Watcher_cleanupDeps (this : nat) : M unit :=
  W ← getW this;
  forM_ (rev (w_deps W)) (λ dep,
    if decide (dep ∈ w_newDepIds W) then skip else Dep_removeSub dep this);;
  modifyW this (λ W,
    upd_w_newDeps (λ _, [])
      (upd_w_deps (λ _, w_newDeps W)
        (upd_w_newDepIds (λ _, ∅)
          (upd_w_depIds (λ _, w_newDepIds W) W)))).

(** ** Reading a property *)

Fixpoint assoc {A} (k : Key) (l : list (Key * A)) : option A :=
  match l with
  | [] => None
  | (k', a) :: l' => if decide (k' = k) then Some a else assoc k l'
  end.

Definition lookup_slot (k : Key) (o : Obj) : option Slot :=
  assoc k (o_props o).

Definition is_array (w : World) (v : Value) : option (list Value) :=
  match v with
  | VRef r =>
      match heap w !! r with
      | Some o => if decide (o_kind o = KArray) then Some (o_elems o) else None
      | None => None
      end
  | _ => None
  end.

Definition ob_of (w : World) (v : Value) : option Observer :=
  match v with
  | VRef r => heap w !! r ≫= o_ob
  | _ => None
  end.

(** [dependArray (value)]; a nested array costs one unit of [fuel]. *)
Fixpoint dependArray (fuel : nat) (value : list Value) : M unit :=
  forM_ value (λ e,
    ob ← gets (λ w, ob_of w e);
    match ob with
    | Some ob => Dep_depend (ob_dep ob)
    | None => skip
    end;;
    arr ← gets (λ w, is_array w e);
    match arr with
    | Some es =>
        match fuel with
        | 0 => out_of_fuel
        | S fuel' => dependArray fuel' es
        end
    | None => skip
    end).

(** [reactiveGetter ()] of the property [key] of [obj], whose closure is
    [r]. *)
Definition reactiveGetter (fuel : nat) (r : Reactive) : M Value :=
  let value := if r_getter r then r_backing r else r_val r in
  t ← gets Dep_target;
  match t with
  | Some _ =>
      Dep_depend (r_dep r);;
      match r_childOb r with
      | Some child =>
          ob ← gets (λ w, ob_of w (VRef child));
          match ob with
          | Some ob => Dep_depend (ob_dep ob)
          | None => skip
          end;;
          arr ← gets (λ w, is_array w value);
          match arr with
          | Some es => dependArray fuel es
          | None => skip
          end
      | None => skip
      end
  | None => skip
  end;;
  mret value.

(** [obj[key]] *)
Definition read_prop (fuel : nat) (obj : nat) (key : Key) : M Value :=
  o ← gets (λ w, heap w !! obj);
  match o ≫= lookup_slot key with
  | Some (SReactive r) => reactiveGetter fuel r
  | Some (SData v _) => mret v
  | Some (SAccessor b hasGet _ _) => mret (if hasGet then b else VUndef)
  | None => mret VUndef
  end.

(** [this.getter.call(vm, vm)] *)
Fixpoint exec_getter (fuel : nat) (p : GProg) : M Value :=
  match p with
  | GRet v => mret v
  | GThrow e => throw e
  | GRead o k cont => v ← read_prop fuel o k; exec_getter fuel (cont v)
  end.

(** Modelled from the spec: [traverse(val)] of observer/traverse, which
    "touch[es] every property so they are all tracked as dependencies for
    deep watching"; a container already visited (by the id of its Dep) is
    skipped. *)
Fixpoint traverse_ (fuel : nat) (val : Value) (seen : gset nat) : M (gset nat) :=
  match val with
  | VRef r =>
      o ← gets (λ w, heap w !! r);
      match o with
      | None => mret seen
      | Some o =>
          if o_isVNode o then mret seen
          else
            let inner (v : Value) (s : gset nat) : M (gset nat) :=
              match fuel with
              | 0 => out_of_fuel
              | S fuel' => traverse_ fuel' v s
              end in
            let visit (seen : gset nat) : M (gset nat) :=
              match o_kind o with
              | KArray =>
                  foldr (λ e acc, s ← acc; inner e s) (mret seen) (o_elems o)
              | _ =>
                  foldr (λ k acc, s ← acc; v ← read_prop fuel r k; inner v s)
                        (mret seen) (fst <$> o_props o)
              end in
            match o_ob o with
            | Some ob =>
                if decide (ob_dep ob ∈ seen) then mret seen
                else visit ({[ob_dep ob]} ∪ seen)
            | None => visit seen
            end
      end
  | _ => mret seen
  end.

Definition traverse (fuel : nat) (val : Value) : M unit :=
  traverse_ fuel val ∅;; skip.

(** [get ()] *)
Definition Watcher_get (fuel : nat) (this : nat) : M Value :=
  pushTarget (Some this);;
  W ← getW this;
  let vm := w_vm W in
  try_finally VUndef
    (try_catch
       (emit (EGetter this);; exec_getter fuel (w_getter W))
       (λ e,
          if w_user W then
            handleError e (Some vm)
              ("getter for watcher " +:+ w_expression W);;
            mret VUndef
          else throw e))
    (λ value,
       when (w_deep W) (traverse fuel value);;
       popTarget;;
       Watcher_cleanupDeps this).

(** [evaluate ()] *)
Definition Watcher_evaluate (fuel : nat) (this : nat) : M unit :=
  v ← Watcher_get fuel this;
  modifyW this (upd_w_value (λ _, v));;
  modifyW this (upd_w_dirty (λ _, false)).

(** [depend ()] *)
Definition Watcher_depend (this : nat) : M unit :=
  W ← getW this;
  forM_ (rev (w_deps W)) Dep_depend.

(** [teardown ()] *)
Definition Watcher_teardown (this : nat) : M unit :=
  W ← getW this;
  if w_active W then
    vm ← getVm (w_vm W);
    when (negb (vm_isBeingDestroyed vm))
      (modify (upd_vms (alter (upd_vm_watchers (λ l, util_remove l this)) (w_vm W))));;
    forM_ (rev (w_deps W)) (λ dep, Dep_removeSub dep this);;
    modifyW this (upd_w_active (λ _, false))
  else skip.

(** ** observer/index.js: Observer, observe, defineReactive *)

Definition toggleObserving (value : bool) : M unit :=
  modify (upd_shouldObserve (λ _, value)).

(** [Object.defineProperty(obj, key, ...)]: an existing key keeps its
    place, a new one goes last. *)
Fixpoint set_slot (k : Key) (s : Slot) (l : list (Key * Slot)) : list (Key * Slot) :=
  match l with
  | [] => [(k, s)]
  | (k', s') :: l' =>
      if decide (k' = k) then (k, s) :: l' else (k', s') :: set_slot k s l'
  end.

Definition modifySlot (obj : nat) (key : Key) (f : Reactive → Reactive) : M unit :=
  modifyObj obj (upd_o_props (λ l,
    match assoc key l with
    | Some (SReactive r) => set_slot key (SReactive (f r)) l
    | _ => l
    end)).

Section Observe.
(** The recursive call [observe(val)], one frame deeper. *)
Variable observe_rec : Value → bool → M (option nat).

(** [defineReactive (obj, key, val, customSetter, shallow)]; [val] is
    [None] when the call has two arguments.  A property that an earlier
    [defineReactive] already made reactive is left as it is. *)
Definition defineReactive_ (obj : nat) (key : Key) (val : option Value)
    (customSetter shallow : bool) : M unit :=
  dep ← newDep;
  o ← getObj obj;
  let property := lookup_slot key o in
  match property with
  | Some (SData _ false) | Some (SAccessor _ _ _ false) => skip
  | Some (SReactive _) => skip
  | _ =>
      let getter := match property with Some (SAccessor _ g _ _) => g | _ => false end in
      let setter := match property with Some (SAccessor _ _ s _) => s | _ => false end in
      let backing := match property with Some (SAccessor b _ _ _) => b | _ => VUndef end in
      let current :=
        match property with
        | Some (SData v _) => v
        | Some (SAccessor b g _ _) => if g then b else VUndef
        | _ => VUndef
        end in
      let val :=
        match val with
        | Some v => v
        | None => if negb getter || setter then current else VUndef
        end in
      childOb ← (if shallow then mret None else observe_rec val false);
      modifyObj obj (upd_o_props (set_slot key (SReactive
        {| r_dep := dep; r_val := val; r_childOb := childOb;
           r_getter := getter; r_setter := setter; r_backing := backing;
           r_shallow := shallow; r_customSetter := customSetter |})))
  end.

(** [walk (obj)] *)
Definition walk_ (obj : nat) : M unit :=
  o ← getObj obj;
  forM_ (fst <$> o_props o) (λ key, defineReactive_ obj key None false false).

(** [observeArray (items)] *)
Definition observeArray_ (items : list Value) : M unit :=
  forM_ items (λ item, observe_rec item false;; skip).

(** [new Observer(value)] *)
Definition new_Observer_ (value : nat) : M unit :=
  dep ← newDep;
  modifyObj value (upd_o_ob (λ _, Some {| ob_dep := dep; ob_vmCount := 0 |}));;
  emit (EObserve value);;
  o ← getObj value;
  if decide (o_kind o = KArray) then observeArray_ (o_elems o)
  else walk_ value.

(** [observe (value, asRootData)]; the Observer handed back is named by
    the object that carries it. *)
Definition observe_ (value : Value) (asRootData : bool) : M (option nat) :=
  match value with
  | VRef r =>
      o ← getObj r;
      if o_isVNode o then mret None
      else
        so ← gets shouldObserve;
        e ← gets env;
        ob ← match o_ob o with
             | Some _ => mret (Some r)
             | None =>
                 if so && negb (serverRendering e)
                    && (bool_decide (o_kind o = KArray) || bool_decide (o_kind o = KPlain))
                    && o_extensible o && negb (o_isVue o)
                 then new_Observer_ r;; mret (Some r)
                 else mret None
             end;
        match ob with
        | Some r' =>
            when asRootData
              (modifyObj r' (upd_o_ob (fmap (upd_ob_vmCount S))));;
            mret ob
        | None => mret None
        end
  | _ => mret None
  end.
End Observe.

Fixpoint observe (fuel : nat) (value : Value) (asRootData : bool) : M (option nat) :=
  match fuel with
  | 0 => out_of_fuel
  | S fuel' => observe_ (observe fuel') value asRootData
  end.

Definition defineReactive (fuel : nat) := defineReactive_ (observe fuel).
Definition observeArray (fuel : nat) := observeArray_ (observe fuel).

(** ** util/next-tick.js *)

Definition modifyTick (f : Tick → Tick) : M unit := modify (upd_tick f).

(** [nextTick (cb)]; [timerFunc()] puts one [flushCallbacks] on the
    microtask queue. *)
Definition nextTick (cb : TickCb) : M unit :=
  modifyTick (upd_callbacks (λ l, l ++ [cb]));;
  p ← gets (λ w, pending (tick w));
  if p : bool then skip
  else
    modifyTick (upd_pending (λ _, true));;
    modifyTick (upd_timers S).

(** ** observer/scheduler.js *)

Definition MAX_UPDATE_COUNT : nat := 100.

(** [resetSchedulerState ()] *)
Definition resetSchedulerState : M unit :=
  e ← gets env;
  modifySched (λ s,
    {| queue := []; has := ∅;
       circular := if production e then circular s else ∅;
       waiting := false; flushing := false; index := 0 |}).

(** The loop [let i = queue.length - 1; while (i > index && queue[i].id >
    watcher.id) i--] of [queueWatcher]; [pos] is [i + 1]. *)
Fixpoint splice_pos (q : list nat) (index id : nat) (pos : nat) : nat :=
  match pos with
  | 0 => 0
  | S i =>
      if bool_decide (index < i) && bool_decide (id < default 0 (q !! i))
      then splice_pos q index id i
      else S i
  end.

(** [callUpdatedHooks (queue)] *)
Definition callUpdatedHooks (queue : list nat) : M unit :=
  forM_ (rev queue) (λ watcher,
    W ← getW watcher;
    vm ← getVm (w_vm W);
    when (bool_decide (vm_watcher vm = Some watcher)
          && vm_isMounted vm && negb (vm_isDestroyed vm))
      (emit (EUpdatedHook (w_vm W)))).

(** ** The re-entrant part: update, run, notify, the setter, the flush

    [watcher.run()] runs user callbacks, which assign reactive properties,
    whose setters notify Deps, whose subscribers are updated: run inline
    when [sync], queued otherwise; and queueing flushes at once when
    [config.async] is off.  The functions are written against the two
    calls that close the cycle and tied together by [fuel] below. *)

Section Knot.
Variable fuel : nat.
(** [watcher.run()] and [flushSchedulerQueue()], one frame deeper. *)
Variable run_rec : nat → M unit.
Variable flush_rec : M unit.

(** [queueWatcher (watcher)] *)
Definition queueWatcher_ (watcher : nat) : M unit :=
  let id := watcher in
  s ← gets sched;
  if decide (id ∈ has s) then skip
  else
    modifySched (upd_has (λ h, {[id]} ∪ h));;
    (if negb (flushing s) then
       modifySched (upd_queue (λ q, q ++ [watcher]))
     else
       let i1 := splice_pos (queue s) (index s) id (length (queue s)) in
       modifySched (upd_queue (λ q, take i1 q ++ watcher :: drop i1 q)));;
    if waiting s then skip
    else
      modifySched (upd_waiting (λ _, true));;
      e ← gets env;
      if negb (production e) && negb (config_async e) then flush_rec
      else nextTick TFlushSchedulerQueue.

(** [update ()] *)
Definition Watcher_update_ (this : nat) : M unit :=
  emit (EUpdate this);;
  W ← getW this;
  if w_lazy W then modifyW this (upd_w_dirty (λ _, true))
  else if w_sync W then run_rec this
  else queueWatcher_ this.

(** Modelled from the spec: [dep.notify()], "synchronously enumerating
    and invoking [update()] on every current subscriber". *)
Definition Dep_notify_ (d : nat) : M unit :=
  emit (ENotify d);;
  l ← gets (subs d);
  forM_ l Watcher_update_.

(** [reactiveSetter (newVal)] of the property [key] of [obj], whose
    closure is [r]. *)
Definition reactiveSetter_ (obj : nat) (key : Key) (r : Reactive)
    (newVal : Value) : M unit :=
  let value := if r_getter r then r_backing r else r_val r in
  if strict_eq newVal value
     || (negb (strict_eq newVal newVal) && negb (strict_eq value value))
  then skip
  else
    e ← gets env;
    when (negb (production e) && r_customSetter r)
      (warn (WCustomSetter obj key));;
    if r_getter r && negb (r_setter r) then skip
    else
      (if r_setter r then
         modifySlot obj key (λ r,
           {| r_dep := r_dep r; r_val := r_val r; r_childOb := r_childOb r;
              r_getter := r_getter r; r_setter := r_setter r;
              r_backing := newVal;
              r_shallow := r_shallow r; r_customSetter := r_customSetter r |})
       else
         modifySlot obj key (λ r,
           {| r_dep := r_dep r; r_val := newVal; r_childOb := r_childOb r;
              r_getter := r_getter r; r_setter := r_setter r;
              r_backing := r_backing r;
              r_shallow := r_shallow r; r_customSetter := r_customSetter r |}));;
      childOb ← (if r_shallow r then mret None else observe fuel newVal false);
      modifySlot obj key (λ r,
        {| r_dep := r_dep r; r_val := r_val r; r_childOb := childOb;
           r_getter := r_getter r; r_setter := r_setter r;
           r_backing := r_backing r;
           r_shallow := r_shallow r; r_customSetter := r_customSetter r |});;
      Dep_notify_ (r_dep r).

(** [obj[key] = val] *)
Definition write_prop_ (obj : nat) (key : Key) (val : Value) : M unit :=
  o ← getObj obj;
  match lookup_slot key o with
  | Some (SReactive r) => reactiveSetter_ obj key r val
  | Some (SData _ c) => modifyObj obj (upd_o_props (set_slot key (SData val c)))
  | Some (SAccessor b g s c) =>
      when s (modifyObj obj (upd_o_props (set_slot key (SAccessor val g s c))))
  | None =>
      when (o_extensible o)
        (modifyObj obj (upd_o_props (set_slot key (SData val true))))
  end.

(** [this.cb.call(this.vm, value, oldValue)] *)
Fixpoint exec_callback_ (p : CProg) : M unit :=
  match p with
  | CRet => skip
  | CThrow e => throw e
  | CWrite o k v cont => write_prop_ o k v;; exec_callback_ cont
  end.

(** [run ()], the block under [if (this.active)] *)
Definition Watcher_run_active_ (this : nat) : M unit :=
  value ← Watcher_get fuel this;
  W ← getW this;
  if negb (strict_eq value (w_value W)) || isObject value || w_deep W then
    let oldValue := w_value W in
    modifyW this (upd_w_value (λ _, value));;
    let call := emit (ECallback this value oldValue);;
                exec_callback_ (w_cb W value oldValue) in
    if w_user W then
      invokeWithErrorHandling call (Some (w_vm W))
        ("callback for watcher " +:+ w_expression W)
    else call
  else skip.

(** [run ()] *)
Definition Watcher_run_ (this : nat) : M unit :=
  emit (ERunBegin this);;
  W ← getW this;
  (if w_active W then Watcher_run_active_ this else skip);;
  emit (ERunEnd this).

(** The loop [for (index = 0; index < queue.length; index++)] of
    [flushSchedulerQueue], from the current [index] on. *)
Fixpoint flush_loop_ (n : nat) : M unit :=
  s ← gets sched;
  match queue s !! index s with
  | None => skip
  | Some watcher =>
      match n with
      | 0 => out_of_fuel
      | S n' =>
          W ← getW watcher;
          when (w_before W) (emit (EBefore watcher));;
          let id := watcher in
          modifySched (upd_has (λ h, h ∖ {[id]}));;
          run_rec watcher;;
          s ← gets sched;
          e ← gets env;
          if negb (production e) && bool_decide (id ∈ has s) then
            let c := default 0 (circular s !! id) + 1 in
            modifySched (upd_circular <[id := c]>);;
            if bool_decide (MAX_UPDATE_COUNT < c) then
              warn (if w_user W
                    then WInfiniteLoopUser (w_expression W) (w_vm W)
                    else WInfiniteLoopRender (w_vm W))
            else
              modifySched (upd_index S);;
              flush_loop_ n'
          else
            modifySched (upd_index S);;
            flush_loop_ n'
      end
  end.

(** [flushSchedulerQueue ()] *)
Definition flushSchedulerQueue_ : M unit :=
  modifySched (upd_flushing (λ _, true));;
  modifySched (upd_queue (merge_sort (≤)));;
  modifySched (upd_index (λ _, 0));;
  flush_loop_ fuel;;
  updatedQueue ← gets (λ w, queue (sched w));
  resetSchedulerState;;
  callUpdatedHooks updatedQueue.
End Knot.

(** [knot fuel] is the pair of [watcher.run()] and [flushSchedulerQueue()]
    that may nest [fuel] frames. *)
Fixpoint knot (fuel : nat) : (nat → M unit) * M unit :=
  match fuel with
  | 0 => (λ _, out_of_fuel, out_of_fuel)
  | S fuel' =>
      let k := knot fuel' in
      (Watcher_run_ fuel' (fst k) (snd k), flushSchedulerQueue_ fuel' (fst k))
  end.

Definition Watcher_run (fuel : nat) : nat → M unit := fst (knot fuel).
Definition flushSchedulerQueue (fuel : nat) : M unit := snd (knot fuel).

Definition queueWatcher (fuel : nat) := queueWatcher_ (flushSchedulerQueue fuel).
Definition Watcher_update (fuel : nat) :=
  Watcher_update_ (Watcher_run fuel) (flushSchedulerQueue fuel).
Definition Dep_notify (fuel : nat) :=
  Dep_notify_ (Watcher_run fuel) (flushSchedulerQueue fuel).
Definition reactiveSetter (fuel : nat) :=
  reactiveSetter_ fuel (Watcher_run fuel) (flushSchedulerQueue fuel).
Definition write_prop (fuel : nat) :=
  write_prop_ fuel (Watcher_run fuel) (flushSchedulerQueue fuel).
Definition exec_callback (fuel : nat) :=
  exec_callback_ fuel (Watcher_run fuel) (flushSchedulerQueue fuel).

(** ** observer/array.js *)

Definition newArray (elems : list Value) : M Value :=
  r ← gets heap_uid;
  modify (upd_heap_uid S);;
  modify (upd_heap <[r := {| o_kind := KArray; o_props := []; o_elems := elems;
                              o_ob := None; o_extensible := true; o_isVue := false;
                              o_isVNode := false; o_inherited := [] |}]>);;
  mret (VRef r).

(** [original.apply(this, args)] *)
Definition original (method : ArrayMethod) (this : nat) (args : list Value) : M Value :=
  o ← getObj this;
  e ← gets env;
  let r := arrayProto e method args (o_elems o) in
  modifyObj this (upd_o_elems (λ _, fst r));;
  match snd r with
  | NValue v => mret v
  | NThis => mret (VRef this)
  | NFresh l => newArray l
  end.

(** [function mutator (...args)] for [method], called on the array
    [this]. *)
Definition mutator (fuel : nat) (method : ArrayMethod) (this : nat)
    (args : list Value) : M Value :=
  result ← original method this args;
  o ← getObj this;
  match o_ob o with
  | None => throw TypeError
  | Some ob =>
      match method with
      | m_push | m_unshift => observeArray fuel args
      | m_splice => observeArray fuel (drop 2 args)
      | _ => skip
      end;;
      Dep_notify fuel (ob_dep ob);;
      mret result
  end.

(** ** observer/index.js: set *)

(** [key in target] *)
Definition key_in (e : Env) (key : Key) (o : Obj) : bool :=
  bool_decide (key ∈ fst <$> o_props o)
  || bool_decide (key ∈ o_inherited o)
  || bool_decide (key ∈ objectProto e)
  || (bool_decide (key = "__ob__") && bool_decide (is_Some (o_ob o))).

(** [set (target, key, val)] *)
Definition set (fuel : nat) (target : Value) (key : Key) (val : Value) : M Value :=
  e ← gets env;
  match target with
  | VRef t =>
      o ← getObj t;
      match (if decide (o_kind o = KArray) then isValidArrayIndex e key else None) with
      | Some n =>
          modifyObj t (upd_o_elems (λ l, l ++ replicate (n - length l) VUndef));;
          (* target.splice is the patched method once the array is observed *)
          match o_ob o with
          | Some _ => mutator fuel m_splice t [VNum (Z.of_nat n); VNum 1; val]
          | None => original m_splice t [VNum (Z.of_nat n); VNum 1; val]
          end;;
          mret val
      | None =>
          if key_in e key o && negb (bool_decide (key ∈ objectProto e)) then
            write_prop fuel t key val;;
            mret val
          else
            let ob := o_ob o in
            if o_isVue o
               || match ob with Some ob => negb (ob_vmCount ob =? 0) | None => false end
            then
              when (negb (production e)) (warn WSetOnRoot);;
              mret val
            else
              match ob with
              | None =>
                  write_prop fuel t key val;;
                  mret val
              | Some ob =>
                  defineReactive fuel t key (Some val) false false;;
                  Dep_notify fuel (ob_dep ob);;
                  mret val
              end
      end
  | _ =>
      when (negb (production e)) (warn WSetOnPrimitive);;
      throw TypeError
  end.

(** ** observer/watcher.js: the constructor *)

Record WatcherOptions : Type := {
  opt_deep : bool;
  opt_user : bool;
  opt_lazy : bool;
  opt_sync : bool;
  opt_before : bool
}.

Definition no_options : WatcherOptions :=
  {| opt_deep := false; opt_user := false; opt_lazy := false;
     opt_sync := false; opt_before := false |}.

(** [new Watcher(vm, expOrFn, cb, options, isRenderWatcher)]; [expOrFn] is
    the getter (for a path, the function [parsePath] makes of it) and
    [expression] its text. *)
Definition new_Watcher (fuel : nat) (vm : nat) (expOrFn : GProg)
    (expression : string) (cb : Value → Value → CProg)
    (options : option WatcherOptions) (isRenderWatcher : bool) : M nat :=
  v ← getVm vm;
  uid ← gets watcher_uid;
  let this := S uid in
  when isRenderWatcher
    (modify (upd_vms (alter (λ v,
       {| vm_watchers := vm_watchers v; vm_watcher := Some this;
          vm_computedWatchers := vm_computedWatchers v;
          vm_isBeingDestroyed := vm_isBeingDestroyed v;
          vm_isMounted := vm_isMounted v;
          vm_isDestroyed := vm_isDestroyed v |}) vm)));;
  modify (upd_vms (alter (upd_vm_watchers (λ l, l ++ [this])) vm));;
  let o := default no_options options in
  e ← gets env;
  modify (upd_watcher_uid (λ _, this));;
  modify (upd_watchers <[this :=
    {| w_vm := vm; w_deep := opt_deep o; w_user := opt_user o;
       w_lazy := opt_lazy o; w_sync := opt_sync o; w_before := opt_before o;
       w_dirty := opt_lazy o; w_active := true;
       w_deps := []; w_newDeps := []; w_depIds := ∅; w_newDepIds := ∅;
       w_expression := if production e then "" else expression;
       w_getter := expOrFn; w_cb := cb; w_value := VUndef |}]>);;
  (if opt_lazy o then skip
   else value ← Watcher_get fuel this; modifyW this (upd_w_value (λ _, value)));;
  mret this.

(** ** instance/state.js *)

(** [Vue.prototype.$watch (expOrFn, cb, options)]; the watcher stands for
    the [unwatchFn] handed back, which tears it down. *)
Definition Vue_watch (fuel : nat) (vm : nat) (expOrFn : GProg) (expression : string)
    (cb : Value → Value → CProg) (options : WatcherOptions) (immediate : bool)
    : M nat :=
  let options :=
    {| opt_deep := opt_deep options; opt_user := true; opt_lazy := opt_lazy options;
       opt_sync := opt_sync options; opt_before := opt_before options |} in
  watcher ← new_Watcher fuel vm expOrFn expression cb (Some options) false;
  when immediate
    (W ← getW watcher;
     pushTarget None;;
     invokeWithErrorHandling
       (emit (ECallback watcher (w_value W) VUndef);;
        exec_callback fuel (cb (w_value W) VUndef))
       (Some vm) ("callback for immediate watcher " +:+ w_expression W);;
     popTarget);;
  mret watcher.

(** One turn of the loop of [initComputed (vm, computed)], outside server
    rendering: the lazy watcher of the computed property [key]. *)
Definition initComputed (fuel : nat) (vm : nat) (key : Key) (getter : GProg) : M nat :=
  watcher ← new_Watcher fuel vm getter "" (λ _ _, CRet)
    (Some {| opt_deep := false; opt_user := false; opt_lazy := true;
             opt_sync := false; opt_before := false |}) false;
  modify (upd_vms (alter (λ v,
    {| vm_watchers := vm_watchers v; vm_watcher := vm_watcher v;
       vm_computedWatchers := vm_computedWatchers v ++ [(key, watcher)];
       vm_isBeingDestroyed := vm_isBeingDestroyed v;
       vm_isMounted := vm_isMounted v;
       vm_isDestroyed := vm_isDestroyed v |}) vm));;
  mret watcher.

(** [computedGetter ()] made by [createComputedGetter (key)], called on
    [vm]. *)
Definition computedGetter (fuel : nat) (vm : nat) (key : Key) : M Value :=
  v ← getVm vm;
  match assoc key (vm_computedWatchers v) with
  | Some watcher =>
      W ← getW watcher;
      when (w_dirty W) (Watcher_evaluate fuel watcher);;
      t ← gets Dep_target;
      when (bool_decide (is_Some t)) (Watcher_depend watcher);;
      W ← getW watcher;
      mret (w_value W)
  | None => mret VUndef
  end.

(** ** util/next-tick.js: the microtask *)

(** [flushCallbacks ()] *)
Definition flushCallbacks (fuel : nat) : M unit :=
  modifyTick (upd_pending (λ _, false));;
  copies ← gets (λ w, callbacks (tick w));
  modifyTick (upd_callbacks (λ _, []));;
  forM_ copies (λ cb,
    try_catch
      match cb with
      | TFlushSchedulerQueue => flushSchedulerQueue fuel
      | TUser p => exec_callback fuel p
      end
      (λ e, handleError e None "nextTick")).

(** The microtask boundary: the synchronous turn is over and the platform
    runs one [flushCallbacks] that [timerFunc] had put on its queue. *)
Definition microtask (fuel : nat) : M unit :=
  n ← gets (λ w, timers (tick w));
  match n with
  | 0 => skip
  | S n' => modifyTick (upd_timers (λ _, n'));; flushCallbacks fuel
  end.

(** * More of the program *)

(** ** instance/state.js: getData *)

(** [{}] *)
Definition newObject : M Value :=
  r ← gets heap_uid;
  modify (upd_heap_uid S);;
  modify (upd_heap <[r := {| o_kind := KPlain; o_props := []; o_elems := [];
                              o_ob := None; o_extensible := true; o_isVue := false;
                              o_isVNode := false; o_inherited := [] |}]>);;
  mret (VRef r).

(** [getData (data, vm)]; [data] is the function given as the [data]
    option, [data.call(vm, vm)] a getter like any other. *)
Definition getData (fuel : nat) (data : GProg) (vm : nat) : M Value :=
  pushTarget None;;
  try_finally VUndef
    (try_catch (exec_getter fuel data)
       (λ e, handleError e (Some vm) "data()";; newObject))
    (λ _, popTarget).

(** ** instance/inject.js *)

(** A component as [resolveInject] sees it: [_provided], if set, and
    [$parent], which the root has not. *)
Inductive Component : Type :=
  | Root (provided : option (list (Key * Value)))
  | Child (provided : option (list (Key * Value))) (parent : Component).

Definition c_provided (c : Component) : option (list (Key * Value)) :=
  match c with Root p | Child p _ => p end.

(** [inject[key]] after normalisation: [from], and [default] when the
    option has one: a value, or a function to call. *)
Inductive InjectDefault : Type :=
  | DefaultValue (v : Value)
  | DefaultFactory (f : GProg).

Record Injection : Type := {
  inj_from : Key;
  inj_default : option InjectDefault
}.

(** The loop [while (source)] of [resolveInject]: the value that the
    nearest component (the instance itself included) provides under
    [provideKey]. *)
Fixpoint lookup_provided (source : Component) (provideKey : Key) : option Value :=
  match c_provided source ≫= assoc provideKey with
  | Some v => Some v
  | None =>
      match source with
      | Child _ parent => lookup_provided parent provideKey
      | Root _ => None
      end
  end.

(** [result[key] = v] *)
Fixpoint assign {A} (k : Key) (a : A) (l : list (Key * A)) : list (Key * A) :=
  match l with
  | [] => [(k, a)]
  | (k', a') :: l' =>
      if decide (k' = k) then (k, a) :: l' else (k', a') :: assign k a l'
  end.

(** What [resolveInject] warns of, in a development build:
    [Injection "key" not found]. *)
Inductive InjectWarning : Type :=
  InjectionNotFound (key : Key).

(** One turn of the loop of [resolveInject] over the keys of [inject];
    the warnings are handed back with the result. *)
Definition resolveInject_key (fuel : nat) (vm : Component) (key : Key) (inj : Injection)
    (acc : list (Key * Value) * list InjectWarning)
    : M (list (Key * Value) * list InjectWarning) :=
  if decide (key = "__ob__") then mret acc
  else
    match lookup_provided vm (inj_from inj) with
    | Some v => mret (assign key v (fst acc), snd acc)
    | None =>
        match inj_default inj with
        | Some (DefaultValue v) => mret (assign key v (fst acc), snd acc)
        | Some (DefaultFactory f) =>
            v ← exec_getter fuel f;
            mret (assign key v (fst acc), snd acc)
        | None =>
            e ← gets env;
            if negb (production e)
            then mret (fst acc, snd acc ++ [InjectionNotFound key])
            else mret acc
        end
    end.

Fixpoint resolveInject_loop (fuel : nat) (vm : Component)
    (keys : list (Key * Injection)) (acc : list (Key * Value) * list InjectWarning)
    : M (list (Key * Value) * list InjectWarning) :=
  match keys with
  | [] => mret acc
  | (key, inj) :: keys' =>
      acc' ← resolveInject_key fuel vm key inj acc;
      resolveInject_loop fuel vm keys' acc'
  end.

(** [resolveInject (inject, vm)] *)
Definition resolveInject (fuel : nat) (inject : option (list (Key * Injection)))
    (vm : Component) : M (option (list (Key * Value)) * list InjectWarning) :=
  match inject with
  | Some keys =>
      r ← resolveInject_loop fuel vm keys ([], []);
      mret (Some (fst r), snd r)
  | None => mret (None, [])
  end.

(** [initInjections (vm)]; [this] is the instance as an object of the
    heap, [vm] what [resolveInject] sees of it. *)
Definition initInjections (fuel : nat) (inject : option (list (Key * Injection)))
    (vm : Component) (this : nat) : M (list InjectWarning) :=
  r ← resolveInject fuel inject vm;
  match fst r with
  | Some result =>
      toggleObserving false;;
      e ← gets env;
      forM_ result (λ kv,
        defineReactive fuel this (fst kv) (Some (snd kv)) (negb (production e)) false);;
      toggleObserving true;;
      mret (snd r)
  | None => mret (snd r)
  end.

(** ** A concrete platform and small worlds to run the code in *)

Definition example_arrayProto (method : ArrayMethod) (args elems : list Value)
    : list Value * NativeResult :=
  match method with
  | m_push => (elems ++ args, NValue (VNum (Z.of_nat (length (elems ++ args)))))
  | m_pop => (removelast elems, NValue (List.last elems VUndef))
  | m_shift => (drop 1 elems, NValue (default VUndef (head elems)))
  | m_unshift => (args ++ elems, NValue (VNum (Z.of_nat (length (args ++ elems)))))
  | m_splice =>
      match args with
      | VNum start :: VNum count :: items =>
          let s := Z.to_nat start `min` length elems in
          let c := Z.to_nat count `min` (length elems - s) in
          (take s elems ++ items ++ drop (s + c) elems, NFresh (take c (drop s elems)))
      | _ => (elems, NFresh [])
      end
  | m_sort => (elems, NThis)
  | m_reverse => (rev elems, NThis)
  end.

Definition example_env (prod async : bool) : Env :=
  {| production := prod; config_async := async; serverRendering := false;
     arrayProto := example_arrayProto;
     isValidArrayIndex := λ _, None;
     objectProto := ["constructor"; "toString"; "valueOf"; "hasOwnProperty"] |}.

Definition empty_world (e : Env) : World :=
  {| env := e; heap := ∅; heap_uid := 0; deps := ∅; dep_uid := 0;
     watchers := ∅; watcher_uid := 0; vms := ∅; targetStack := [];
     shouldObserve := true;
     sched := {| queue := []; has := ∅; circular := ∅; waiting := false;
                 flushing := false; index := 0 |};
     tick := {| callbacks := []; pending := false; timers := 0 |};
     trace := [] |}.

Definition plain (props : list (Key * Value)) : Obj :=
  {| o_kind := KPlain; o_props := (λ p, (fst p, SData (snd p) true)) <$> props;
     o_elems := []; o_ob := None; o_extensible := true; o_isVue := false;
     o_isVNode := false; o_inherited := [] |}.

Definition array (elems : list Value) : Obj :=
  {| o_kind := KArray; o_props := []; o_elems := elems;
     o_ob := None; o_extensible := true; o_isVue := false;
     o_isVNode := false; o_inherited := [] |}.

Definition new_vm : Vm :=
  {| vm_watchers := []; vm_watcher := None; vm_computedWatchers := [];
     vm_isBeingDestroyed := false; vm_isMounted := false; vm_isDestroyed := false |}.

(** The world that a computation leaves, and the events it adds. *)
Definition world_after {A} (m : M A) (w : World) : World :=
  match m w with
  | Ok _ w' | Thrown _ w' => w'
  | OutOfFuel => w
  end.

Definition new_events (w w' : World) : list Event :=
  take (length (trace w') - length (trace w)) (trace w').

(** A component with data [{b: 1}] (object 0, root data of vm 0) and a
    computed property [c] that reads [b]. *)
Definition computed_world : World :=
  world_after
    (modify (upd_heap <[0 := plain [("b", VNum 1)]]>);;
     modify (upd_heap_uid (λ _, 1));;
     modify (upd_vms <[0 := new_vm]>);;
     observe 3 (VRef 0) true;;
     initComputed 3 0 "c" (GRead 0 "b" GRet))
    (empty_world (example_env false true)).

(** [c] is read, then [b] is assigned, which marks [c] dirty. *)
Definition dirty_world : World :=
  world_after
    (computedGetter 3 0 "c";; write_prop 3 0 "b" (VNum 2))
    computed_world.

(** The watcher of [c] is torn down, as [vm.$destroy()] does. *)
Definition torn_down_world : World :=
  world_after (Watcher_teardown 1) dirty_world.

(** [a + b] on numbers. *)
Definition js_add (a b : Value) : Value :=
  match a, b with
  | VNum x, VNum y => VNum (x + y)
  | _, _ => VNaN
  end.

(** A component with data [{a: 1, b: 2}] (object 0) and a computed
    property [sum] that returns [a + b]. *)
Definition sum_world : World :=
  world_after
    (modify (upd_heap <[0 := plain [("a", VNum 1); ("b", VNum 2)]]>);;
     modify (upd_heap_uid (λ _, 1));;
     modify (upd_vms <[0 := new_vm]>);;
     observe 3 (VRef 0) true;;
     initComputed 3 0 "sum"
       (GRead 0 "a" (λ a, GRead 0 "b" (λ b, GRet (js_add a b)))))
    (empty_world (example_env false true)).

(** The component instance stored under an id, for worlds where it is
    known to be there. *)
Definition the_vm (i : nat) (w : World) : Vm :=
  default new_vm (vms w !! i).

(** [computed_world] while [vm.$destroy()] runs: [_isBeingDestroyed] is
    set before the watchers are torn down. *)
Definition destroying_world : World :=
  upd_vms (alter (λ v,
    {| vm_watchers := vm_watchers v; vm_watcher := vm_watcher v;
       vm_computedWatchers := vm_computedWatchers v;
       vm_isBeingDestroyed := true;
       vm_isMounted := vm_isMounted v; vm_isDestroyed := vm_isDestroyed v |}) 0)
    computed_world.

(** A callback that assigns [count + 1] to the watched [count] while it is
    below [limit]: the watcher queues itself during its own run. *)
Definition increment_below (limit : Z) (value _ : Value) : CProg :=
  match value with
  | VNum n => if (n <? limit)%Z then CWrite 0 "count" (VNum (n + 1)) CRet else CRet
  | _ => CRet
  end.

(** Data [{count: 0}]; watcher 1 watches [count] with the callback above
    (a user watcher, or else the render watcher of the component); watcher
    2 is a user watcher of [count] that does nothing; then [count = 1] is
    assigned, which queues both and schedules the flush. *)
Definition runaway_world (prod user : bool) (limit : Z) : World :=
  world_after
    (modify (upd_heap <[0 := plain [("count", VNum 0)]]>);;
     modify (upd_heap_uid (λ _, 1));;
     modify (upd_vms <[0 := new_vm]>);;
     observe 5 (VRef 0) true;;
     (if user then
        Vue_watch 5 0 (GRead 0 "count" GRet) "count" (increment_below limit)
          no_options false
      else
        new_Watcher 5 0 (GRead 0 "count" GRet) "render" (increment_below limit)
          None true);;
     Vue_watch 5 0 (GRead 0 "count" GRet) "count" (λ _ _, CRet) no_options false;;
     write_prop 5 0 "count" (VNum 1))
    (empty_world (example_env prod true)).

(** The object stored under a reference, for worlds where it is known to
    be there. *)
Definition the_obj (r : nat) (w : World) : Obj :=
  default (plain []) (heap w !! r).

(** Data [{items: []}] (object 0, the array is object 1), observed, with
    a watcher on [items]; object 2 is [{x: 1}], not yet part of the data,
    extensible or not (as after [Object.freeze]). *)
Definition list_world (extensible : bool) : World :=
  world_after
    (modify (upd_heap <[0 := plain [("items", VRef 1)]]>);;
     modify (upd_heap <[1 := array []]>);;
     modify (upd_heap <[2 :=
       {| o_kind := KPlain; o_props := [("x", SData (VNum 1) true)]; o_elems := [];
          o_ob := None; o_extensible := extensible; o_isVue := false;
          o_isVNode := false; o_inherited := [] |}]>);;
     modify (upd_heap_uid (λ _, 3));;
     modify (upd_vms <[0 := new_vm]>);;
     observe 5 (VRef 0) true;;
     Vue_watch 5 0 (GRead 0 "items" GRet) "items" (λ _ _, CRet) no_options false)
    (empty_world (example_env false true)).

(** The closure of a reactive property, for objects where it is known to
    be reactive. *)
Definition the_reactive (key : Key) (o : Obj) : Reactive :=
  match lookup_slot key o with
  | Some (SReactive r) => r
  | _ => {| r_dep := 0; r_val := VUndef; r_childOb := None; r_getter := false;
            r_setter := false; r_backing := VUndef; r_shallow := false;
            r_customSetter := false |}
  end.

Definition the_observer (r : nat) (w : World) : Observer :=
  default {| ob_dep := 0; ob_vmCount := 0 |} (o_ob (the_obj r w)).

(** [runaway_world] once the flush has begun. *)
Definition flushing_world : World :=
  upd_sched (upd_flushing (λ _, true)) (runaway_world false true 1000).

(** Data [{a: 0, b: 0}]; watcher 1 watches [b], watcher 2, made after it,
    watches [a]; [a] is assigned before [b], so that watcher 2 is queued
    first. *)
Definition family_world : World :=
  world_after
    (modify (upd_heap <[0 := plain [("a", VNum 0); ("b", VNum 0)]]>);;
     modify (upd_heap_uid (λ _, 1));;
     modify (upd_vms <[0 := new_vm]>);;
     observe 5 (VRef 0) true;;
     Vue_watch 5 0 (GRead 0 "b" GRet) "b" (λ _ _, CRet) no_options false;;
     Vue_watch 5 0 (GRead 0 "a" GRet) "a" (λ _ _, CRet) no_options false;;
     write_prop 5 0 "a" (VNum 1);;
     write_prop 5 0 "b" (VNum 1))
    (empty_world (example_env false true)).

(** Data [{count: 0}], observed, and a user watcher (watcher 1) on
    [count] whose callback does nothing but be called. *)
Definition count_world : World :=
  world_after
    (modify (upd_heap <[0 := plain [("count", VNum 0)]]>);;
     modify (upd_heap_uid (λ _, 1));;
     modify (upd_vms <[0 := new_vm]>);;
     observe 5 (VRef 0) true;;
     Vue_watch 5 0 (GRead 0 "count" GRet) "count" (λ _ _, CRet) no_options false)
    (empty_world (example_env false true)).

(** [count = 1; count = 2; count = 3] *)
Definition three_writes : list (nat * Key * Value) :=
  [(0, "count", VNum 1); (0, "count", VNum 2); (0, "count", VNum 3)].

(** Data [{user: {name: "Ann"}}]: the root is object 0, [user] is object
    1; both are observed, and only the root counts as root data. *)
Definition profile_world : World :=
  world_after
    (modify (upd_heap <[0 := plain [("user", VRef 1)]]>);;
     modify (upd_heap <[1 := plain [("name", VStr "Ann")]]>);;
     modify (upd_heap_uid (λ _, 2));;
     modify (upd_vms <[0 := new_vm]>);;
     observe 5 (VRef 0) true)
    (empty_world (example_env false true)).

(** * Specification vocabulary *)

(** [hoare E I R m]: started in a world that satisfies [I], the
    computation [m], when it returns or throws, leaves a world that
    satisfies [I] and is related to the first by [R]; and it throws only
    what [E] allows. *)
Definition hoare {A} (E : Value → Prop) (I : World → Prop)
    (R : World → World → Prop) (m : M A) : Prop :=
  ∀ w, I w →
    match m w with
    | Ok _ w' => I w' ∧ R w w'
    | Thrown e w' => E e ∧ I w' ∧ R w w'
    | OutOfFuel => True
    end.

Definition no_exn : Value → Prop := λ _, False.
Definition any_exn : Value → Prop := λ _, True.

(** ** Dependency collection *)

(** The Deps on which [depend()] ran for the collecting watcher [this],
    read off a piece of trace. *)
Definition reads_of (this : nat) (evs : list Event) : list nat :=
  omap (λ e, match e with
             | EDepend d t => if decide (t = this) then Some d else None
             | _ => None
             end) evs.

(** The events of collection: a Dep depended on, an error reported. *)
Definition collect_event (e : Event) : Prop :=
  match e with
  | EDepend _ _ | EHandleError _ _ _ => True
  | _ => False
  end.

(** Only the new generation of a watcher changes while it collects. *)
Definition same_collector (W W' : Watcher) : Prop :=
  W' = upd_w_newDeps (λ _, w_newDeps W') (upd_w_newDepIds (λ _, w_newDepIds W') W).

Definition collecting (this : nat) (w : World) : Prop :=
  Dep_target w = Some this ∧ is_Some (watchers w !! this).

(** What reading reactive state may change while [this] collects: the
    trace grows by [evs]; [this] takes the Deps read into its new
    generation and subscribes to those it had in neither generation. *)
Record collects (this : nat) (w w' : World) : Prop := {
  col_env : env w' = env w;
  col_heap : heap w' = heap w;
  col_heap_uid : heap_uid w' = heap_uid w;
  col_dep_uid : dep_uid w' = dep_uid w;
  col_watcher_uid : watcher_uid w' = watcher_uid w;
  col_vms : vms w' = vms w;
  col_stack : targetStack w' = targetStack w;
  col_shouldObserve : shouldObserve w' = shouldObserve w;
  col_sched : sched w' = sched w;
  col_tick : tick w' = tick w;
  col_others : ∀ i, i ≠ this → watchers w' !! i = watchers w !! i;
  col_this : ∃ evs, trace w' = evs ++ trace w ∧ Forall collect_event evs ∧
    ∀ W, watchers w !! this = Some W →
      ∃ W', watchers w' !! this = Some W' ∧ same_collector W W' ∧
        (∀ d, d ∈ w_newDepIds W' ↔ d ∈ w_newDepIds W ∨ d ∈ reads_of this evs) ∧
        (∀ d, d ∈ w_newDeps W' ↔
              d ∈ w_newDeps W ∨ (d ∈ reads_of this evs ∧ d ∉ w_newDepIds W)) ∧
        (∀ d x, x ∈ subs d w' ↔
              x ∈ subs d w ∨ ((x = this) ∧ (d ∈ reads_of this evs)
                              ∧ (d ∉ w_newDepIds W) ∧ (d ∉ w_depIds W)))
}.

(** The state of the watcher [this] and of the Deps after [get()], in
    terms of the state before and of the Deps read in between. *)
Record evaluated (this : nat) (W : Watcher) (w w' : World) : Prop := {
  ev_env : env w' = env w;
  ev_heap : heap w' = heap w;
  ev_heap_uid : heap_uid w' = heap_uid w;
  ev_dep_uid : dep_uid w' = dep_uid w;
  ev_watcher_uid : watcher_uid w' = watcher_uid w;
  ev_vms : vms w' = vms w;
  ev_stack : targetStack w' = targetStack w;
  ev_shouldObserve : shouldObserve w' = shouldObserve w;
  ev_sched : sched w' = sched w;
  ev_tick : tick w' = tick w;
  ev_others : ∀ i, i ≠ this → watchers w' !! i = watchers w !! i;
  ev_this : ∃ evs W', trace w' = evs ++ EGetter this :: trace w
    ∧ Forall collect_event evs ∧ watchers w' !! this = Some W' ∧
    W' = upd_w_newDeps (λ _, []) (upd_w_deps (λ _, w_deps W')
           (upd_w_newDepIds (λ _, ∅) (upd_w_depIds (λ _, w_depIds W') W))) ∧
    (∀ d, d ∈ w_depIds W' ↔ d ∈ w_newDepIds W ∨ d ∈ reads_of this evs) ∧
    (∀ d, d ∈ w_deps W' ↔
          d ∈ w_newDeps W ∨ (d ∈ reads_of this evs ∧ d ∉ w_newDepIds W)) ∧
    (∀ d x, x ∈ subs d w' ↔
          (x ∈ subs d w ∨ ((x = this) ∧ (d ∈ reads_of this evs)
                           ∧ (d ∉ w_newDepIds W) ∧ (d ∉ w_depIds W)))
          ∧ ¬ ((x = this) ∧ (d ∈ w_deps W)
               ∧ ¬ (d ∈ w_newDepIds W ∨ d ∈ reads_of this evs)))
}.

(** The [finally] block of [get()]. *)
Definition get_finally (fuel this : nat) (W : Watcher) (value : Value) : M unit :=
  when (w_deep W) (traverse fuel value);;
  popTarget;;
  Watcher_cleanupDeps this.

(** The world in which the getter starts: [this] is the collecting
    target. *)
Definition get_entry (this : nat) (w : World) : World :=
  upd_trace (cons (EGetter this)) (upd_targetStack (cons (Some this)) w).

Definition getter_error (W : Watcher) (e : Value) : Event :=
  EHandleError e (Some (w_vm W)) ("getter for watcher " +:+ w_expression W).

(** A watcher at rest: its new generation is empty, [depIds] are the ids
    of [deps], and it is a subscriber of exactly the Deps in [deps]. *)
Definition subscribed_to_deps (this : nat) (W : Watcher) (w : World) : Prop :=
  w_newDeps W = [] ∧ w_newDepIds W = ∅
  ∧ (∀ d, d ∈ w_depIds W ↔ d ∈ w_deps W)
  ∧ (∀ d, this ∈ subs d w ↔ d ∈ w_deps W).


(** [subscribed_to_deps], as a test that computes. *)
Definition subscribed_to_depsb (this : nat) (W : Watcher) (w : World) : bool :=
  bool_decide (w_newDeps W = [])
  && bool_decide (w_newDepIds W = ∅)
  && bool_decide (w_depIds W = list_to_set (w_deps W))
  && bool_decide (map_Forall (λ d l, this ∈ l ↔ d ∈ w_deps W) (deps w))
  && bool_decide (Forall (λ d, this ∈ subs d w) (w_deps W)).

(** The watcher stored under an id, for worlds where it is known to be
    there. *)
Definition the_watcher (i : nat) (w : World) : Watcher :=
  default {| w_vm := 0; w_deep := false; w_user := false; w_lazy := false;
             w_sync := false; w_before := false; w_dirty := false;
             w_active := false; w_deps := []; w_newDeps := [];
             w_depIds := ∅; w_newDepIds := ∅; w_expression := "";
             w_getter := GRet VUndef; w_cb := λ _ _, CRet; w_value := VUndef |}
          (watchers w !! i).

#[global] Instance Warning_eq_dec : EqDecision Warning.
Proof. solve_decision. Defined.

#[global] Instance Event_eq_dec : EqDecision Event.
Proof. solve_decision. Defined.


(** How many times [run()] of [this] was entered in a piece of trace. *)
Definition runs (this : nat) (evs : list Event) : nat :=
  length (filter (λ e, e = ERunBegin this) evs).

Definition warnings (evs : list Event) : list Warning :=
  omap (λ e, match e with EWarn m => Some m | _ => None end) evs.

(** The world in which the flush calls [watcher.run()]: the [before] hook
    has run and [has[id]] is cleared. *)
Definition flush_pre (watcher : nat) (W : Watcher) (w : World) : World :=
  upd_sched (upd_has (λ h, h ∖ {[watcher]}))
    (if w_before W then upd_trace (cons (EBefore watcher)) w else w).

Definition infinite_loop_warning (W : Watcher) : Warning :=
  if w_user W then WInfiniteLoopUser (w_expression W) (w_vm W)
  else WInfiniteLoopRender (w_vm W).

(** ** Observation *)

(** What [observe] may change: it attaches Observers and turns properties
    into reactive ones; it creates Deps; it leaves the kind, the elements
    and the flags of every object alone, and an Observer once attached
    stays, with its Dep. *)
Record observing (w w' : World) : Prop := {
  obs_env : env w' = env w;
  obs_shouldObserve : shouldObserve w' = shouldObserve w;
  obs_sched : sched w' = sched w;
  obs_tick : tick w' = tick w;
  obs_watchers : watchers w' = watchers w;
  obs_watcher_uid : watcher_uid w' = watcher_uid w;
  obs_vms : vms w' = vms w;
  obs_stack : targetStack w' = targetStack w;
  obs_heap_uid : heap_uid w' = heap_uid w;
  obs_heap : ∀ r o, heap w !! r = Some o →
    ∃ o', heap w' !! r = Some o'
      ∧ o_kind o' = o_kind o ∧ o_elems o' = o_elems o
      ∧ o_extensible o' = o_extensible o ∧ o_isVue o' = o_isVue o
      ∧ o_isVNode o' = o_isVNode o
      ∧ (∀ ob, o_ob o = Some ob → ∃ ob', o_ob o' = Some ob' ∧ ob_dep ob' = ob_dep ob);
  obs_trace : ∃ evs, trace w' = evs ++ trace w ∧ Forall (λ e, ∃ r, e = EObserve r) evs
}.

Definition always : World → Prop := λ _, True.

(** The guard of [observe]: the value is an object that already carries an
    Observer or that may receive one. *)
Definition observable (w : World) (r : nat) : Prop :=
  ∃ o, heap w !! r = Some o ∧ o_isVNode o = false
    ∧ (is_Some (o_ob o)
       ∨ (shouldObserve w = true ∧ serverRendering (env w) = false
          ∧ (o_kind o = KArray ∨ o_kind o = KPlain)
          ∧ o_extensible o = true ∧ o_isVue o = false)).

Definition observed (w : World) (r : nat) : Prop :=
  ∃ o ob, heap w !! r = Some o ∧ o_ob o = Some ob.

(** The arguments that a patched array method treats as inserted. *)
Definition inserted (method : ArrayMethod) (args : list Value) : list Value :=
  match method with
  | m_push | m_unshift => args
  | m_splice => drop 2 args
  | _ => []
  end.

Definition notifications (d : nat) (evs : list Event) : nat :=
  length (filter (λ e, e = ENotify d) evs).

(** ** Code that leaves the scheduler alone *)

(** The part of a watcher that its constructor fixes. *)
Definition same_static (W W' : Watcher) : Prop :=
  w_vm W' = w_vm W ∧ w_deep W' = w_deep W ∧ w_user W' = w_user W
  ∧ w_lazy W' = w_lazy W ∧ w_sync W' = w_sync W ∧ w_before W' = w_before W
  ∧ w_expression W' = w_expression W ∧ w_getter W' = w_getter W
  ∧ w_cb W' = w_cb W.

Definition watchers_static (w w' : World) : Prop :=
  ∀ i, match watchers w !! i, watchers w' !! i with
       | Some W, Some W' => same_static W W'
       | None, None => True
       | _, _ => False
       end.

Definition quiet_event (e : Event) : Prop :=
  match e with
  | EGetter _ | EDepend _ _ | EObserve _ | EHandleError _ _ _
  | EWarn (WCustomSetter _ _) => True
  | _ => False
  end.

(** Evaluating a getter, observing a value and storing into a property
    leave the scheduler, the next-tick queue and the constructor's part of
    every watcher alone; what they add to the trace says so. *)
Record quiet (w w' : World) : Prop := {
  q_env : env w' = env w;
  q_sched : sched w' = sched w;
  q_tick : tick w' = tick w;
  q_vms : vms w' = vms w;
  q_watcher_uid : watcher_uid w' = watcher_uid w;
  q_static : watchers_static w w';
  q_trace : ∃ evs, trace w' = evs ++ trace w ∧ Forall quiet_event evs
}.

(** ** The order of a flush *)

(** No constraint between two worlds. *)
Definition anyhow : World → World → Prop := λ _ _, True.

(** A piece of trace, newest event first, in which every run of [Wc]
    begins after a run of [Wp] has ended. *)
Definition runs_after (Wp Wc : nat) (evs : list Event) : Prop :=
  ∀ later earlier, evs = later ++ ERunBegin Wc :: earlier → ERunEnd Wp ∈ earlier.

(** Where [queueWatcher] puts [x] in the queue of a flush under way. *)
Definition spliced (x : nat) (s : Sched) : Sched :=
  let i1 := splice_pos (queue s) (index s) x (length (queue s)) in
  upd_queue (λ q, take i1 q ++ x :: drop i1 q) (upd_has (λ h, {[x]} ∪ h) s).

(** A world in the middle of a flush: the trace satisfies [T], which every
    [allowed] event keeps; the queue satisfies [Q]; and a [sync] watcher
    is one whose run is [allowed]. *)
Definition during_flush (T : list Event → Prop) (allowed : Event → Prop)
    (Q : Sched → Prop) (w : World) : Prop :=
  flushing (sched w) = true ∧ waiting (sched w) = true
  ∧ T (trace w) ∧ Q (sched w)
  ∧ ∀ i W, watchers w !! i = Some W → w_sync W = true → allowed (ERunBegin i).

(** [Wp] is still to come in the queue, at or after position
    [index + b], and [Wc] does not come before it. *)
Definition pending_before (Wp Wc b : nat) (s : Sched) : Prop :=
  ∃ p, index s + b ≤ p ∧ queue s !! p = Some Wp
    ∧ ∀ j, index s + b ≤ j < p → queue s !! j ≠ Some Wc.

(** Since the trace was [t0], no run of [Wc] has begun. *)
Definition not_begun (Wc : nat) (t0 t : list Event) : Prop :=
  ∃ evs, t = evs ++ t0 ∧ ERunBegin Wc ∉ evs.

(** Since the trace was [t0], a run of [Wp] has ended, and no run of [Wc]
    had begun before one had. *)
Definition parent_ran (Wp Wc : nat) (t0 t : list Event) : Prop :=
  ∃ evs, t = evs ++ t0 ∧ ERunEnd Wp ∈ evs ∧ runs_after Wp Wc evs.

Definition other_than (e0 e : Event) : Prop := e ≠ e0.
Definition any_event : Event → Prop := λ _, True.
Definition any_sched : Sched → Prop := λ _, True.

(** The three stages of a flush with respect to [Wp] and [Wc]: [Wp] is
    still to come and [Wc] has not run; [Wp] is running; [Wp] has run. *)
Definition before_parent (Wp Wc : nat) (t0 : list Event) (b : nat) : World → Prop :=
  during_flush (not_begun Wc t0) (other_than (ERunBegin Wc)) (pending_before Wp Wc b).

Definition in_parent (Wc : nat) (t0 : list Event) : World → Prop :=
  during_flush (not_begun Wc t0) (other_than (ERunBegin Wc)) any_sched.

Definition after_parent (Wp Wc : nat) (t0 : list Event) : World → Prop :=
  during_flush (parent_ran Wp Wc t0) any_event any_sched.

(** Since the trace was [t0], every run of [Wc] began after a run of [Wp]
    had ended. *)
Definition ordered_since (Wp Wc : nat) (t0 : list Event) (w : World) : Prop :=
  ∃ evs, trace w = evs ++ t0 ∧ runs_after Wp Wc evs.

(** The starts and ends of runs in a piece of trace. *)
Definition run_events (evs : list Event) : list Event :=
  omap (λ e, match e with ERunBegin _ | ERunEnd _ => Some e | _ => None end) evs.

(** Every watcher made so far has an id up to the counter. *)
Definition ids_bounded (w : World) : Prop :=
  ∀ i, is_Some (watchers w !! i) → i ≤ watcher_uid w.

(** ** One synchronous turn, then the microtask *)



(** The flush is deferred to the next tick: a production build, or
    [config.async] left on. *)
Definition async_mode (e : Env) : Prop :=
  production e = true ∨ config_async e = true.

Definition no_sync_watcher (w : World) : Prop :=
  ∀ i X, watchers w !! i = Some X → w_lazy X = false → w_sync X = false.

Definition tick_idle (t : Tick) : Prop :=
  callbacks t = [] ∧ pending t = false ∧ timers t = 0.

(** One [flushCallbacks] is on the microtask queue, and what it will call
    is [flushSchedulerQueue]. *)
Definition flush_scheduled (t : Tick) : Prop :=
  callbacks t = [TFlushSchedulerQueue] ∧ pending t = true ∧ timers t = 1.

(** Nothing queued, nothing scheduled. *)
Definition idle (w : World) : Prop :=
  queue (sched w) = [] ∧ has (sched w) = ∅ ∧ waiting (sched w) = false
  ∧ flushing (sched w) = false ∧ tick_idle (tick w).

(** The scheduler between two flushes: each queued watcher is queued once
    and marked in [has]; the flush is scheduled as soon as the queue is
    not empty. *)
Definition in_turn (w : World) : Prop :=
  async_mode (env w) ∧ no_sync_watcher w ∧ flushing (sched w) = false
  ∧ NoDup (queue (sched w))
  ∧ (∀ x, x ∈ has (sched w) ↔ x ∈ queue (sched w))
  ∧ (if waiting (sched w) then flush_scheduled (tick w)
     else queue (sched w) = [] ∧ tick_idle (tick w)).

(** What a turn does: it runs no watcher, and every watcher (not lazy)
    whose [update()] it calls is in the queue afterwards. *)
Record turn_step (w w' : World) : Prop := {
  ts_static : watchers_static w w';
  ts_queue : ∀ x, x ∈ queue (sched w) → x ∈ queue (sched w');
  ts_trace : ∃ evs, trace w' = evs ++ trace w
    ∧ (∀ i, ERunBegin i ∉ evs)
    ∧ ∀ x X, EUpdate x ∈ evs → watchers w !! x = Some X → w_lazy X = false →
        x ∈ queue (sched w')
}.

(** The writes of one call stack, in order. *)
Definition assign_all (fuel : nat) (writes : list (nat * Key * Value)) : M unit :=
  forM_ writes (λ a, write_prop fuel a.1.1 a.1.2 a.2).

(** The callbacks called in a piece of trace, with their arguments. *)
Definition callback_calls (evs : list Event) : list (nat * Value * Value) :=
  omap (λ e, match e with ECallback i v o => Some (i, v, o) | _ => None end) evs.

(** What a run whose callback assigns nothing changes: nothing of the
    scheduler, and no run begins within it. *)
Record calm (w w' : World) : Prop := {
  calm_env : env w' = env w;
  calm_sched : sched w' = sched w;
  calm_tick : tick w' = tick w;
  calm_static : watchers_static w w';
  calm_trace : ∃ evs, trace w' = evs ++ trace w ∧ ∀ i, ERunBegin i ∉ evs
}.


(** ** More vocabulary *)

(** The trace grows, and no run begins. *)
Definition silent (w w' : World) : Prop :=
  ∃ evs, trace w' = evs ++ trace w ∧ ∀ i, ERunBegin i ∉ evs.


(** What reading a property gives, apart from the dependency it may
    record. *)
Definition slot_value (s : option Slot) : Value :=
  match s with
  | Some (SReactive r) => if r_getter r then r_backing r else r_val r
  | Some (SData v _) => v
  | Some (SAccessor b hasGet _ _) => if hasGet then b else VUndef
  | None => VUndef
  end.

(** Every object is still there and every property reads as before. *)
Definition reads_kept (w w' : World) : Prop :=
  ∀ r o, heap w !! r = Some o →
    ∃ o', heap w' !! r = Some o'
      ∧ ∀ k, slot_value (lookup_slot k o') = slot_value (lookup_slot k o).

(** ** Injections *)

(** What [resolveInject] finds for one injection whose default, if any,
    is a value: the value of the nearest provider, else the default. *)
Definition injected (vm : Component) (inj : Injection) : option Value :=
  match lookup_provided vm (inj_from inj) with
  | Some v => Some v
  | None =>
      match inj_default inj with
      | Some (DefaultValue d) => Some d
      | _ => None
      end
  end.

Definition no_factory (keys : list (Key * Injection)) : Prop :=
  ∀ k inj f, (k, inj) ∈ keys → inj_default inj ≠ Some (DefaultFactory f).

(** ** What [observe] leaves alone *)

(** The objects that carry an Observer, [but] one, keep it and keep
    their properties as they are. *)
Definition settled_but (but : option nat) (w w' : World) : Prop :=
  ∀ r o, Some r ≠ but → heap w !! r = Some o → is_Some (o_ob o) →
    ∃ o', heap w' !! r = Some o' ∧ o_props o' = o_props o ∧ is_Some (o_ob o').

Definition settled : World → World → Prop := settled_but None.
(** ** More examples *)

(** [sum_world] with a render watcher (watcher 2) for the component, in
    the middle of its [get()]: the watcher collects. *)
Definition reader_world : World :=
  get_entry 2
    (world_after (new_Watcher 3 0 (GRet VUndef) "" (λ _ _, CRet) None true) sum_world).

(** [list_world] with a component instance (object 3). *)
Definition inject_world : World :=
  upd_heap_uid (λ _, 4)
    (upd_heap <[3 := {| o_kind := KOther; o_props := []; o_elems := [];
                        o_ob := None; o_extensible := true; o_isVue := true;
                        o_isVNode := false; o_inherited := [] |}]>
       (list_world true)).

(** A component that provides nothing, below a parent that provides
    [theme], below a root that provides [theme], [locale] and, as
    [store], the object 2. *)
Definition theme_tree : Component :=
  Child None
    (Child (Some [("theme", VStr "dark")])
       (Root (Some [("theme", VStr "light"); ("locale", VStr "en");
                    ("store", VRef 2)]))).

(** [inject: { theme: 'theme', lang: { from: 'locale', default: 'fr' },
    store: 'store', user: { from: 'user', default: null }, token: 'token' }] *)
Definition theme_inject : list (Key * Injection) :=
  [("theme", {| inj_from := "theme"; inj_default := None |});
   ("lang", {| inj_from := "locale"; inj_default := Some (DefaultValue (VStr "fr")) |});
   ("store", {| inj_from := "store"; inj_default := None |});
   ("user", {| inj_from := "user"; inj_default := Some (DefaultValue VNull) |});
   ("token", {| inj_from := "token"; inj_default := None |})].

(** Data [{user: {name: "Ann"}}] before it is observed: the root is
    object 0, [user] is object 1. *)
Definition raw_profile_world : World :=
  world_after
    (modify (upd_heap <[0 := plain [("user", VRef 1)]]>);;
     modify (upd_heap <[1 := plain [("name", VStr "Ann")]]>);;
     modify (upd_heap_uid (λ _, 2)))
    (empty_world (example_env false true)).


(** * Properties *)

Lemma strict_eq_refl_false (v : Value) : strict_eq v v = false ↔ v = VNaN.
Proof.
  destruct v; simpl; split; intros H; try done;
    rewrite bool_decide_eq_false in H; done.
Qed.

(** C3. *)
Theorem reactiveSetter_same_value_noop
    (fuel obj : nat) (key : Key) (newVal : Value) (o : Obj) (r : Reactive) (w : World) :
  heap w !! obj = Some o →
  lookup_slot key o = Some (SReactive r) →
  (let value := if r_getter r then r_backing r else r_val r in
   strict_eq newVal value = true ∨ (newVal = VNaN ∧ value = VNaN)) →
  write_prop fuel obj key newVal w = Ok tt w
  ∧ reactiveSetter fuel obj key r newVal w = Ok tt w.
Proof.
  intros Ho Hs Heq.
  assert (Hset : reactiveSetter fuel obj key r newVal w = Ok tt w).
  { unfold reactiveSetter, reactiveSetter_. simpl in Heq.
    destruct Heq as [-> | [-> ->]]; [done|].
    by destruct (r_getter r). }
  split; [|done].
  unfold write_prop, write_prop_, getObj, mbind, M_bind.
  rewrite Ho, Hs. exact Hset.
Qed.

Theorem set_on_root_noop
    (fuel t : nat) (key : Key) (val : Value) (o : Obj) (w : World) :
  heap w !! t = Some o →
  o_kind o ≠ KArray →
  (o_isVue o = true ∨ ∃ ob, o_ob o = Some ob ∧ 0 < ob_vmCount ob) →
  key_in (env w) key o = false →
  set fuel (VRef t) key val w
  = Ok val (if production (env w) then w else upd_trace (cons (EWarn WSetOnRoot)) w).
Proof.
  intros Ho Hk Hroot Hin.
  unfold set, getObj, gets, mbind, M_bind. rewrite Ho.
  destruct (decide (o_kind o = KArray)); [done|].
  rewrite Hin. simpl.
  assert (o_isVue o
          || match o_ob o with Some ob => negb (ob_vmCount ob =? 0) | None => false end
          = true) as ->.
  { destruct Hroot as [-> | (ob & -> & Hc)]; [done|].
    apply orb_true_iff. right. apply negb_true_iff, Nat.eqb_neq. lia. }
  by destruct (production (env w)).
Qed.

(** ** Relational specifications of effectful code *)

Section hoare.
Context (E : Value → Prop) (I : World → Prop) (R : World → World → Prop).
Context `{!Reflexive R, !Transitive R}.

Lemma hoare_ret {A} (a : A) : hoare E I R (mret a).
Proof. intros w Hw. simpl. done. Qed.

Lemma hoare_skip : hoare E I R skip.
Proof. apply hoare_ret. Qed.

Lemma hoare_gets {A} (f : World → A) : hoare E I R (gets f).
Proof. intros w Hw. simpl. done. Qed.

Lemma hoare_throw {A} (e : Value) : E e → hoare E I R (@throw A e).
Proof. intros He w Hw. simpl. done. Qed.

Lemma hoare_out_of_fuel {A} : hoare E I R (@out_of_fuel A).
Proof. intros w Hw. done. Qed.

Lemma hoare_modify (f : World → World) :
  (∀ w, I w → I (f w) ∧ R w (f w)) → hoare E I R (modify f).
Proof. intros H w Hw. simpl. auto. Qed.

Lemma hoare_bind {A B} (m : M A) (f : A → M B) :
  hoare E I R m → (∀ a, hoare E I R (f a)) → hoare E I R (m ≫= f).
Proof.
  intros Hm Hf w Hw. unfold mbind, M_bind.
  specialize (Hm w Hw). destruct (m w) as [a w'|e w'|]; [|done..].
  destruct Hm as [Hw' HR]. specialize (Hf a w' Hw').
  destruct (f a w') as [b w''|e w''|]; [| |done].
  - split; [tauto | etrans; [exact HR | tauto]].
  - split_and!; [tauto.. | etrans; [exact HR | tauto]].
Qed.

Lemma hoare_when (b : bool) (m : M unit) : hoare E I R m → hoare E I R (when b m).
Proof. destruct b; [done | intros _; apply hoare_skip]. Qed.

Lemma hoare_forM_ {A} (l : list A) (f : A → M unit) :
  (∀ x, hoare E I R (f x)) → hoare E I R (forM_ l f).
Proof.
  intros Hf. induction l as [|x l IH]; simpl.
  - apply hoare_skip.
  - apply hoare_bind; [apply Hf | intros _; exact IH].
Qed.

Lemma hoare_try_catch {A} (E' : Value → Prop) (m : M A) (h : Value → M A) :
  hoare E' I R m → (∀ e, E' e → hoare E I R (h e)) → hoare E I R (try_catch m h).
Proof.
  intros Hm Hh w Hw. unfold try_catch.
  specialize (Hm w Hw). destruct (m w) as [a w'|e w'|]; [done| |done].
  destruct Hm as (He & Hw' & HR). specialize (Hh e He w' Hw').
  destruct (h e w') as [b w''|e' w''|]; [| |done].
  - split; [tauto | etrans; [exact HR | tauto]].
  - split_and!; [tauto.. | etrans; [exact HR | tauto]].
Qed.
End hoare.

(** Syntax-directed proof of a [hoare] specification: sequencing, the
    constant computations, and case analysis on what a [match] inspects. *)
Ltac hoare_basic :=
  first
    [ apply hoare_ret | apply hoare_skip | apply hoare_gets
    | apply hoare_throw; try done | apply hoare_out_of_fuel ].

Ltac hoare_step lem :=
  first
    [ hoare_basic; try apply _
    | lem
    | apply hoare_bind; try apply _; [|intro]
    | apply hoare_when; try apply _
    | apply hoare_forM_; try apply _; intro
    | match goal with
      | |- hoare _ _ _ (match ?x with _ => _ end) => destruct x
      | |- hoare _ _ _ (if ?x then _ else _) => destruct x
      end ].

(** ** Dependency collection *)

Lemma reads_of_app this evs1 evs2 :
  reads_of this (evs1 ++ evs2) = reads_of this evs1 ++ reads_of this evs2.
Proof. apply omap_app. Qed.

#[global] Instance collects_refl this : Reflexive (collects this).
Proof.
  intros w. split; try done. exists []. split; [done|]. split; [done|].
  intros W HW. exists W. split; [done|]. split; [by destruct W|].
  simpl. setoid_rewrite elem_of_nil. split_and!; intros; tauto.
Qed.

#[global] Instance collects_trans this : Transitive (collects this).
Proof.
  intros w1 w2 w3 [] []. split; try congruence.
  - intros i Hi. rewrite col_others1, col_others0; done.
  - destruct col_this0 as (evs1 & Ht1 & Hf1 & H1), col_this1 as (evs2 & Ht2 & Hf2 & H2).
    exists (evs2 ++ evs1). split; [by rewrite Ht2, Ht1, (assoc_L (++))|].
    split; [by apply Forall_app|].
    intros W HW. destruct (H1 W HW) as (W' & HW' & Hs1 & Ha1 & Hb1 & Hc1).
    destruct (H2 W' HW') as (W'' & HW'' & Hs2 & Ha2 & Hb2 & Hc2).
    exists W''. split; [done|]. split.
    { unfold same_collector in *. rewrite Hs2. rewrite Hs1 at 1. by destruct W. }
    assert (w_depIds W' = w_depIds W) as Hd by (rewrite Hs1; done).
    rewrite Hd in Hc2.
    rewrite reads_of_app. setoid_rewrite elem_of_app.
    split_and!.
    + intros d. rewrite Ha2, Ha1. tauto.
    + intros d. rewrite Hb2, Hb1, Ha1.
      destruct (decide (d ∈ w_newDepIds W));
        destruct (decide (d ∈ reads_of this evs1)); tauto.
    + intros d x. rewrite Hc2, Hc1, Ha1.
      destruct (decide (d ∈ w_newDepIds W));
        destruct (decide (d ∈ reads_of this evs1)); tauto.
Qed.

Lemma subs_upd_deps_insert d l w d' :
  subs d' (upd_deps <[d := l]> w) = if decide (d = d') then l else subs d' w.
Proof.
  unfold subs. simpl. rewrite lookup_insert. by case_decide.
Qed.

Lemma hoare_Dep_depend E this d :
  hoare E (collecting this) (collects this) (Dep_depend d).
Proof.
  intros w [Ht [W HW]]. unfold Dep_depend, gets, mbind, M_bind.
  rewrite Ht. unfold emit, modify, Watcher_addDep, getW, mbind, M_bind. simpl.
  rewrite HW.
  destruct (decide (d ∈ w_newDepIds W)) as [Hin|Hin]; simpl.
  { split; [by split; [|exists W]|]. split; try done.
    exists [EDepend d this]. split; [done|].
    split; [by repeat constructor|]. intros W0 HW0.
    assert (W0 = W) as -> by congruence.
    exists W. split; [done|]. split; [by destruct W|].
    simpl. rewrite decide_True by done. simpl.
    setoid_rewrite list_elem_of_singleton.
    split_and!.
    - intros d0. split; [auto|]. intros [? | ->]; done.
    - intros d0. split; [auto|]. intros [? | [-> ?]]; done.
    - intros d0 x. split; [auto|]. intros [? | (_ & -> & ? & _)]; done. }
  assert (Halt : alter (upd_w_newDeps (λ l, l ++ [d])) this
            (alter (upd_w_newDepIds (λ s, {[d]} ∪ s)) this (watchers w)) !! this
          = Some (upd_w_newDeps (λ l, l ++ [d]) (upd_w_newDepIds (λ s, {[d]} ∪ s) W))).
  { rewrite !lookup_alter_eq, HW. done. }
  destruct (decide (d ∈ w_depIds W)) as [Hold|Hold]; simpl.
  - split; [split; [done|eexists; exact Halt]|]. split; try done.
    + intros i Hi. simpl. by rewrite !lookup_alter_ne.
    + exists [EDepend d this]. split; [done|].
      split; [by repeat constructor|]. intros W0 HW0.
      assert (W0 = W) as -> by congruence.
      eexists. split; [exact Halt|]. split; [by destruct W|].
      simpl. rewrite decide_True by done. simpl.
      setoid_rewrite list_elem_of_singleton.
      split_and!.
      * intros d0. rewrite elem_of_union, elem_of_singleton. tauto.
      * intros d0. rewrite elem_of_app, list_elem_of_singleton.
        split; [intros [? | ->]; auto | intros [? | [-> ?]]; auto].
      * intros d0 x. split; [tauto|]. intros [? | (_ & -> & _ & ?)]; done.
  - split; [split; [done|eexists; exact Halt]|]. split; try done.
    + intros i Hi. simpl. by rewrite !lookup_alter_ne.
    + exists [EDepend d this]. split; [done|].
      split; [by repeat constructor|]. intros W0 HW0.
      assert (W0 = W) as -> by congruence.
      eexists. split; [exact Halt|]. split; [by destruct W|].
      simpl. rewrite decide_True by done. simpl.
      setoid_rewrite list_elem_of_singleton.
      split_and!.
      * intros d0. rewrite elem_of_union, elem_of_singleton. tauto.
      * intros d0. rewrite elem_of_app, list_elem_of_singleton.
        split; [intros [? | ->]; auto | intros [? | [-> ?]]; auto].
      * intros d0 x. rewrite subs_upd_deps_insert.
        case_decide as Hd; [subst d0|].
        -- case_decide as Hs.
           ++ split; [auto|]. intros [? | (-> & _)]; done.
           ++ rewrite elem_of_app, list_elem_of_singleton.
              split; [intros [? | ->]; auto | intros [? | (-> & _)]; auto].
        -- split; [auto|]. intros [? | (_ & ? & _)]; [done|congruence].
Qed.

Section collecting.
Context (E : Value → Prop) (this : nat).

Lemma hoare_dependArray fuel value : hoare E (collecting this) (collects this) (dependArray fuel value).
Proof.
  revert value. induction fuel as [|fuel IH]; intros value; simpl;
    repeat hoare_step ltac:(first [apply hoare_Dep_depend | apply IH]).
Qed.

Lemma hoare_reactiveGetter fuel r : hoare E (collecting this) (collects this) (reactiveGetter fuel r).
Proof.
  unfold reactiveGetter.
  repeat hoare_step ltac:(first [apply hoare_Dep_depend | apply hoare_dependArray]).
Qed.

Lemma hoare_read_prop fuel obj key : hoare E (collecting this) (collects this) (read_prop fuel obj key).
Proof.
  unfold read_prop. repeat hoare_step ltac:(apply hoare_reactiveGetter).
Qed.

Lemma hoare_emit e :
  collect_event e → (∀ d, e ≠ EDepend d this) →
  hoare E (collecting this) (collects this) (emit e).
Proof.
  intros Hce He w [Ht [W HW]]. simpl. split; [by split; [|exists W]|].
  split; try done. exists [e]. split; [done|].
  split; [by repeat constructor|]. intros W0 HW0.
  exists W0. split; [done|]. split; [by destruct W0|].
  assert (reads_of this [e] = []) as ->.
  { destruct e; try done. simpl. case_decide; [subst|done]. by destruct (He d). }
  setoid_rewrite elem_of_nil. split_and!; intros; tauto.
Qed.

Lemma hoare_traverse_visit fuel (inner : Value → gset nat → M (gset nat)) o r seen :
  (∀ v s, hoare E (collecting this) (collects this) (inner v s)) →
  hoare E (collecting this) (collects this) (match o_kind o with
        | KArray => foldr (λ e acc, s ← acc; inner e s) (mret seen) (o_elems o)
        | _ => foldr (λ k acc, s ← acc; v ← read_prop fuel r k; inner v s)
                     (mret seen) (fst <$> o_props o)
        end).
Proof.
  intros Hin.
  assert (hoare E (collecting this) (collects this) (foldr (λ k acc, s ← acc; v ← read_prop fuel r k; inner v s)
                      (mret seen) (fst <$> o_props o))) as Hobj.
  { induction (fst <$> o_props o) as [|k l IHl]; simpl;
      repeat hoare_step ltac:(first [apply hoare_read_prop | apply IHl | apply Hin]). }
  destruct (o_kind o); [done| |done].
  induction (o_elems o) as [|k l IHl]; simpl;
    repeat hoare_step ltac:(first [apply IHl | apply Hin]).
Qed.

Lemma hoare_traverse_ fuel val seen : hoare E (collecting this) (collects this) (traverse_ fuel val seen).
Proof.
  revert val seen. induction fuel as [|fuel IH]; intros val seen;
    (destruct val; simpl; try (hoare_basic; apply _);
     apply hoare_bind; try apply _; [hoare_basic; apply _|];
     intros [o|]; [|hoare_basic; apply _];
     destruct (o_isVNode o); [hoare_basic; apply _|];
     destruct (o_ob o); [case_decide|]; try (hoare_basic; apply _);
     apply hoare_traverse_visit; intros; first [apply IH | hoare_basic; apply _]).
Qed.

Lemma hoare_traverse fuel val : hoare E (collecting this) (collects this) (traverse fuel val).
Proof.
  unfold traverse. repeat hoare_step ltac:(apply hoare_traverse_).
Qed.
End collecting.

Lemma hoare_exec_getter this fuel p :
  hoare any_exn (collecting this) (collects this) (exec_getter fuel p).
Proof.
  induction p as [v|e|o k cont IH]; simpl;
    repeat hoare_step ltac:(first [apply hoare_read_prop | apply IH]).
Qed.

(** ** [cleanupDeps] and [get] *)

Lemma elem_of_rev {A} (x : A) (l : list A) : x ∈ rev l ↔ x ∈ l.
Proof. rewrite !list_elem_of_In. symmetry. apply in_rev. Qed.

Lemma removeSub_loop this (N : gset nat) l w :
  ∃ w', forM_ l (λ dep, if decide (dep ∈ N) then skip else Dep_removeSub dep this) w
        = Ok tt w'
    ∧ w' = upd_deps (λ _, deps w') w
    ∧ ∀ d x, x ∈ subs d w' ↔ x ∈ subs d w ∧ ¬ (x = this ∧ d ∈ l ∧ d ∉ N).
Proof.
  revert w. induction l as [|d0 l IH]; intros w; simpl.
  { exists w. split; [done|]. split; [by destruct w|].
    intros d x. rewrite elem_of_nil. tauto. }
  unfold mbind, M_bind.
  destruct (decide (d0 ∈ N)) as [Hin|Hin]; simpl.
  - destruct (IH w) as (w' & -> & Hw' & Hs). exists w'. split; [done|].
    split; [done|]. intros d x. rewrite Hs, elem_of_cons.
    split; [|tauto]. intros [? Hn]. split; [done|].
    intros (-> & [->|?] & ?); tauto.
  - destruct (IH (upd_deps <[d0:=filter (λ x, x ≠ this) (subs d0 w)]> w))
      as (w' & -> & Hw' & Hs).
    exists w'. split; [done|]. split; [by rewrite Hw' at 1|].
    intros d x. rewrite Hs, subs_upd_deps_insert, elem_of_cons.
    case_decide as Hd; [subst d0; rewrite list_elem_of_filter|].
    + split; [|tauto]. intros [[? ?] ?]. tauto.
    + split; [|tauto]. intros [? Hn]. split; [done|].
      intros (-> & [->|?] & ?); tauto.
Qed.

Lemma get_finally_post fuel this W value w w1 :
  watchers w !! this = Some W →
  collects this (get_entry this w) w1 →
  match get_finally fuel this W value w1 with
  | Ok _ w' => evaluated this W w w'
  | Thrown _ _ => False
  | OutOfFuel => True
  end.
Proof.
  intros HW Hc1. unfold get_finally.
  assert (collecting this w1) as Hi1.
  { split; [unfold Dep_target; by rewrite (col_stack _ _ _ Hc1)|].
    destruct (col_this _ _ _ Hc1) as (evs & _ & _ & H).
    destruct (H W HW) as (W' & -> & _). by eexists. }
  pose proof (hoare_when no_exn _ _ (w_deep W) _
                (hoare_traverse no_exn this fuel value) w1 Hi1) as Ht.
  unfold mbind at 1, M_bind at 1.
  destruct (when (w_deep W) (traverse fuel value) w1) as [[] w2|e w2|]; [|tauto|done].
  destruct Ht as [Hi2 Hc2].
  assert (collects this (get_entry this w) w2) as Hc by (etrans; done).
  clear Hc1 Hc2 Hi1 w1.
  destruct Hc as [? ? ? ? ? ? Hst ? ? ? Hoth (evs & Htr & Hevs & Hthis)]. simpl in *.
  destruct (Hthis W HW) as (W2 & HW2 & Hsame & HA & HB & HC).
  unfold same_collector in Hsame.
  unfold popTarget, Watcher_cleanupDeps, modify, getW, mbind, M_bind, modifyW. simpl.
  rewrite HW2.
  destruct (removeSub_loop this (w_newDepIds W2) (rev (w_deps W2))
              (upd_targetStack (drop 1) w2)) as (w3 & -> & Hw3 & Hs).
  simpl. rewrite Hw3. simpl.
  split; simpl; try done.
  - by rewrite Hst.
  - intros i Hi. rewrite lookup_alter_ne by done. auto.
  - exists evs. eexists. split; [done|]. split; [done|].
    rewrite lookup_alter_eq, HW2. simpl.
    split; [done|].
    assert (w_deps W2 = w_deps W ∧ w_depIds W2 = w_depIds W) as [Hd1 Hd2]
      by (rewrite Hsame; done).
    split; [rewrite Hsame; by destruct W|].
    split; [done|]. split; [done|].
    intros d x.
    match goal with |- ?a ∈ _ ↔ ?R => change (a ∈ subs d w3 ↔ R) end.
    rewrite Hs.
    change (subs d (upd_targetStack (drop 1) w2)) with (subs d w2).
    rewrite HC, elem_of_rev, Hd1, HA.
    change (subs d (get_entry this w)) with (subs d w).
    tauto.
Qed.

(** [get()] by cases on what the getter does. *)
Lemma Watcher_get_unfold fuel this W w :
  watchers w !! this = Some W →
  Watcher_get fuel this w =
  match exec_getter fuel (w_getter W) (get_entry this w) with
  | Ok v w1 => (get_finally fuel this W v;; mret v) w1
  | Thrown e w1 =>
      if w_user W then
        (get_finally fuel this W VUndef;; mret VUndef)
          (upd_trace (cons (getter_error W e)) w1)
      else (get_finally fuel this W VUndef;; throw e) w1
  | OutOfFuel => OutOfFuel
  end.
Proof.
  intros HW. unfold Watcher_get, pushTarget, getW, modify, mbind, M_bind. simpl.
  rewrite HW. unfold try_finally, try_catch, emit, modify, mbind, M_bind. simpl.
  fold (get_entry this w).
  destruct (exec_getter fuel (w_getter W) (get_entry this w)) as [v w1|e w1|]; [done| |done].
  destruct (w_user W); [|done].
  unfold handleError, emit, modify. simpl. done.
Qed.

Lemma collecting_get_entry this W w :
  watchers w !! this = Some W → collecting this (get_entry this w).
Proof. intros HW. split; [done|by eexists]. Qed.

Lemma hoare_getter_error this W e :
  hoare any_exn (collecting this) (collects this) (emit (getter_error W e)).
Proof. by apply hoare_emit. Qed.

Lemma Watcher_get_post fuel this W w :
  watchers w !! this = Some W →
  match Watcher_get fuel this w with
  | Ok _ w' => evaluated this W w w'
  | Thrown _ w' => w_user W = false ∧ evaluated this W w w'
  | OutOfFuel => True
  end.
Proof.
  intros HW. rewrite (Watcher_get_unfold _ _ _ _ HW).
  pose proof (collecting_get_entry this W w HW) as Hi0.
  pose proof (hoare_exec_getter this fuel (w_getter W) _ Hi0) as Hg.
  destruct (exec_getter fuel (w_getter W) (get_entry this w)) as [v w1|e w1|]; [| |done].
  - destruct Hg as [Hi1 Hc].
    pose proof (get_finally_post fuel this W v w w1 HW Hc) as Hf.
    unfold mbind, M_bind.
    destruct (get_finally fuel this W v w1) as [[] w2|e w2|]; done.
  - destruct Hg as (_ & Hi1 & Hc).
    destruct (w_user W) eqn:Hu.
    + pose proof (hoare_getter_error this W e w1 Hi1) as [Hi2 Hc2].
      assert (collects this (get_entry this w)
                (upd_trace (cons (getter_error W e)) w1)) as Hc'
        by (etrans; done).
      pose proof (get_finally_post fuel this W VUndef w _ HW Hc') as Hf.
      unfold mbind, M_bind.
      destruct (get_finally fuel this W VUndef _) as [[] w2|e' w2|]; done.
    + pose proof (get_finally_post fuel this W VUndef w w1 HW Hc) as Hf.
      unfold mbind, M_bind.
      destruct (get_finally fuel this W VUndef w1) as [[] w2|e' w2|]; done.
Qed.

Lemma reads_of_collect this evs :
  reads_of this (evs ++ [EGetter this]) = reads_of this evs.
Proof. rewrite reads_of_app. simpl. by rewrite (right_id_L [] (++)). Qed.

(** C1 (as amended). *)
Theorem Watcher_get_dependency_accuracy (fuel this : nat) (W : Watcher) (w : World) :
  watchers w !! this = Some W →
  subscribed_to_deps this W w →
  match Watcher_get fuel this w with
  | Ok _ w' | Thrown _ w' =>
      ∃ evs W', trace w' = evs ++ trace w ∧ watchers w' !! this = Some W'
        ∧ (∀ d, d ∈ w_deps W' ↔ d ∈ reads_of this evs)
        ∧ (∀ d, d ∈ reads_of this evs → this ∈ subs d w')
        ∧ (∀ d, d ∈ w_deps W → d ∉ reads_of this evs → this ∉ subs d w')
        ∧ (∀ d, this ∈ subs d w' ↔ d ∈ reads_of this evs)
        ∧ subscribed_to_deps this W' w'
  | OutOfFuel => True
  end.
Proof.
  intros HW (Hnd & Hni & Hids & Hsub).
  pose proof (Watcher_get_post fuel this W w HW) as Hpost.
  assert (∀ w', evaluated this W w w' →
    ∃ evs W', trace w' = evs ++ trace w ∧ watchers w' !! this = Some W'
        ∧ (∀ d, d ∈ w_deps W' ↔ d ∈ reads_of this evs)
        ∧ (∀ d, d ∈ reads_of this evs → this ∈ subs d w')
        ∧ (∀ d, d ∈ w_deps W → d ∉ reads_of this evs → this ∉ subs d w')
        ∧ (∀ d, this ∈ subs d w' ↔ d ∈ reads_of this evs)
        ∧ subscribed_to_deps this W' w') as Hgoal.
  { intros w' [_ _ _ _ _ _ _ _ _ _ _ (evs & W' & Htr & _ & HW' & Heq & HA & HB & HC)].
    rewrite Hnd, Hni in *.
    assert (∀ d, d ∈ w_deps W' ↔ d ∈ reads_of this evs) as HB'.
    { intros d. rewrite HB, elem_of_nil.
      pose proof (not_elem_of_empty (C:=gset nat) d). tauto. }
    assert (∀ d, this ∈ subs d w' ↔ d ∈ reads_of this evs) as HC'.
    { intros d. rewrite HC, Hsub, Hids.
      pose proof (not_elem_of_empty (C:=gset nat) d).
      destruct (decide (d ∈ w_deps W));
        destruct (decide (d ∈ reads_of this evs)); tauto. }
    exists (evs ++ [EGetter this]), W'. rewrite reads_of_collect.
    split_and!; try done.
    - by rewrite Htr, <- (assoc_L (++)).
    - intros d. by rewrite HC'.
    - intros d _ Hn. by rewrite HC'.
    - split_and!.
      + rewrite Heq. done.
      + rewrite Heq. done.
      + intros d. rewrite HA, HB'.
        pose proof (not_elem_of_empty (C:=gset nat) d). tauto.
      + intros d. by rewrite HC', HB'. }
  destruct (Watcher_get fuel this w) as [v w'|e w'|]; [| |done].
  - apply Hgoal, Hpost.
  - apply Hgoal, Hpost.
Qed.




Lemma subscribed_to_deps_check this W w :
  subscribed_to_depsb this W w = true → subscribed_to_deps this W w.
Proof.
  unfold subscribed_to_depsb. rewrite !andb_true_iff, !bool_decide_eq_true.
  intros ((((Hnd & Hni) & Hids) & Hmap) & Hall).
  split_and!; [done..| |].
  - intros d. by rewrite Hids, elem_of_list_to_set.
  - intros d. split.
    + unfold subs. destruct (deps w !! d) as [l|] eqn:Hl; simpl.
      * intros Hin. by apply (Hmap d l Hl).
      * by intros ?%elem_of_nil.
    + intros Hd. rewrite Forall_forall in Hall. by apply Hall.
Qed.

(** C1, counterexample: the watcher of a computed property was evaluated
    (reading Dep 1), marked dirty, and torn down; evaluated again, it reads
    Dep 1 and is not a subscriber of it afterwards. *)
Lemma torn_down_watcher_not_resubscribed :
  ∃ v w', Watcher_get 3 1 torn_down_world = Ok v w'
    ∧ reads_of 1 (new_events torn_down_world w') = [1]
    ∧ subs 1 w' = [].
Proof.
  eexists _, _. split; [vm_compute; reflexivity|].
  split; vm_compute; reflexivity.
Qed.

Lemma Watcher_get_dependency_accuracy_witness :
  match Watcher_get 3 1 dirty_world with
  | Ok _ w' | Thrown _ w' =>
      ∃ evs W', trace w' = evs ++ trace dirty_world ∧ watchers w' !! 1 = Some W'
        ∧ (∀ d, d ∈ w_deps W' ↔ d ∈ reads_of 1 evs)
        ∧ (∀ d, d ∈ reads_of 1 evs → 1 ∈ subs d w')
        ∧ (∀ d, d ∈ w_deps (the_watcher 1 dirty_world) → d ∉ reads_of 1 evs → 1 ∉ subs d w')
        ∧ (∀ d, 1 ∈ subs d w' ↔ d ∈ reads_of 1 evs)
        ∧ subscribed_to_deps 1 W' w'
  | OutOfFuel => True
  end.
Proof.
  apply (Watcher_get_dependency_accuracy 3 1 (the_watcher 1 dirty_world) dirty_world).
  - vm_compute. reflexivity.
  - apply subscribed_to_deps_check. vm_compute. reflexivity.
Defined.

(** ** Lazy watchers *)

Lemma new_events_app w w' evs :
  trace w' = evs ++ trace w → new_events w w' = evs.
Proof.
  intros H. unfold new_events. rewrite H, length_app.
  replace (length evs + length (trace w) - length (trace w)) with (length evs) by lia.
  by rewrite take_app_length.
Qed.




(** ** Teardown *)

Lemma removeSub_all this l w :
  ∃ w', forM_ l (λ dep, Dep_removeSub dep this) w = Ok tt w'
    ∧ w' = upd_deps (λ _, deps w') w
    ∧ ∀ d x, x ∈ subs d w' ↔ x ∈ subs d w ∧ ¬ (x = this ∧ d ∈ l).
Proof.
  revert w. induction l as [|d0 l IH]; intros w; simpl.
  { exists w. split; [done|]. split; [by destruct w|].
    intros d x. rewrite elem_of_nil. tauto. }
  unfold mbind, M_bind. simpl.
  destruct (IH (upd_deps <[d0:=filter (λ x, x ≠ this) (subs d0 w)]> w))
    as (w' & -> & Hw' & Hs).
  exists w'. split; [done|]. split; [by rewrite Hw' at 1|].
  intros d x. rewrite Hs, subs_upd_deps_insert, elem_of_cons.
  case_decide as Hd; [subst d0; rewrite list_elem_of_filter|].
  - split; [|tauto]. intros [[? ?] ?]. tauto.
  - split; [|tauto]. intros [? Hn]. split; [done|].
    intros (-> & [-> | ?]); tauto.
Qed.

Lemma util_remove_NoDup (l : list nat) (x : nat) :
  NoDup l → x ∉ util_remove l x.
Proof.
  induction 1 as [|y l Hy Hl IH]; simpl; [apply not_elem_of_nil|].
  case_decide; [by subst|]. rewrite elem_of_cons. intros [-> | ?]; [done|by apply IH].
Qed.

Lemma Watcher_teardown_inactive this W w :
  watchers w !! this = Some W → w_active W = false →
  Watcher_teardown this w = Ok tt w.
Proof.
  intros HW Ha. unfold Watcher_teardown, getW, mbind, M_bind. by rewrite HW, Ha.
Qed.

Lemma Watcher_run_inactive fuel this W w :
  watchers w !! this = Some W → w_active W = false →
  Watcher_run (S fuel) this w
  = Ok tt (upd_trace (λ t, ERunEnd this :: ERunBegin this :: t) w).
Proof.
  intros HW Ha. unfold Watcher_run. simpl.
  unfold Watcher_run_, emit, modify, getW, mbind, M_bind. simpl.
  by rewrite HW, Ha.
Qed.

(** C9 (as amended). *)
Theorem Watcher_teardown_idempotent
    (fuel this : nat) (W : Watcher) (v : Vm) (w : World) :
  watchers w !! this = Some W →
  vms w !! w_vm W = Some v →
  ∃ w',
    Watcher_teardown this w = Ok tt w'
    (* the watcher is inactive *)
    ∧ (∃ W', watchers w' !! this = Some W' ∧ w_active W' = false)
    (* it has left the instance's list, unless the instance is being
       destroyed, in which case the list is left alone *)
    ∧ (w_active W = true → vm_isBeingDestroyed v = false → NoDup (vm_watchers v) →
       ∃ v', vms w' !! w_vm W = Some v' ∧ this ∉ vm_watchers v')
    ∧ (vm_isBeingDestroyed v = true → vms w' = vms w)
    (* it has left the subscriber lists of its Deps *)
    ∧ (w_active W = true → ∀ d, d ∈ w_deps W → this ∉ subs d w')
    ∧ (w_active W = true → (∀ d, this ∈ subs d w → d ∈ w_deps W) →
       ∀ d, this ∉ subs d w')
    (* a second call changes nothing and raises no error *)
    ∧ Watcher_teardown this w' = Ok tt w'
    ∧ (Watcher_teardown this;; Watcher_teardown this) w = Watcher_teardown this w
    (* run() neither evaluates nor calls back *)
    ∧ Watcher_run (S fuel) this w'
      = Ok tt (upd_trace (λ t, ERunEnd this :: ERunBegin this :: t) w').
Proof.
  intros HW Hv.
  destruct (w_active W) eqn:Ha.
  2: { exists w. rewrite (Watcher_teardown_inactive this W w HW Ha).
       split; [done|]. split; [by exists W|].
       split_and!; try done.
       - unfold mbind, M_bind. by rewrite !(Watcher_teardown_inactive this W w HW Ha).
       - by apply (Watcher_run_inactive fuel this W). }
  set (w1 := if vm_isBeingDestroyed v then w
             else upd_vms (alter (upd_vm_watchers (λ l, util_remove l this)) (w_vm W)) w).
  destruct (removeSub_all this (rev (w_deps W)) w1) as (w2 & Hloop & Hw2 & Hs).
  set (w3 := upd_watchers (alter (upd_w_active (λ _, false)) this) w2).
  assert (Watcher_teardown this w = Ok tt w3) as Hfirst.
  { unfold Watcher_teardown, getW, getVm, mbind, M_bind.
    rewrite HW, Ha, Hv.
    assert (when (negb (vm_isBeingDestroyed v))
              (modify (upd_vms (alter (upd_vm_watchers (λ l, util_remove l this))
                                      (w_vm W)))) w
            = Ok tt w1) as ->.
    { subst w1. by destruct (vm_isBeingDestroyed v). }
    by rewrite Hloop. }
  assert (watchers w3 !! this = Some (upd_w_active (λ _, false) W)) as HW3.
  { subst w3. simpl. rewrite lookup_alter_eq, Hw2. simpl.
    subst w1. destruct (vm_isBeingDestroyed v); simpl; by rewrite HW. }
  assert (Watcher_teardown this w3 = Ok tt w3) as Hagain
    by (by apply (Watcher_teardown_inactive this _ w3 HW3)).
  exists w3. split; [done|]. split; [by eexists|].
  split_and!.
  - intros _ Hd Hnd. subst w3. simpl. rewrite Hw2. simpl. subst w1. rewrite Hd. simpl.
    rewrite lookup_alter_eq, Hv. simpl. eexists. split; [done|].
    simpl. by apply util_remove_NoDup.
  - intros Hd. subst w3. simpl. rewrite Hw2. simpl. subst w1. by rewrite Hd.
  - intros _ d Hd. change (subs d w3) with (subs d w2). rewrite Hs, elem_of_rev. tauto.
  - intros _ Hall d. change (subs d w3) with (subs d w2). rewrite Hs, elem_of_rev.
    intros [Hin Hn]. apply Hn. split; [done|]. apply Hall.
    revert Hin. subst w1. by destruct (vm_isBeingDestroyed v).
  - done.
  - unfold mbind, M_bind. by rewrite Hfirst, Hagain.
  - by apply (Watcher_run_inactive fuel this _ w3 HW3).
Qed.

(** C9, counterexample: torn down while its instance is being destroyed,
    the watcher is inactive and still in the instance's list. *)
Lemma teardown_during_destroy_keeps_list :
  ∃ w', Watcher_teardown 1 destroying_world = Ok tt w'
    ∧ w_active (the_watcher 1 w') = false
    ∧ vm_watchers (the_vm 0 w') = [1].
Proof.
  eexists. split; [vm_compute; reflexivity|].
  split; vm_compute; reflexivity.
Qed.

(** ** The scheduler's guard against runaway watchers *)

(** C5 (as amended). *)
Theorem flush_aborts_runaway_watcher
    (n : nat) (run_rec : nat → M unit) (watcher : nat) (W : Watcher)
    (w w2 : World) :
  queue (sched w) !! index (sched w) = Some watcher →
  watchers w !! watcher = Some W →
  run_rec watcher (flush_pre watcher W w) = Ok tt w2 →
  production (env w2) = false →
  watcher ∈ has (sched w2) →
  let c := default 0 (circular (sched w2) !! watcher) + 1 in
  let counted := upd_sched (upd_circular <[watcher := c]>) w2 in
  (* past the threshold: the loop ends here, with the warning *)
  (MAX_UPDATE_COUNT < c →
     flush_loop_ run_rec (S n) w
     = Ok tt (upd_trace (cons (EWarn (infinite_loop_warning W))) counted))
  (* up to the threshold: the loop goes on with the next index *)
  ∧ (c ≤ MAX_UPDATE_COUNT →
     flush_loop_ run_rec (S n) w
     = flush_loop_ run_rec n (upd_sched (upd_index S) counted))
  (* count = 0..: watcher 1 keeps queueing itself, watcher 2 waits behind *)
  ∧ (∃ w', microtask 300 (runaway_world false true 1000) = Ok tt w'
       ∧ runs 1 (new_events (runaway_world false true 1000) w') = 101
       ∧ runs 2 (new_events (runaway_world false true 1000) w') = 0
       ∧ warnings (new_events (runaway_world false true 1000) w')
         = [WInfiniteLoopUser "count" 0]
       ∧ queue (sched w') = [])
  ∧ (∃ w', microtask 300 (runaway_world false false 1000) = Ok tt w'
       ∧ runs 1 (new_events (runaway_world false false 1000) w') = 101
       ∧ runs 2 (new_events (runaway_world false false 1000) w') = 0
       ∧ warnings (new_events (runaway_world false false 1000) w')
         = [WInfiniteLoopRender 0]
       ∧ queue (sched w') = []).
Proof.
  intros Hq HW Hrun Hprod Hhas c counted.
  assert (flush_loop_ run_rec (S n) w
    = (if bool_decide (MAX_UPDATE_COUNT < c)
       then warn (infinite_loop_warning W)
       else modifySched (upd_index S);; flush_loop_ run_rec n) counted) as Hstep.
  { simpl. unfold gets, getW, mbind, M_bind. rewrite Hq, HW.
    unfold when, skip, emit, modifySched, modify. simpl.
    assert ((if w_before W then λ w, Ok tt (upd_trace (cons (EBefore watcher)) w)
             else mret tt) w
            = Ok tt (if w_before W then upd_trace (cons (EBefore watcher)) w else w)) as ->
      by (by destruct (w_before W)).
    fold (flush_pre watcher W w). rewrite Hrun, Hprod. simpl.
    rewrite bool_decide_eq_true_2 by done.
    fold c. fold counted. unfold infinite_loop_warning, warn, emit, modify.
    by destruct (bool_decide (MAX_UPDATE_COUNT < c)), (w_user W). }
  split_and!.
  - intros Hc. rewrite Hstep, bool_decide_eq_true_2 by done. done.
  - intros Hc. rewrite Hstep, bool_decide_eq_false_2 by lia. done.
  - eexists. split; [vm_compute; reflexivity|].
    split_and!; vm_compute; reflexivity.
  - eexists. split; [vm_compute; reflexivity|].
    split_and!; vm_compute; reflexivity.
Qed.

(** C5, counterexample: in a production build the same watcher queues
    itself 149 times and is run 150 times; the flush is not cut short
    (watcher 2 runs after it) and nothing is reported. *)
Lemma production_flush_has_no_guard :
  ∃ w', microtask 300 (runaway_world true true 150) = Ok tt w'
    ∧ runs 1 (new_events (runaway_world true true 150) w') = 150
    ∧ runs 2 (new_events (runaway_world true true 150) w') = 1
    ∧ warnings (new_events (runaway_world true true 150) w') = [].
Proof.
  eexists. split; [vm_compute; reflexivity|].
  split_and!; vm_compute; reflexivity.
Qed.

(** ** Observation *)

Lemma hoare_getObj E I R `{!Reflexive R} r :
  E TypeError → hoare E I R (getObj r).
Proof. intros He w Hw. unfold getObj. by destruct (heap w !! r). Qed.

Lemma hoare_getW E I R `{!Reflexive R} i :
  E TypeError → hoare E I R (getW i).
Proof. intros He w Hw. unfold getW. by destruct (watchers w !! i). Qed.

Lemma hoare_getVm E I R `{!Reflexive R} i :
  E TypeError → hoare E I R (getVm i).
Proof. intros He w Hw. unfold getVm. by destruct (vms w !! i). Qed.

#[global] Instance observing_refl : Reflexive observing.
Proof.
  intros w. split; try done.
  - intros r o Ho. exists o. split_and!; try done. intros ob Hob. by exists ob.
  - by exists [].
Qed.

#[global] Instance observing_trans : Transitive observing.
Proof.
  intros w1 w2 w3 [] []. split; try congruence.
  - intros r o Ho.
    destruct (obs_heap0 r o Ho) as (o' & Ho' & ? & ? & ? & ? & ? & Hob).
    destruct (obs_heap1 r o' Ho') as (o'' & Ho'' & ? & ? & ? & ? & ? & Hob').
    exists o''. split_and!; try congruence.
    intros ob Hs. destruct (Hob ob Hs) as (ob' & Hs' & ?).
    destruct (Hob' ob' Hs') as (ob'' & ? & ?). exists ob''. split; congruence.
  - destruct obs_trace0 as (evs1 & Ht1 & ?), obs_trace1 as (evs2 & Ht2 & ?).
    exists (evs2 ++ evs1). split; [by rewrite Ht2, Ht1, (assoc_L (++))|].
    by apply Forall_app.
Qed.

Lemma observing_newDep : hoare any_exn always observing newDep.
Proof.
  intros w _. unfold newDep, gets, modify, mbind, M_bind. simpl.
  split; [done|]. split; try done.
  - intros r o Ho. exists o. split_and!; try done. intros ob Hob. by exists ob.
  - by exists [].
Qed.

Lemma observing_modify_props r f :
  hoare any_exn always observing (modifyObj r (upd_o_props f)).
Proof.
  intros w _. unfold modifyObj, modify. simpl. split; [done|]. split; try done.
  - intros r' o Ho. simpl. destruct (decide (r = r')) as [->|Hne].
    + rewrite lookup_alter_eq, Ho. simpl. eexists. split; [done|].
      split_and!; try done. intros ob Hob. by exists ob.
    + rewrite lookup_alter_ne by done. exists o. split_and!; try done.
      intros ob Hob. by exists ob.
  - by exists [].
Qed.

Lemma observing_vmCount r :
  hoare any_exn always observing (modifyObj r (upd_o_ob (fmap (upd_ob_vmCount S)))).
Proof.
  intros w _. unfold modifyObj, modify. simpl. split; [done|]. split; try done.
  - intros r' o Ho. simpl. destruct (decide (r = r')) as [->|Hne].
    + rewrite lookup_alter_eq, Ho. simpl. eexists. split; [done|].
      split_and!; try done. intros ob Hob. simpl. rewrite Hob. by eexists.
    + rewrite lookup_alter_ne by done. exists o. split_and!; try done.
      intros ob Hob. by exists ob.
  - by exists [].
Qed.

(** Attaching an Observer to an object that has none. *)
Lemma observing_attach r o ob w :
  heap w !! r = Some o → o_ob o = None →
  observing w (upd_trace (cons (EObserve r))
                 (upd_heap (alter (upd_o_ob (λ _, Some ob)) r) w)).
Proof.
  intros Ho Hnone. split; try done.
  - intros r' o' Ho'. simpl. destruct (decide (r = r')) as [->|Hne].
    + rewrite lookup_alter_eq, Ho'. simpl. eexists. split; [done|].
      split_and!; try done. intros ob0 Hob0. congruence.
    + rewrite lookup_alter_ne by done. exists o'. split_and!; try done.
      intros ob0 Hob0. by exists ob0.
  - exists [EObserve r]. split; [done|]. repeat constructor. by exists r.
Qed.

Section observe.
Context (observe_rec : Value → bool → M (option nat)).
Context (Hrec : ∀ v b, hoare any_exn always observing (observe_rec v b)).

Lemma observing_defineReactive_ obj key val cs sh :
hoare any_exn always observing (defineReactive_ observe_rec obj key val cs sh).
Proof.
unfold defineReactive_.
apply hoare_bind; try apply _; [apply observing_newDep|]. intros dep.
apply hoare_bind; try apply _; [apply hoare_getObj; try apply _; exact I|]. intros o.
destruct (lookup_slot key o) as [[v [|]|b g s [|]|r]|];
  try (apply hoare_skip; apply _);
  (apply hoare_bind; try apply _;
   [destruct sh; [apply hoare_ret; apply _|apply Hrec]
   |intros childOb; apply observing_modify_props]).
Qed.

Lemma observing_walk_ obj :
hoare any_exn always observing (walk_ observe_rec obj).
Proof.
unfold walk_.
apply hoare_bind; try apply _; [apply hoare_getObj; try apply _; exact I|]. intros o.
apply hoare_forM_; try apply _. intros k. apply observing_defineReactive_.
Qed.

Lemma observing_observeArray_ items :
hoare any_exn always observing (observeArray_ observe_rec items).
Proof.
unfold observeArray_. apply hoare_forM_; try apply _. intros item.
apply hoare_bind; try apply _; [apply Hrec|]. intros _. apply hoare_skip; apply _.
Qed.

(** [new Observer(value)] on an object without Observer: the object
  carries one afterwards. *)
Lemma new_Observer_attaches r o w :
heap w !! r = Some o → o_ob o = None →
match new_Observer_ observe_rec r w with
| Ok _ w' | Thrown _ w' => observing w w' ∧ observed w' r
| OutOfFuel => True
end.
Proof.
intros Ho Hnone.
unfold new_Observer_, newDep, gets, modify, modifyObj, emit, getObj, mbind, M_bind.
simpl. rewrite lookup_alter_eq, Ho. simpl.
set (ob := {| ob_dep := dep_uid w; ob_vmCount := 0 |}).
set (w0 := upd_deps <[dep_uid w:=[]]> (upd_dep_uid S w)).
set (w1 := upd_trace (cons (EObserve r)) (upd_heap (alter (upd_o_ob (λ _, Some ob)) r) w0)).
assert (observing w w1) as H01.
{ trans w0.
  - pose proof (observing_newDep w I) as H. unfold newDep, gets, modify, mbind,
      M_bind in H. simpl in H. apply H.
  - by apply (observing_attach r o ob w0). }
assert (observed w1 r) as Hobs1.
{ exists (upd_o_ob (λ _, Some ob) o), ob. split; [|done].
  subst w1 w0. simpl. by rewrite lookup_alter_eq, Ho. }
assert (∀ m : M unit, hoare any_exn always observing m →
  match m w1 with
  | Ok _ w' | Thrown _ w' => observing w w' ∧ observed w' r
  | OutOfFuel => True
  end) as Hrest.
{ intros m Hm. specialize (Hm w1 I).
  destruct Hobs1 as (o1 & ob1 & Ho1 & Hob1).
  destruct (m w1) as [[] w2|e w2|]; [| |done].
  - destruct Hm as [_ H12]. split; [by etrans|].
    destruct (obs_heap _ _ H12 r o1 Ho1) as (o2 & Ho2 & _ & _ & _ & _ & _ & Hob2).
    destruct (Hob2 ob1 Hob1) as (ob2 & ? & _). by exists o2, ob2.
  - destruct Hm as (_ & _ & H12). split; [by etrans|].
    destruct (obs_heap _ _ H12 r o1 Ho1) as (o2 & Ho2 & _ & _ & _ & _ & _ & Hob2).
    destruct (Hob2 ob1 Hob1) as (ob2 & ? & _). by exists o2, ob2. }
fold ob. fold w0. fold w1.
destruct (decide (o_kind o = KArray)).
- exact (Hrest _ (observing_observeArray_ _)).
- exact (Hrest _ (observing_walk_ _)).
Qed.

Lemma observing_observe_ v b :
hoare any_exn always observing (observe_ observe_rec v b).
Proof.
destruct v; simpl; try (apply hoare_ret; apply _).
intros w _. unfold getObj, gets, mbind, M_bind.
destruct (heap w !! r) as [o|] eqn:Ho; [|done].
destruct (o_isVNode o); [done|]. simpl.
assert (∀ w1 : World, observing w w1 →
  match (when b (modifyObj r (upd_o_ob (fmap (upd_ob_vmCount S))));; mret (Some r)) w1 with
  | Ok _ w' => always w' ∧ observing w w'
  | Thrown e w' => any_exn e ∧ always w' ∧ observing w w'
  | OutOfFuel => True
  end) as Hcount.
{ intros w1 H1. destruct b; simpl; [|done]. split; [done|].
  etrans; [exact H1|]. apply (observing_vmCount r w1 I). }
destruct (o_ob o) as [ob|] eqn:Hob; simpl.
{ apply Hcount. reflexivity. }
destruct (shouldObserve w && negb (serverRendering (env w))
          && (bool_decide (o_kind o = KArray) || bool_decide (o_kind o = KPlain))
          && o_extensible o && negb (o_isVue o)); simpl; [|done].
pose proof (new_Observer_attaches r o w Ho Hob) as Hnew.
destruct (new_Observer_ observe_rec r w) as [[] w1|e w1|]; simpl;
  [|split_and!; [exact I|exact I|apply Hnew]|done].
apply Hcount. tauto.
Qed.
End observe.

Lemma observing_observe fuel v b :
  hoare any_exn always observing (observe fuel v b).
Proof.
  revert v b. induction fuel as [|fuel IH]; intros v b; simpl.
  - apply hoare_out_of_fuel.
  - by apply observing_observe_.
Qed.

Lemma observing_observeArray fuel items :
  hoare any_exn always observing (observeArray fuel items).
Proof. apply observing_observeArray_, observing_observe. Qed.

(** An object that passes the guard of [observe] carries an Observer once
    [observe] has returned. *)
Lemma observe_observed fuel r b w :
  observable w r →
  match observe fuel (VRef r) b w with
  | Ok _ w' => observed w' r
  | Thrown _ _ | OutOfFuel => True
  end.
Proof.
  intros (o & Ho & Hvn & Hcase). destruct fuel as [|fuel]; [done|].
  change (observe (S fuel) (VRef r) b w) with (observe_ (observe fuel) (VRef r) b w).
  unfold observe_, getObj, gets, mbind, M_bind. rewrite Ho, Hvn. simpl.
  assert (∀ w1 : World, observed w1 r →
    match (when b (modifyObj r (upd_o_ob (fmap (upd_ob_vmCount S))));; mret (Some r)) w1 with
    | Ok _ w' => observed w' r
    | Thrown _ _ | OutOfFuel => True
    end) as Hcount.
  { intros w1 (o1 & ob1 & Ho1 & Hob1). destruct b; simpl; [|by exists o1, ob1].
    unfold observed, modifyObj, modify. simpl.
    eexists _, _. rewrite lookup_alter_eq, Ho1. simpl. split; [done|].
    simpl. by rewrite Hob1. }
  destruct (o_ob o) as [ob|] eqn:Hob; simpl.
  { apply Hcount. by exists o, ob. }
  destruct Hcase as [[? ?]|(-> & -> & Hk & -> & ->)]; [done|]. simpl.
  assert (bool_decide (o_kind o = KArray) || bool_decide (o_kind o = KPlain) = true) as ->.
  { destruct Hk as [-> | ->]; done. }
  simpl.
  pose proof (new_Observer_attaches (observe fuel) (observing_observe fuel) r o w Ho Hob)
    as Hnew.
  destruct (new_Observer_ (observe fuel) r w) as [[] w1|e w1|]; simpl; [|done..].
  apply Hcount. tauto.
Qed.

(** ** The patched array methods *)

Lemma observing_observable w w' r :
  observing w w' → observable w r → observable w' r.
Proof.
  intros H (o & Ho & Hvn & Hcase).
  destruct (obs_heap _ _ H r o Ho) as (o' & Ho' & Hk & _ & Hx & Hv & Hn & Hob).
  exists o'. split; [done|]. split; [congruence|].
  destruct Hcase as [[ob Hs]|(? & ? & ? & ? & ?)].
  - left. destruct (Hob ob Hs) as (ob' & -> & _). by eexists.
  - right. rewrite (obs_shouldObserve _ _ H), (obs_env _ _ H), Hk, Hx, Hv. done.
Qed.

Lemma observing_observed w w' r :
  observing w w' → observed w r → observed w' r.
Proof.
  intros H (o & ob & Ho & Hs).
  destruct (obs_heap _ _ H r o Ho) as (o' & Ho' & _ & _ & _ & _ & _ & Hob).
  destruct (Hob ob Hs) as (ob' & ? & _). by exists o', ob'.
Qed.

Lemma observeArray_cons fuel item items w :
  observeArray fuel (item :: items) w
  = match observe fuel item false w with
    | Ok _ w1 => observeArray fuel items w1
    | Thrown e w1 => Thrown e w1
    | OutOfFuel => OutOfFuel
    end.
Proof.
  unfold observeArray, observeArray_. simpl. unfold mbind, M_bind.
  by destruct (observe fuel item false w).
Qed.

Lemma observeArray_observed fuel items w w' :
  observeArray fuel items w = Ok tt w' →
  ∀ r, VRef r ∈ items → observable w r → observed w' r.
Proof.
  revert w. induction items as [|item items IH]; intros w Hrun r Hin Hobs.
  { by apply elem_of_nil in Hin. }
  revert Hrun. rewrite observeArray_cons.
  pose proof (observing_observe fuel item false w I) as Hstep.
  pose proof (observe_observed fuel r false w Hobs) as Hfirst.
  destruct (observe fuel item false w) as [res w1|e w1|] eqn:Hitem; [|done..].
  destruct Hstep as [_ H01]. intros Hrest.
  pose proof (observing_observeArray fuel items w1 I) as Hrem.
  rewrite Hrest in Hrem.
  destruct Hrem as [_ H1'].
  apply elem_of_cons in Hin as [<- | Hin].
  - rewrite Hitem in Hfirst. by apply (observing_observed w1 w').
  - apply (IH w1 Hrest r Hin). by apply (observing_observable w w1).
Qed.

Lemma Dep_notify_unfold fuel d w :
  Dep_notify fuel d w
  = forM_ (subs d w) (Watcher_update fuel) (upd_trace (cons (ENotify d)) w).
Proof. done. Qed.

Lemma notifications_observe d evs :
  Forall (λ e, ∃ r, e = EObserve r) evs → notifications d evs = 0.
Proof.
  unfold notifications. induction 1 as [|e evs [r ->] _ IH]; [done|].
  by rewrite filter_cons, decide_False.
Qed.

(** C6 (as amended). *)
Theorem mutator_mutates_observes_notifies
    (fuel : nat) (method : ArrayMethod) (this : nat) (args : list Value)
    (o : Obj) (ob : Observer) (w : World) :
  heap w !! this = Some o →
  o_ob o = Some ob →
  this ≠ heap_uid w →
  let native := arrayProto (env w) method args (o_elems o) in
  (∃ result w0,
    (* first the native mutation *)
    original method this args w = Ok result w0
    ∧ (∃ o0, heap w0 !! this = Some o0 ∧ o_elems o0 = fst native ∧ o_ob o0 = Some ob)
    ∧ match snd native with
      | NValue v => result = v
      | NThis => result = VRef this
      | NFresh l => result = VRef (heap_uid w)
                    ∧ o_elems <$> heap w0 !! heap_uid w = Some l
      end
    ∧ trace w0 = trace w
    ∧ ∀ w1, observeArray fuel (inserted method args) w0 = Ok tt w1 →
        (* then the inserted elements are observed, where observe() takes them *)
        (∀ r, VRef r ∈ inserted method args → observable w0 r → observed w1 r)
        ∧ (∃ o1 ob1, heap w1 !! this = Some o1 ∧ o_elems o1 = fst native
                     ∧ o_ob o1 = Some ob1 ∧ ob_dep ob1 = ob_dep ob)
        ∧ notifications (ob_dep ob) (new_events w w1) = 0
        (* then the Dep of the array is notified, once: every subscriber is
           updated; and the native result is handed back *)
        ∧ mutator fuel method this args w
          = (Dep_notify fuel (ob_dep ob);; mret result) w1
        ∧ Dep_notify fuel (ob_dep ob) w1
          = forM_ (subs (ob_dep ob) w1) (Watcher_update fuel)
              (upd_trace (cons (ENotify (ob_dep ob))) w1))
  (* items.push({x: 1}) *)
  ∧ (∃ w', mutator 5 m_push 1 [VRef 2] (list_world true) = Ok (VNum 1) w'
       ∧ o_elems (the_obj 1 w') = [VRef 2]
       ∧ notifications 2 (new_events (list_world true) w') = 1
       ∧ ob_dep <$> o_ob (the_obj 1 w') = Some 2
       ∧ is_Some (o_ob (the_obj 2 w'))
       ∧ queue (sched w') = [1]).
Proof.
  intros Ho Hob Hfresh native. split.
  2: { eexists. split; [vm_compute; reflexivity|].
       split_and!; try (vm_compute; reflexivity). by eexists. }
  set (w_m := upd_heap (alter (upd_o_elems (λ _, fst native)) this) w).
  assert (heap w_m !! this = Some (upd_o_elems (λ _, fst native) o)) as Hm.
  { subst w_m. simpl. by rewrite lookup_alter_eq, Ho. }
  assert (∃ result w0, original method this args w = Ok result w0
            ∧ heap w0 !! this = Some (upd_o_elems (λ _, fst native) o)
            ∧ match snd native with
              | NValue v => result = v
              | NThis => result = VRef this
              | NFresh l => result = VRef (heap_uid w)
                            ∧ o_elems <$> heap w0 !! heap_uid w = Some l
              end
            ∧ trace w0 = trace w
            ∧ env w0 = env w) as (result & w0 & Horig & Ho0 & Hres & Htr0 & Henv0).
  { unfold original, getObj, gets, modifyObj, modify, mbind, M_bind. rewrite Ho.
    fold native. fold w_m. destruct (snd native) as [v| |l].
    - by exists v, w_m.
    - by exists (VRef this), w_m.
    - eexists _, _. split; [done|]. simpl. rewrite lookup_insert_ne by done.
      rewrite lookup_alter_eq, Ho. split; [done|]. split; [|done].
      split; [done|]. by rewrite lookup_insert_eq. }
  exists result, w0. split; [done|].
  split; [by eexists|]. split; [done|]. split; [done|].
  intros w1 Hobs.
  pose proof (observing_observeArray fuel (inserted method args) w0 I) as H01.
  rewrite Hobs in H01. destruct H01 as [_ H01].
  destruct (obs_heap _ _ H01 this _ Ho0) as (o1 & Ho1 & _ & He1 & _ & _ & _ & Hob1).
  destruct (Hob1 ob Hob) as (ob1 & Hob1' & Hdep1).
  split; [by apply (observeArray_observed fuel _ w0 w1)|].
  split; [by exists o1, ob1|].
  split.
  { destruct (obs_trace _ _ H01) as (evs & Ht & Hevs).
    rewrite (new_events_app w w1 evs) by (by rewrite Ht, Htr0).
    by apply notifications_observe. }
  split; [|done].
  unfold mutator, mbind, M_bind. rewrite Horig.
  unfold getObj. rewrite Ho0. simpl. rewrite Hob.
  assert (match method with
          | m_push | m_unshift => observeArray fuel args
          | m_splice => observeArray fuel (drop 2 args)
          | _ => skip
          end w0 = Ok tt w1) as ->.
  { revert Hobs. unfold inserted. by destruct method. }
  done.
Qed.

(** C6, counterexample: a plain object that is not extensible (frozen) is
    pushed; the array is notified and the element carries no Observer. *)
Lemma pushed_frozen_object_not_observed :
  ∃ w', mutator 5 m_push 1 [VRef 2] (list_world false) = Ok (VNum 1) w'
    ∧ o_elems (the_obj 1 w') = [VRef 2]
    ∧ o_kind (the_obj 2 w') = KPlain
    ∧ o_ob (the_obj 2 w') = None.
Proof.
  eexists. split; [vm_compute; reflexivity|].
  split_and!; vm_compute; reflexivity.
Qed.

(** ** Code that leaves the scheduler alone *)

#[global] Instance same_static_refl : Reflexive same_static.
Proof. intros W. by repeat split. Qed.

#[global] Instance same_static_trans : Transitive same_static.
Proof.
  intros W1 W2 W3 (?&?&?&?&?&?&?&?&?) (?&?&?&?&?&?&?&?&?).
  repeat split; congruence.
Qed.

#[global] Instance watchers_static_refl : Reflexive watchers_static.
Proof. intros w i. by destruct (watchers w !! i). Qed.

#[global] Instance watchers_static_trans : Transitive watchers_static.
Proof.
  intros w1 w2 w3 H12 H23 i. specialize (H12 i). specialize (H23 i).
  destruct (watchers w1 !! i), (watchers w2 !! i), (watchers w3 !! i);
    try done. by etrans.
Qed.

#[global] Instance quiet_refl : Reflexive quiet.
Proof. intros w. split; try done. by exists []. Qed.

#[global] Instance quiet_trans : Transitive quiet.
Proof.
  intros w1 w2 w3 [] []. split; try congruence.
  - by etrans.
  - destruct q_trace0 as (evs1 & Ht1 & ?), q_trace1 as (evs2 & Ht2 & ?).
    exists (evs2 ++ evs1). split; [by rewrite Ht2, Ht1, (assoc_L (++))|].
    by apply Forall_app.
Qed.

Lemma watchers_static_alter (f : Watcher → Watcher) i w :
  (∀ W, same_static W (f W)) →
  watchers_static w (upd_watchers (alter f i) w).
Proof.
  intros Hf j. simpl. destruct (decide (i = j)) as [->|Hne].
  - rewrite lookup_alter_eq. destruct (watchers w !! j); simpl; [apply Hf|done].
  - rewrite lookup_alter_ne by done. by destruct (watchers w !! j).
Qed.

Lemma quiet_modifyW E i f :
  (∀ W, same_static W (f W)) → hoare E always quiet (modifyW i f).
Proof.
  intros Hf w _. unfold modifyW, modify. split; [done|].
  split; try done; [by apply watchers_static_alter | by exists []].
Qed.

Lemma quiet_modifyObj E r f : hoare E always quiet (modifyObj r f).
Proof.
  intros w _. unfold modifyObj, modify. split; [done|].
  split; try done; [exact (watchers_static_refl w) | by exists []].
Qed.

Lemma quiet_emit E e : quiet_event e → hoare E always quiet (emit e).
Proof.
  intros He w _. unfold emit, modify. split; [done|].
  split; try done; [exact (watchers_static_refl w)|].
  exists [e]. split; [done|]. by repeat constructor.
Qed.

Lemma quiet_observe fuel v b : hoare any_exn always quiet (observe fuel v b).
Proof.
  intros w _. pose proof (observing_observe fuel v b w I) as H.
  assert (∀ w', observing w w' → quiet w w') as Hq.
  { intros w' []. split; try done.
    - intros i. rewrite obs_watchers0. by destruct (watchers w !! i).
    - destruct obs_trace0 as (evs & Ht & Hevs). exists evs. split; [done|].
      eapply Forall_impl; [exact Hevs|]. by intros e [r ->]. }
  destruct (observe fuel v b w) as [a w'|e w'|]; [| |done].
  - split; [done|]. apply Hq, H.
  - split_and!; [done..|]. apply Hq, H.
Qed.

Lemma collect_event_quiet e : collect_event e → quiet_event e.
Proof. by destruct e. Qed.

Lemma quiet_Watcher_get fuel this : hoare any_exn always quiet (Watcher_get fuel this).
Proof.
  intros w _. destruct (watchers w !! this) as [W|] eqn:HW.
  - pose proof (Watcher_get_post fuel this W w HW) as H.
    assert (∀ w', evaluated this W w w' → quiet w w') as Hq.
    { intros w' [? ? ? ? ? ? ? ? ? ? Hoth (evs & W' & Ht & Hevs & HW' & Heq & _)].
      split; try done.
      - intros i. destruct (decide (i = this)) as [->|Hne].
        + rewrite HW, HW'. rewrite Heq. by repeat split.
        + rewrite (Hoth i Hne). by destruct (watchers w !! i).
      - exists (evs ++ [EGetter this]). split; [by rewrite Ht, <- (assoc_L (++))|].
        apply Forall_app. split; [|by repeat constructor].
        eapply Forall_impl; [exact Hevs|]. apply collect_event_quiet. }
    destruct (Watcher_get fuel this w) as [a w'|e w'|]; [| |done].
    + split; [done|]. apply Hq, H.
    + split_and!; [done..|]. apply Hq, H.
  - unfold Watcher_get, pushTarget, modify, getW, mbind, M_bind. simpl. rewrite HW.
    split_and!; [done..|].
    split; try done; [exact (watchers_static_refl w) | by exists []].
Qed.

(** ** The re-entrant part, against an invariant *)

Lemma hoare_of_quiet {A} (I : World → Prop) (R : World → World → Prop) (m : M A) :
  (∀ w w', I w → quiet w w' → I w' ∧ R w w') →
  hoare any_exn always quiet m → hoare any_exn I R m.
Proof.
  intros Hc Hm w Hw. specialize (Hm w Logic.I).
  destruct (m w) as [a w'|e w'|]; [| |done].
  - apply (Hc w w' Hw), Hm.
  - split; [done|]. apply (Hc w w' Hw), Hm.
Qed.

(** The setter, the callback and [run()] keep an invariant [I] and stay
    within a relation [R] that the quiet code respects, provided
    [update()] does and the events of a run are allowed. *)
Section knot_hoare.
Context (I : World → Prop) (R : World → World → Prop).
Context `{!Reflexive R, !Transitive R}.
Hypothesis Hcompat : ∀ w w', I w → quiet w w' → I w' ∧ R w w'.
Variables (fuel : nat) (run_rec : nat → M unit) (flush_rec : M unit).
Hypothesis Hnotify : ∀ d, hoare any_exn I R (emit (ENotify d)).
Hypothesis Hupdate : ∀ i, hoare any_exn I R (Watcher_update_ run_rec flush_rec i).

Lemma hoare_Dep_notify_ d : hoare any_exn I R (Dep_notify_ run_rec flush_rec d).
Proof.
  unfold Dep_notify_.
  repeat hoare_step ltac:(first [apply Hnotify | apply Hupdate]).
Qed.

Lemma hoare_modifyObj r f : hoare any_exn I R (modifyObj r f).
Proof. apply hoare_of_quiet; [done | apply quiet_modifyObj]. Qed.

Lemma hoare_modifySlot obj key f : hoare any_exn I R (modifySlot obj key f).
Proof. apply hoare_modifyObj. Qed.

Lemma hoare_quiet_emit e : quiet_event e → hoare any_exn I R (emit e).
Proof. intros He. apply hoare_of_quiet; [done | by apply quiet_emit]. Qed.

Lemma hoare_reactiveSetter_ obj key r newVal :
  hoare any_exn I R (reactiveSetter_ fuel run_rec flush_rec obj key r newVal).
Proof.
  unfold reactiveSetter_, warn.
  repeat hoare_step ltac:(first
    [ apply hoare_modifySlot | apply hoare_Dep_notify_
    | by apply hoare_quiet_emit
    | apply hoare_of_quiet; [done | apply quiet_observe] ]).
Qed.

Lemma hoare_write_prop_ obj key val :
  hoare any_exn I R (write_prop_ fuel run_rec flush_rec obj key val).
Proof.
  unfold write_prop_.
  repeat hoare_step ltac:(first
    [ apply hoare_modifyObj | apply hoare_reactiveSetter_
    | apply hoare_getObj; [apply _ | done] ]).
Qed.

Lemma hoare_exec_callback_ p :
  hoare any_exn I R (exec_callback_ fuel run_rec flush_rec p).
Proof.
  induction p as [|e|o k v cont IH]; simpl.
  - hoare_step idtac.
  - hoare_step idtac.
  - apply hoare_bind; [apply _ | apply hoare_write_prop_ | intros _; exact IH].
Qed.

Lemma hoare_Watcher_run_active_ this :
  (∀ v o, hoare any_exn I R (emit (ECallback this v o))) →
  hoare any_exn I R (Watcher_run_active_ fuel run_rec flush_rec this).
Proof.
  intros Hcb. unfold Watcher_run_active_, invokeWithErrorHandling, handleError.
  repeat hoare_step ltac:(first
    [ apply Hcb | apply hoare_exec_callback_
    | apply hoare_getW; [apply _ | done]
    | apply hoare_of_quiet; [done | apply quiet_Watcher_get]
    | apply hoare_of_quiet; [done | by apply quiet_modifyW]
    | apply (hoare_try_catch any_exn I R any_exn); [|intros ? _]
    | by apply hoare_quiet_emit ]).
Qed.

(** [run()]: when it returns, [ERunEnd] is the last thing it did. *)
Lemma Watcher_run_post this w :
  hoare any_exn I R (emit (ERunBegin this)) →
  (∀ v o, hoare any_exn I R (emit (ECallback this v o))) →
  I w →
  match Watcher_run_ fuel run_rec flush_rec this w with
  | Ok _ w' => ∃ w1, I w1 ∧ R w w1 ∧ w' = upd_trace (cons (ERunEnd this)) w1
  | Thrown _ w' => I w' ∧ R w w'
  | OutOfFuel => True
  end.
Proof.
  intros Hbegin Hcb Hw.
  assert (hoare any_exn I R
    (emit (ERunBegin this);; W ← getW this;
     if w_active W then Watcher_run_active_ fuel run_rec flush_rec this else skip))
    as Hbody.
  { repeat hoare_step ltac:(first
      [ apply Hbegin | by apply hoare_Watcher_run_active_
      | apply hoare_getW; [apply _ | done] ]). }
  specialize (Hbody w Hw). revert Hbody.
  unfold Watcher_run_, emit, modify, getW, mbind, M_bind. simpl.
  destruct (watchers w !! this) as [W|]; [|by intros (_ & ? & ?)].
  destruct (w_active W); simpl.
  - destruct (Watcher_run_active_ fuel run_rec flush_rec this _) as [[] w1|e w1|];
      [|by intros (_ & ? & ?)|done].
    intros [? ?]. by exists w1.
  - intros [? ?]. by eexists.
Qed.

Lemma hoare_Watcher_run_ this :
  hoare any_exn I R (emit (ERunBegin this)) →
  hoare any_exn I R (emit (ERunEnd this)) →
  (∀ v o, hoare any_exn I R (emit (ECallback this v o))) →
  hoare any_exn I R (Watcher_run_ fuel run_rec flush_rec this).
Proof.
  intros Hbegin Hend Hcb. unfold Watcher_run_.
  repeat hoare_step ltac:(first
    [ apply Hbegin | apply Hend | by apply hoare_Watcher_run_active_
    | apply hoare_getW; [apply _ | done] ]).
Qed.
End knot_hoare.

(** ** In the middle of a flush *)

#[global] Instance anyhow_refl : Reflexive anyhow.
Proof. done. Qed.

#[global] Instance anyhow_trans : Transitive anyhow.
Proof. done. Qed.

Section flushing.
Variables (T : list Event → Prop) (allowed : Event → Prop) (Q : Sched → Prop).
Hypothesis HT : ∀ e t, allowed e → T t → T (e :: t).
Hypothesis Hallowed : ∀ e, (∀ i, e ≠ ERunBegin i) → allowed e.
Hypothesis HQ : ∀ s x, Q s → Q (spliced x s).

Lemma during_flush_quiet w w' : (during_flush T allowed Q) w → quiet w w' → (during_flush T allowed Q) w' ∧ anyhow w w'.
Proof.
  intros (Hf & Hwt & Ht & Hq & Hs) []. split; [|done].
  unfold during_flush. rewrite q_sched0. split_and!; try done.
  - destruct q_trace0 as (evs & -> & Hevs).
    induction Hevs as [|e evs He _ IH]; [done|]. simpl.
    apply HT; [|done]. apply Hallowed. intros i ->. done.
  - intros i W' HW' Hsync. specialize (q_static0 i). rewrite HW' in q_static0.
    destruct (watchers w !! i) as [W|] eqn:HW; [|done].
    apply (Hs i W HW). destruct q_static0 as (_&_&_&_&<-&_). done.
Qed.

Lemma during_flush_emit e : allowed e → hoare any_exn (during_flush T allowed Q) anyhow (emit e).
Proof.
  intros He w (Hf & Hwt & Ht & Hq & Hs). simpl. split; [|done].
  split_and!; try done. by apply HT.
Qed.

Lemma during_flush_queueWatcher_ flush_rec x :
  hoare any_exn (during_flush T allowed Q) anyhow (queueWatcher_ flush_rec x).
Proof.
  intros w (Hf & Hwt & Ht & Hq & Hs).
  unfold queueWatcher_, gets, modifySched, modify, mbind, M_bind, skip. simpl.
  destruct (decide (x ∈ has (sched w))); simpl; [by split|].
  rewrite Hf, Hwt. simpl. split; [|done].
  split_and!; try done. apply (HQ _ x Hq).
Qed.

Section update.
Variables (fuel : nat) (run_rec : nat → M unit) (flush_rec : M unit).
Hypothesis Hrun : ∀ i, allowed (ERunBegin i) → hoare any_exn (during_flush T allowed Q) anyhow (run_rec i).

Lemma during_flush_update i :
  hoare any_exn (during_flush T allowed Q) anyhow (Watcher_update_ run_rec flush_rec i).
Proof.
  intros w Hw.
  pose proof (during_flush_emit (EUpdate i) (Hallowed (EUpdate i) ltac:(done)) w Hw) as He.
  unfold Watcher_update_, mbind, M_bind. simpl in *.
  destruct He as [Hw1 _]. unfold getW. simpl.
  destruct (watchers w !! i) as [W|] eqn:HW; [|done].
  destruct (w_lazy W).
  - pose proof (hoare_of_quiet (during_flush T allowed Q) anyhow _ during_flush_quiet
      (quiet_modifyW any_exn i (upd_w_dirty (λ _, true))
         ltac:(by intros []))) as Hd.
    apply (Hd _ Hw1).
  - destruct (w_sync W) eqn:Hsync.
    + refine (Hrun i _ _ Hw1). destruct Hw as (_&_&_&_&Hs). by apply (Hs i W).
    + exact (during_flush_queueWatcher_ flush_rec i _ Hw1).
Qed.

Lemma during_flush_run_ i w :
  allowed (ERunBegin i) → (during_flush T allowed Q) w →
  match Watcher_run_ fuel run_rec flush_rec i w with
  | Ok _ w' => ∃ w1, (during_flush T allowed Q) w1 ∧ w' = upd_trace (cons (ERunEnd i)) w1
  | Thrown _ w' => (during_flush T allowed Q) w'
  | OutOfFuel => True
  end.
Proof.
  intros Hi Hw.
  pose proof (Watcher_run_post (during_flush T allowed Q) anyhow during_flush_quiet fuel run_rec flush_rec
    (λ d, during_flush_emit _ (Hallowed (ENotify d) ltac:(done)))
    during_flush_update i w (during_flush_emit _ Hi)
    (λ v o, during_flush_emit _ (Hallowed (ECallback i v o) ltac:(done))) Hw) as H.
  destruct (Watcher_run_ fuel run_rec flush_rec i w) as [[] w'|e w'|]; [| |done].
  - destruct H as (w1 & ? & _ & ?). by exists w1.
  - tauto.
Qed.
End update.

Lemma during_flush_run fuel i w :
  allowed (ERunBegin i) → (during_flush T allowed Q) w →
  match Watcher_run fuel i w with
  | Ok _ w' => ∃ w1, (during_flush T allowed Q) w1 ∧ w' = upd_trace (cons (ERunEnd i)) w1
  | Thrown _ w' => (during_flush T allowed Q) w'
  | OutOfFuel => True
  end.
Proof.
  revert i w. induction fuel as [|fuel IH]; intros i w Hi Hw; [done|].
  change (Watcher_run (S fuel) i w)
    with (Watcher_run_ fuel (Watcher_run fuel) (flushSchedulerQueue fuel) i w).
  apply during_flush_run_; [|done..].
  intros j Hj w1 Hw1. specialize (IH j w1 Hj Hw1).
  destruct (Watcher_run fuel j w1) as [[] w'|e w'|]; [| |done].
  - destruct IH as (w2 & Hw2 & ->). split; [|done].
    destruct Hw2 as (?&?&?&?&?). split_and!; try done.
    apply HT; [|done]. by apply Hallowed.
  - done.
Qed.
End flushing.

(** ** The order in which a flush runs the watchers *)

Lemma splice_pos_gt_index q idx x pos : idx < pos → idx < splice_pos q idx x pos.
Proof.
  induction pos as [|i IH]; intros Hlt; simpl; [lia|].
  destruct (bool_decide (idx < i)) eqn:Hi; simpl; [|lia].
  apply bool_decide_eq_true in Hi.
  destruct (bool_decide (x < default 0 (q !! i))); [by apply IH | lia].
Qed.

Lemma splice_pos_le q idx x pos : splice_pos q idx x pos ≤ pos.
Proof.
  induction pos as [|i IH]; simpl; [lia|].
  destruct (bool_decide (idx < i) && bool_decide (x < default 0 (q !! i))); lia.
Qed.

(** The spliced watcher lands after every queued watcher of a smaller
    id. *)
Lemma splice_pos_after q idx x pos p y :
  q !! p = Some y → y < x → p < pos → p < splice_pos q idx x pos.
Proof.
  intros Hp Hlt. induction pos as [|i IH]; intros Hpos; simpl; [lia|].
  destruct (bool_decide (idx < i)) eqn:Hi; simpl; [|lia].
  destruct (bool_decide (x < default 0 (q !! i))) eqn:Hx; [|lia].
  apply bool_decide_eq_true in Hx. apply IH.
  destruct (decide (p = i)) as [->|]; [|lia].
  rewrite Hp in Hx. simpl in Hx. lia.
Qed.

Lemma pending_before_spliced Wp Wc b s x :
  Wp < Wc → b ≤ 1 → pending_before Wp Wc b s → pending_before Wp Wc b (spliced x s).
Proof.
  intros Hlt Hb (p & Hle & Hp & Hno). unfold pending_before, spliced. simpl.
  pose proof (lookup_lt_Some _ _ _ Hp) as Hlen.
  set (i1 := splice_pos (queue s) (index s) x (length (queue s))).
  assert (index s < i1) as Hi1 by (apply splice_pos_gt_index; lia).
  assert (i1 ≤ length (queue s)) as Hi1' by apply splice_pos_le.
  assert (∀ j, j < i1 → (take i1 (queue s) ++ x :: drop i1 (queue s)) !! j = queue s !! j)
    as Hbefore.
  { intros j Hj. rewrite lookup_app_l by (rewrite length_take; lia).
    by apply lookup_take_lt. }
  assert (∀ j, i1 ≤ j →
    (take i1 (queue s) ++ x :: drop i1 (queue s)) !! S j = queue s !! j) as Hafter.
  { intros j Hj. rewrite lookup_app_r by (rewrite length_take; lia).
    rewrite length_take, Nat.min_l by lia.
    replace (S j - i1) with (S (j - i1)) by lia. simpl.
    rewrite lookup_drop. f_equal. lia. }
  destruct (decide (i1 ≤ p)) as [Hdec|Hdec].
  - exists (S p). split_and!; [lia | by rewrite Hafter |].
    intros j Hj. destruct (decide (j < i1)) as [Hj1|Hj1].
    + rewrite Hbefore by done. apply Hno. lia.
    + destruct (decide (j = i1)) as [->|Hne].
      * rewrite lookup_app_r by (rewrite length_take; lia).
        rewrite length_take, Nat.min_l, Nat.sub_diag by lia. simpl.
        intros [= ->].
        pose proof (splice_pos_after (queue s) (index s) Wc (length (queue s)) p Wp
          Hp Hlt Hlen). lia.
      * destruct j as [|j]; [lia|]. rewrite Hafter by lia. apply Hno. lia.
  - exists p. split_and!; [lia | rewrite Hbefore; [done | lia] |].
    intros j Hj. rewrite Hbefore by lia. by apply Hno.
Qed.

Lemma StronglySorted_lookup (l : list nat) i j x y :
  StronglySorted (≤) l → l !! i = Some x → l !! j = Some y → i < j → x ≤ y.
Proof.
  intros Hs. revert i j. induction Hs as [|a l Hs IH Hall]; intros i j Hi Hj Hlt; [done|].
  destruct j as [|j]; [lia|]. destruct i as [|i]; simpl in *.
  - injection Hi as ->. rewrite Forall_forall in Hall.
    apply Hall. by eapply list_elem_of_lookup_2.
  - apply (IH i j); [done..|lia].
Qed.

(** Once sorted, the queue has [Wp] ahead of every watcher of a larger
    id. *)
Lemma pending_before_sorted Wp Wc (s : Sched) :
  Wp < Wc → Wp ∈ queue s →
  pending_before Wp Wc 0
    (upd_index (λ _, 0) (upd_queue (merge_sort (≤)) (upd_flushing (λ _, true) s))).
Proof.
  intros Hlt Hin. unfold pending_before. simpl.
  assert (Wp ∈ merge_sort (≤) (queue s)) as Hin'
    by (by rewrite merge_sort_Permutation).
  apply list_elem_of_lookup in Hin' as [p Hp].
  exists p. split_and!; [lia | done |].
  intros j Hj Hc.
  pose proof (StronglySorted_merge_sort (≤) (queue s)) as Hs.
  pose proof (StronglySorted_lookup _ j p Wc Wp Hs Hc Hp). lia.
Qed.

Lemma not_begun_cons Wc t0 e t :
  e ≠ ERunBegin Wc → not_begun Wc t0 t → not_begun Wc t0 (e :: t).
Proof.
  intros He (evs & -> & Hno). exists (e :: evs). split; [done|].
  rewrite elem_of_cons. intros [? | ?]; [congruence | done].
Qed.

Lemma parent_ran_cons Wp Wc t0 e t :
  parent_ran Wp Wc t0 t → parent_ran Wp Wc t0 (e :: t).
Proof.
  intros (evs & -> & Hend & Hafter). exists (e :: evs). split_and!; [done | |].
  - rewrite elem_of_cons. tauto.
  - intros later earlier Heq. destruct later as [|e' later]; simpl in Heq.
    + by injection Heq as -> ->.
    + injection Heq as -> Heq. by apply (Hafter later).
Qed.

Lemma parent_ran_end Wp Wc t0 t :
  not_begun Wc t0 t → parent_ran Wp Wc t0 (ERunEnd Wp :: t).
Proof.
  intros (evs & -> & Hno). exists (ERunEnd Wp :: evs). split_and!; [done | |].
  - rewrite elem_of_cons. tauto.
  - intros later earlier Heq. destruct later as [|e' later]; simpl in Heq; [done|].
    injection Heq as -> Heq. destruct Hno. rewrite Heq.
    rewrite elem_of_app, elem_of_cons. tauto.
Qed.

Lemma not_begun_runs_after Wp Wc t0 t :
  not_begun Wc t0 t → ∃ evs, t = evs ++ t0 ∧ runs_after Wp Wc evs.
Proof.
  intros (evs & -> & Hno). exists evs. split; [done|].
  intros later earlier Heq. destruct Hno. rewrite Heq.
  rewrite elem_of_app, elem_of_cons. tauto.
Qed.

Lemma parent_ran_runs_after Wp Wc t0 t :
  parent_ran Wp Wc t0 t → ∃ evs, t = evs ++ t0 ∧ runs_after Wp Wc evs.
Proof. intros (evs & -> & _ & ?). by exists evs. Qed.

Lemma runs_after_cons Wp Wc t0 e t :
  e ≠ ERunBegin Wc →
  (∃ evs, t = evs ++ t0 ∧ runs_after Wp Wc evs) →
  ∃ evs, e :: t = evs ++ t0 ∧ runs_after Wp Wc evs.
Proof.
  intros He (evs & -> & Hafter). exists (e :: evs). split; [done|].
  intros later earlier Heq. destruct later as [|e' later]; simpl in Heq.
  - congruence.
  - injection Heq as -> Heq. by apply (Hafter later).
Qed.

Lemma during_flush_trace T allowed Q e w :
  (∀ e t, allowed e → T t → T (e :: t)) → allowed e →
  during_flush T allowed Q w → during_flush T allowed Q (upd_trace (cons e) w).
Proof. intros HT He (?&?&?&?&?). split_and!; try done. by apply HT. Qed.

Lemma during_flush_sched T allowed Q Q' f w :
  flushing (f (sched w)) = flushing (sched w) →
  waiting (f (sched w)) = waiting (sched w) →
  (Q (sched w) → Q' (f (sched w))) →
  during_flush T allowed Q w → during_flush T allowed Q' (upd_sched f w).
Proof.
  intros Hf Hw HQ (?&?&?&?&?). unfold during_flush. simpl.
  rewrite Hf, Hw. split_and!; try done. by apply HQ.
Qed.

Lemma during_flush_pre T allowed Q Q' x W w :
  (∀ e t, allowed e → T t → T (e :: t)) → allowed (EBefore x) →
  (Q (sched w) → Q' (upd_has (λ h, h ∖ {[x]}) (sched w))) →
  during_flush T allowed Q w → during_flush T allowed Q' (flush_pre x W w).
Proof.
  intros HT He HQ Hw. unfold flush_pre.
  apply (during_flush_sched T allowed Q); [by destruct (w_before W)..| |].
  - by destruct (w_before W).
  - destruct (w_before W); [by apply during_flush_trace | done].
Qed.

Section flush_order.
Variables (Wp Wc : nat) (t0 : list Event).
Hypothesis Hlt : Wp < Wc.

Lemma other_than_begin e : (∀ i, e ≠ ERunBegin i) → other_than (ERunBegin Wc) e.
Proof. intros He. apply He. Qed.

Lemma before_parent_run b fuel i w :
  b ≤ 1 → i ≠ Wc → before_parent Wp Wc t0 b w →
  match Watcher_run fuel i w with
  | Ok _ w' => before_parent Wp Wc t0 b w'
  | Thrown _ w' => before_parent Wp Wc t0 b w'
  | OutOfFuel => True
  end.
Proof.
  intros Hb Hi Hw.
  pose proof (during_flush_run (not_begun Wc t0) (other_than (ERunBegin Wc))
    (pending_before Wp Wc b) (not_begun_cons Wc t0) other_than_begin
    (λ s x, pending_before_spliced Wp Wc b s x Hlt Hb) fuel i w
    ltac:(unfold other_than; congruence) Hw) as H.
  destruct (Watcher_run fuel i w) as [[] w'|e w'|]; [|done..].
  destruct H as (w1 & Hw1 & ->).
  apply during_flush_trace; [apply not_begun_cons | done | done].
Qed.

Lemma in_parent_run fuel w :
  in_parent Wc t0 w →
  match Watcher_run fuel Wp w with
  | Ok _ w' => after_parent Wp Wc t0 w'
  | Thrown _ w' => in_parent Wc t0 w'
  | OutOfFuel => True
  end.
Proof.
  intros Hw.
  pose proof (during_flush_run (not_begun Wc t0) (other_than (ERunBegin Wc))
    any_sched (not_begun_cons Wc t0) other_than_begin
    (λ s x _, Logic.I) fuel Wp w
    ltac:(unfold other_than; intros [=]; lia) Hw) as H.
  destruct (Watcher_run fuel Wp w) as [[] w'|e w'|]; [|done..].
  destruct H as (w1 & (?&?&?&?&?) & ->).
  split_and!; try done. simpl. by apply parent_ran_end.
Qed.

Lemma after_parent_run fuel i w :
  after_parent Wp Wc t0 w →
  match Watcher_run fuel i w with
  | Ok _ w' => after_parent Wp Wc t0 w'
  | Thrown _ w' => after_parent Wp Wc t0 w'
  | OutOfFuel => True
  end.
Proof.
  intros Hw.
  pose proof (during_flush_run (parent_ran Wp Wc t0) any_event
    any_sched (λ e t _, parent_ran_cons Wp Wc t0 e t) (λ _ _, Logic.I)
    (λ s x _, Logic.I) fuel i w Logic.I Hw) as H.
  destruct (Watcher_run fuel i w) as [[] w'|e w'|]; [|done..].
  destruct H as (w1 & Hw1 & ->).
  apply during_flush_trace; [intros e t _; apply parent_ran_cons | done | done].
Qed.

Lemma before_parent_ordered b w : before_parent Wp Wc t0 b w → ordered_since Wp Wc t0 w.
Proof. intros (_&_&?&_). by apply not_begun_runs_after. Qed.

Lemma after_parent_ordered w : after_parent Wp Wc t0 w → ordered_since Wp Wc t0 w.
Proof. intros (_&_&?&_). by apply parent_ran_runs_after. Qed.

Lemma flush_loop_order fuel n w :
  before_parent Wp Wc t0 0 w ∨ after_parent Wp Wc t0 w →
  match flush_loop_ (Watcher_run fuel) n w with
  | Ok _ w' | Thrown _ w' => ordered_since Wp Wc t0 w'
  | OutOfFuel => True
  end.
Proof.
  assert (∀ w, before_parent Wp Wc t0 0 w ∨ after_parent Wp Wc t0 w →
               ordered_since Wp Wc t0 w) as Hfinal.
  { intros w' [? | ?]; [by eapply before_parent_ordered | by apply after_parent_ordered]. }
  revert w. induction n as [|n IH]; intros w HJ.
  { simpl. unfold gets, mbind, M_bind, skip. simpl.
    destruct (queue (sched w) !! index (sched w)); [done|]. by apply Hfinal. }
  simpl. unfold gets, getW, mbind, M_bind. simpl.
  destruct (queue (sched w) !! index (sched w)) as [x|] eqn:Hq; [|by apply Hfinal].
  destruct (watchers w !! x) as [W|] eqn:HW; [|by apply Hfinal].
  unfold when, skip, emit, modifySched, modify. simpl.
  assert ((if w_before W then λ w, Ok tt (upd_trace (cons (EBefore x)) w)
           else mret tt) w
          = Ok tt (if w_before W then upd_trace (cons (EBefore x)) w else w)) as ->
    by (by destruct (w_before W)).
  fold (flush_pre x W w).
  assert (match Watcher_run fuel x (flush_pre x W w) with
          | Ok _ w2 => before_parent Wp Wc t0 1 w2 ∨ after_parent Wp Wc t0 w2
          | Thrown _ w2 => ordered_since Wp Wc t0 w2
          | OutOfFuel => True
          end) as Hrun.
  { destruct HJ as [HA | HB].
    - pose proof HA as (_ & _ & _ & (p & Hle & Hp & Hno) & _).
      destruct (decide (p = index (sched w))) as [-> | Hne].
      + assert (x = Wp) as -> by congruence.
        assert (in_parent Wc t0 (flush_pre Wp W w)) as Hpre.
        { eapply during_flush_pre; [apply not_begun_cons | done | | exact HA]. done. }
        pose proof (in_parent_run fuel _ Hpre) as H.
        destruct (Watcher_run fuel Wp (flush_pre Wp W w)) as [[] w2|e w2|]; [|  |done].
        * by right.
        * destruct H as (_&_&?&_). by apply not_begun_runs_after.
      + assert (x ≠ Wc) as Hx.
        { intros ->. apply (Hno (index (sched w))); [lia | done]. }
        assert (before_parent Wp Wc t0 1 (flush_pre x W w)) as Hpre.
        { eapply during_flush_pre; [apply not_begun_cons | done | | exact HA].
          intros _. exists p. simpl. split_and!; [lia | done |].
          intros j Hj. apply Hno. lia. }
        pose proof (before_parent_run 1 fuel x _ ltac:(lia) Hx Hpre) as H.
        destruct (Watcher_run fuel x (flush_pre x W w)) as [[] w2|e w2|]; [| |done].
        * by left.
        * by eapply before_parent_ordered.
    - assert (after_parent Wp Wc t0 (flush_pre x W w)) as Hpre.
      { eapply during_flush_pre; [intros e t _; apply parent_ran_cons | done | | exact HB].
        done. }
      pose proof (after_parent_run fuel x _ Hpre) as H.
      destruct (Watcher_run fuel x (flush_pre x W w)) as [[] w2|e w2|]; [| |done].
      + by right.
      + by apply after_parent_ordered. }
  destruct (Watcher_run fuel x (flush_pre x W w)) as [[] w2|e w2|]; [|done..].
  simpl.
  assert (∀ g, before_parent Wp Wc t0 0 (upd_sched (upd_index S) (upd_sched (upd_circular g) w2))
               ∨ after_parent Wp Wc t0 (upd_sched (upd_index S) (upd_sched (upd_circular g) w2)))
    as Hnext.
  { intros g. destruct Hrun as [HA | HB]; [left | right].
    - destruct HA as (?&?&?&(p & Hle & Hp & Hno)&?). split_and!; try done.
      exists p. simpl. split_and!; [lia | done |]. intros j Hj. apply Hno. lia.
    - destruct HB as (?&?&?&?&?). by split_and!. }
  destruct (negb (production (env w2)) && bool_decide (x ∈ has (sched w2))); simpl.
  - destruct (bool_decide (MAX_UPDATE_COUNT < _)); simpl.
    + unfold warn, emit, modify. simpl.
      apply runs_after_cons; [done|].
      destruct Hrun as [HA | HB].
      * destruct HA as (?&?&?&?&?). simpl. by apply not_begun_runs_after.
      * destruct HB as (?&?&?&?&?). simpl. by apply parent_ran_runs_after.
    + apply IH, Hnext.
  - apply (IH _ (Hnext id)).
Qed.
End flush_order.

Lemma ordered_since_emit Wp Wc t0 e :
  e ≠ ERunBegin Wc → hoare any_exn (ordered_since Wp Wc t0) anyhow (emit e).
Proof.
  intros He w Hw. simpl. split; [|done]. by apply runs_after_cons.
Qed.

Lemma ordered_since_callUpdatedHooks Wp Wc t0 l :
  hoare any_exn (ordered_since Wp Wc t0) anyhow (callUpdatedHooks l).
Proof.
  unfold callUpdatedHooks.
  repeat hoare_step ltac:(first
    [ apply hoare_getW; [apply _ | done]
    | apply hoare_getVm; [apply _ | done]
    | by apply ordered_since_emit ]).
Qed.

Lemma quiet_first_get fuel this (o : WatcherOptions) :
  hoare any_exn always quiet
    (if opt_lazy o then skip
     else value ← Watcher_get fuel this; modifyW this (upd_w_value (λ _, value))).
Proof.
  repeat hoare_step ltac:(first
    [ apply quiet_Watcher_get | apply quiet_modifyW; by intros [] ]).
Qed.

(** The constructor takes the next id from the counter: the new watcher
    has a larger id than every watcher made before it. *)
Lemma new_Watcher_id fuel vm expOrFn expression cb options isRenderWatcher w this w' :
  new_Watcher fuel vm expOrFn expression cb options isRenderWatcher w = Ok this w' →
  this = S (watcher_uid w) ∧ watcher_uid w' = this
  ∧ is_Some (watchers w' !! this)
  ∧ (ids_bounded w → ids_bounded w' ∧ ∀ i, is_Some (watchers w !! i) → i < this).
Proof.
  unfold new_Watcher, getVm, gets, modify, when, skip, mbind, M_bind. simpl.
  destruct (vms w !! vm) as [v|]; [|done].
  destruct isRenderWatcher; simpl;
    match goal with
    | |- context [(if opt_lazy ?o then ?f else ?g) ?w2] =>
        pose proof (quiet_first_get fuel (S (watcher_uid w)) o w2 Logic.I
          : match (if opt_lazy o then f else g) w2 with
            | Ok _ w3 => always w3 ∧ quiet w2 w3
            | Thrown e w3 => any_exn e ∧ always w3 ∧ quiet w2 w3
            | OutOfFuel => True
            end) as Hq;
        destruct ((if opt_lazy o then f else g) w2) as [[] w3|e w3|]; [|done..]
    end;
    intros [= <- <-];
    destruct Hq as [_ [_ _ _ _ Hu Hst _]]; simpl in Hu, Hst;
    (split; [done|]); (split; [done|]);
    (split;
     [ specialize (Hst (S (watcher_uid w))); simpl in Hst;
       rewrite lookup_insert_eq in Hst;
       by destruct (watchers w3 !! S (watcher_uid w))
     | intros Hb; split;
       [ intros i Hi; rewrite Hu; specialize (Hst i); simpl in Hst;
         destruct (decide (i = S (watcher_uid w))) as [-> | Hne]; [lia|];
         rewrite lookup_insert_ne in Hst by done;
         destruct Hi as [Wi Hi]; rewrite Hi in Hst;
         destruct (watchers w !! i) eqn:HWi; [|done];
         pose proof (Hb i ltac:(by rewrite HWi)); lia
       | intros i Hi; pose proof (Hb i Hi); lia ] ]).
Qed.

Lemma ordered_since_reset Wp Wc t0 l :
  hoare any_exn (ordered_since Wp Wc t0) anyhow
    (resetSchedulerState;; callUpdatedHooks l).
Proof.
  unfold resetSchedulerState, modifySched.
  repeat hoare_step ltac:(first
    [ apply ordered_since_callUpdatedHooks
    | apply hoare_modify; by intros ] ).
Qed.

(** X1.  Watcher ids come from a counter that each construction advances,
    so that a watcher has a larger id than every watcher made before it;
    [flushSchedulerQueue] sorts the queue by id before it runs it; hence,
    for two watchers [Wp] and [Wc] with the id of [Wp] the smaller, [Wp]
    in the queue when the flush begins and [Wc] one that [update()]
    queues (not [sync]), every run of [Wc] in that flush begins after a
    run of [Wp] has ended, whatever the callbacks write and whichever
    watchers are queued meanwhile.  In [family_world] the child was queued
    first and runs second. *)
Theorem flush_runs_parent_before_child (fuel Wp Wc : nat) (w : World) :
  Wp < Wc →
  Wp ∈ queue (sched w) →
  waiting (sched w) = true →
  (∀ W, watchers w !! Wc = Some W → w_sync W = false) →
  match flushSchedulerQueue fuel w with
  | Ok _ w' | Thrown _ w' => ordered_since Wp Wc (trace w) w'
  | OutOfFuel => True
  end
  ∧ (∀ vm expOrFn expression cb options isRenderWatcher w0 this w1,
       new_Watcher fuel vm expOrFn expression cb options isRenderWatcher w0
       = Ok this w1 →
       this = S (watcher_uid w0) ∧ watcher_uid w1 = this
       ∧ (ids_bounded w0 →
          ids_bounded w1 ∧ ∀ i, is_Some (watchers w0 !! i) → i < this))
  ∧ (∃ w', microtask 5 family_world = Ok tt w'
       ∧ queue (sched family_world) = [2; 1]
       ∧ run_events (new_events family_world w')
         = [ERunEnd 2; ERunBegin 2; ERunEnd 1; ERunBegin 1]).
Proof.
  intros Hlt Hin Hwait Hsync. split_and!.
  - destruct fuel as [|fuel]; [done|].
    change (flushSchedulerQueue (S fuel) w)
      with (flushSchedulerQueue_ fuel (Watcher_run fuel) w).
    unfold flushSchedulerQueue_, modifySched, modify, mbind, M_bind. simpl.
    match goal with
    | |- context [flush_loop_ _ _ ?w0] =>
        assert (before_parent Wp Wc (trace w) 0 w0) as Hstart
    end.
    { split; [done|]. split; [done|]. split; [|split].
      - exists []. split; [done | apply not_elem_of_nil].
      - by apply pending_before_sorted.
      - intros i W HW Hs [= ->]. specialize (Hsync W HW). congruence. }
    pose proof (flush_loop_order Wp Wc (trace w) Hlt fuel fuel _ (or_introl Hstart)) as Hloop.
    match goal with
    | |- context [flush_loop_ ?r ?n ?w0] =>
        destruct (flush_loop_ r n w0) as [[] w1|e w1|]; [|done..]
    end.
    pose proof (ordered_since_reset Wp Wc (trace w) (queue (sched w1)) w1 Hloop) as Hrest.
    unfold mbind, M_bind, gets in Hrest |- *. simpl in Hrest |- *.
    match goal with
    | |- match ?m with _ => _ end =>
        match type of Hrest with
        | match ?m' with _ => _ end => change m with m'; destruct m'
        end
    end; tauto.
  - intros vm expOrFn expression cb options isRenderWatcher w0 this w1 Hnew.
    destruct (new_Watcher_id _ _ _ _ _ _ _ _ _ _ Hnew) as (? & ? & _ & ?). done.
  - eexists. split; [vm_compute; reflexivity|].
    split; vm_compute; reflexivity.
Qed.

(** ** One synchronous turn *)

Lemma same_static_lookup w w' i X' :
  watchers_static w w' → watchers w' !! i = Some X' →
  ∃ X, watchers w !! i = Some X ∧ same_static X X'.
Proof.
  intros Hst HX'. specialize (Hst i). rewrite HX' in Hst.
  destruct (watchers w !! i) as [X|]; [|done]. by exists X.
Qed.

Lemma same_static_lookup_r w w' i X :
  watchers_static w w' → watchers w !! i = Some X →
  ∃ X', watchers w' !! i = Some X' ∧ same_static X X'.
Proof.
  intros Hst HX. specialize (Hst i). rewrite HX in Hst.
  destruct (watchers w' !! i) as [X'|]; [|done]. by exists X'.
Qed.

Lemma no_sync_watcher_static w w' :
  watchers_static w w' → no_sync_watcher w → no_sync_watcher w'.
Proof.
  intros Hst Hns i X' HX' Hlazy.
  destruct (same_static_lookup w w' i X' Hst HX') as (X & HX & (_&_&_&Hl&Hs&_)).
  rewrite Hs. apply (Hns i X HX). congruence.
Qed.


#[global] Instance turn_step_refl : Reflexive turn_step.
Proof.
  intros w. split; [reflexivity | done |].
  exists []. split_and!; [done | intros i; apply not_elem_of_nil |].
  intros x X Hx. by apply not_elem_of_nil in Hx.
Qed.

#[global] Instance turn_step_trans : Transitive turn_step.
Proof.
  intros w1 w2 w3 [Hs1 Hq1 (evs1 & Ht1 & Hr1 & Hu1)] [Hs2 Hq2 (evs2 & Ht2 & Hr2 & Hu2)].
  split; [by etrans | auto |].
  exists (evs2 ++ evs1). split_and!.
  - by rewrite Ht2, Ht1, (assoc_L (++)).
  - intros i. rewrite elem_of_app. intros [? | ?]; [by eapply Hr2 | by eapply Hr1].
  - intros x X Hx HX Hl. apply elem_of_app in Hx as [Hx | Hx].
    + destruct (same_static_lookup_r w1 w2 x X Hs1 HX) as (X2 & HX2 & (_&_&_&Hl2&_)).
      apply (Hu2 x X2 Hx HX2). congruence.
    + apply Hq2. by apply (Hu1 x X).
Qed.

Lemma in_turn_quiet w w' : in_turn w → quiet w w' → in_turn w' ∧ turn_step w w'.
Proof.
  intros (Ha & Hns & Hf & Hnd & Hhas & Hw) [Henv Hsched Htick _ _ Hst Htr]. split.
  - unfold in_turn. rewrite Henv, Hsched, Htick. split_and!; try done.
    by eapply no_sync_watcher_static.
  - split; [done | by rewrite Hsched |].
    destruct Htr as (evs & Ht & Hevs). exists evs. split_and!; [done | |].
    + intros i Hi. rewrite Forall_forall in Hevs. by apply Hevs in Hi.
    + intros x X Hx. rewrite Forall_forall in Hevs. by apply Hevs in Hx.
Qed.

Lemma in_turn_notify d : hoare any_exn in_turn turn_step (emit (ENotify d)).
Proof.
  intros w Hw. simpl. split; [done|]. split; [exact (watchers_static_refl w) | done |].
  exists [ENotify d]. split_and!; [done | |].
  - intros i Hi. apply list_elem_of_singleton in Hi. done.
  - intros x X Hx. apply list_elem_of_singleton in Hx. done.
Qed.

Lemma in_turn_update run_rec flush_rec i :
  hoare any_exn in_turn turn_step (Watcher_update_ run_rec flush_rec i).
Proof.
  intros w Hw. pose proof Hw as (Ha & Hns & Hf & Hnd & Hhas & Hwt).
  unfold Watcher_update_, emit, modify, getW, mbind, M_bind. simpl.
  assert (∀ i0, ERunBegin i0 ∉ [EUpdate i]) as Hnorun.
  { intros i0 Hi. apply list_elem_of_singleton in Hi. done. }
  destruct (watchers w !! i) as [X|] eqn:HX.
  2:{ split_and!; [done..|]. split; [exact (watchers_static_refl w) | done |].
      exists [EUpdate i]. split_and!; [done..|]. intros x X Hx HX'.
      apply list_elem_of_singleton in Hx as [= ->]. congruence. }
  destruct (w_lazy X) eqn:Hlazy.
  { pose proof (quiet_modifyW any_exn i (upd_w_dirty (λ _, true))
      ltac:(by intros []) (upd_trace (cons (EUpdate i)) w) Logic.I) as [_ Hq].
    destruct (in_turn_quiet (upd_trace (cons (EUpdate i)) w) _ Hw Hq) as [Hw2 Hs2].
    split; [exact Hw2|]. etrans; [|exact Hs2].
    split; [exact (watchers_static_refl w) | done |].
    exists [EUpdate i]. split_and!; [done..|]. intros x X' Hx HX'.
    apply list_elem_of_singleton in Hx as [= ->]. congruence. }
  rewrite (Hns i X HX Hlazy).
  unfold queueWatcher_, gets, modifySched, modify, skip, mbind, M_bind. simpl.
  destruct (decide (i ∈ has (sched w))) as [Hin | Hin]; simpl.
  { split; [done|]. split; [exact (watchers_static_refl w) | done |].
    exists [EUpdate i]. split_and!; [done..|]. intros x X' Hx _ _.
    apply list_elem_of_singleton in Hx as [= ->]. simpl. by apply Hhas. }
  rewrite Hf. simpl.
  assert (negb (production (env w)) && negb (config_async (env w)) = false) as Hasync.
  { destruct Ha as [-> | ->]; [done | by rewrite andb_false_r]. }
  assert (NoDup (queue (sched w) ++ [i])) as Hnd'.
  { apply NoDup_app. split_and!; [done | | apply NoDup_singleton].
    intros x Hx Hx'. apply list_elem_of_singleton in Hx' as ->. by apply Hin, Hhas. }
  assert (∀ x, x ∈ {[i]} ∪ has (sched w) ↔ x ∈ queue (sched w) ++ [i]) as Hhas'.
  { intros x. rewrite elem_of_union, elem_of_singleton, elem_of_app,
      list_elem_of_singleton, Hhas. tauto. }
  assert (∀ w', trace w' = EUpdate i :: trace w →
                watchers w' = watchers w →
                queue (sched w') = queue (sched w) ++ [i] → turn_step w w') as Hstep.
  { intros w' Ht Hws Hq. split.
    - intros j. rewrite Hws. by destruct (watchers w !! j).
    - intros x Hx. rewrite Hq, elem_of_app. by left.
    - exists [EUpdate i]. split_and!; [done..|]. intros x X' Hx _ _.
      apply list_elem_of_singleton in Hx as [= ->].
      rewrite Hq, elem_of_app, list_elem_of_singleton. by right. }
  destruct (waiting (sched w)) eqn:Hw'; simpl.
  - split; [|by apply Hstep]. unfold in_turn. simpl.
    rewrite Hw'. by split_and!.
  - rewrite Hasync. unfold nextTick, modifyTick, modify, gets, mbind, M_bind. simpl.
    destruct Hwt as (Hq & Hcb & Hp & Ht). rewrite Hp. simpl.
    split; [|by apply Hstep]. unfold in_turn, flush_scheduled. simpl.
    rewrite Hcb, Ht. by split_and!.
Qed.

Lemma in_turn_write_prop fuel obj key val :
  hoare any_exn in_turn turn_step (write_prop fuel obj key val).
Proof.
  exact (hoare_write_prop_ in_turn turn_step in_turn_quiet fuel
           (Watcher_run fuel) (flushSchedulerQueue fuel)
           in_turn_notify (in_turn_update _ _) obj key val).
Qed.

Lemma in_turn_assign_all fuel writes :
  hoare any_exn in_turn turn_step (assign_all fuel writes).
Proof.
  apply hoare_forM_; try apply _. intros [[obj key] val]. apply in_turn_write_prop.
Qed.

Lemma idle_in_turn w : async_mode (env w) → no_sync_watcher w → idle w → in_turn w.
Proof.
  intros Ha Hns (Hq & Hh & Hw & Hf & Ht). unfold in_turn.
  rewrite Hq, Hh, Hw. split_and!; try done.
  - apply NoDup_nil_2.
  - intros x. rewrite elem_of_nil. split; [apply not_elem_of_empty | done].
Qed.

(** ** A flush whose callbacks assign nothing *)

#[global] Instance calm_refl : Reflexive calm.
Proof.
  intros w. split; try done.
  exists []. split; [done|]. intros i. apply not_elem_of_nil.
Qed.

#[global] Instance calm_trans : Transitive calm.
Proof.
  intros w1 w2 w3 [? ? ? ? (evs1 & Ht1 & H1)] [? ? ? ? (evs2 & Ht2 & H2)].
  split; try congruence; [by etrans|].
  exists (evs2 ++ evs1). split; [by rewrite Ht2, Ht1, (assoc_L (++))|].
  intros i. rewrite elem_of_app. intros [? | ?]; [by eapply H2 | by eapply H1].
Qed.






Lemma bind_emit {B} e (k : unit → M B) w :
  (emit e ≫= k) w = k tt (upd_trace (cons e) w).
Proof. done. Qed.



Lemma runs_none this evs : (∀ i, ERunBegin i ∉ evs) → runs this evs = 0.
Proof.
  intros Hno. unfold runs.
  induction evs as [|e evs IH]; [done|].
  rewrite filter_cons. destruct (decide (e = ERunBegin this)) as [-> | _].
  - destruct (Hno this). by left.
  - apply IH. intros i Hi. apply (Hno i). by right.
Qed.









(** ** Batching: one turn of writes, one flush *)


#[global] Instance silent_trans : Transitive silent.
Proof.
  intros w1 w2 w3 (evs1 & Ht1 & H1) (evs2 & Ht2 & H2).
  exists (evs2 ++ evs1). split; [by rewrite Ht2, Ht1, (assoc_L (++))|].
  intros i. rewrite elem_of_app. intros [? | ?]; [by eapply H2 | by eapply H1].
Qed.





(** ** The scheduler and the next-tick queue, beyond the claims *)


(** X2.  One synchronous turn of assignments, in the asynchronous mode
    and with no [sync] watcher, started with nothing queued: no watcher is
    run during the turn; the queue holds no watcher twice; every watcher
    (not lazy) whose [update()] was called is in the queue when the turn
    ends; and as soon as the queue is not empty exactly one
    [flushCallbacks] is on the microtask queue, which will call
    [flushSchedulerQueue]. *)
Theorem turn_of_writes_only_queues
    (fuel : nat) (writes : list (nat * Key * Value)) (w : World) :
  async_mode (env w) → no_sync_watcher w → idle w →
  match assign_all fuel writes w with
  | Ok _ w1 | Thrown _ w1 =>
      (∀ i, runs i (new_events w w1) = 0)
      ∧ flushing (sched w1) = false
      ∧ NoDup (queue (sched w1))
      ∧ (∀ x X, EUpdate x ∈ new_events w w1 → watchers w !! x = Some X →
           w_lazy X = false → x ∈ queue (sched w1))
      ∧ (queue (sched w1) ≠ [] → flush_scheduled (tick w1))
  | OutOfFuel => True
  end.
Proof.
  intros Ha Hns Hidle.
  pose proof (in_turn_assign_all fuel writes w (idle_in_turn w Ha Hns Hidle)) as H.
  assert (∀ w1, in_turn w1 → turn_step w w1 →
    (∀ i, runs i (new_events w w1) = 0)
    ∧ flushing (sched w1) = false
    ∧ NoDup (queue (sched w1))
    ∧ (∀ x X, EUpdate x ∈ new_events w w1 → watchers w !! x = Some X →
         w_lazy X = false → x ∈ queue (sched w1))
    ∧ (queue (sched w1) ≠ [] → flush_scheduled (tick w1))) as Hpost.
  { intros w1 (_ & _ & Hf & Hnd & _ & Hw) [_ _ (evs & Ht & Hr & Hu)].
    rewrite (new_events_app w w1 evs Ht). split_and!; try done.
    - intros i. by apply runs_none.
    - intros Hq. destruct (waiting (sched w1)); [done | by destruct Hw]. }
  destruct (assign_all fuel writes w) as [[] w1|e w1|]; [| |done];
    apply Hpost; tauto.
Qed.




(** ** [nextTick] and [flushCallbacks] *)

Lemma nextTick_step cb w :
  nextTick cb w
  = Ok tt (upd_tick (λ t,
      {| callbacks := callbacks t ++ [cb]; pending := true;
         timers := if pending t then timers t else S (timers t) |}) w).
Proof.
  destruct w as [? ? ? ? ? ? ? ? ? ? ? [? p ?] ?].
  unfold nextTick, modifyTick, modify, gets, mbind, M_bind. simpl.
  by destruct p.
Qed.

Lemma nextTick_pending cbs w :
  pending (tick w) = true →
  forM_ cbs nextTick w = Ok tt (upd_tick (upd_callbacks (λ l, l ++ cbs)) w).
Proof.
  revert w. induction cbs as [|cb cbs IH]; intros w Hp.
  - destruct w as [? ? ? ? ? ? ? ? ? ? ? [? ? ?] ?]. simpl.
    unfold upd_tick, upd_callbacks. simpl. by rewrite app_nil_r.
  - simpl. unfold mbind, M_bind. rewrite nextTick_step, IH by done.
    destruct w as [? ? ? ? ? ? ? ? ? ? ? [? ? ?] ?]. simpl in *. subst.
    unfold upd_tick, upd_callbacks. simpl. by rewrite <- (assoc_L (++)).
Qed.

(** X6.  However many callbacks one turn hands to [nextTick], they are
    appended to the queue in order and [timerFunc] is called once at
    most: once when no flush was pending, not at all when one was. *)
Theorem nextTick_arms_one_timer (cbs : list TickCb) (w : World) :
  cbs ≠ [] →
  forM_ cbs nextTick w
  = Ok tt (upd_tick (λ t,
      {| callbacks := callbacks t ++ cbs; pending := true;
         timers := if pending t then timers t else S (timers t) |}) w).
Proof.
  destruct cbs as [|cb cbs]; [done|]. intros _.
  simpl. unfold mbind, M_bind. rewrite nextTick_step, nextTick_pending by done.
  destruct w as [? ? ? ? ? ? ? ? ? ? ? [? ? ?] ?]. simpl.
  unfold upd_tick, upd_callbacks. simpl. by rewrite <- (assoc_L (++)).
Qed.




(** X8.  The constructor numbers the watchers: each new watcher takes the
    next value of the counter, which is larger than the id of every
    watcher made before, and is stored under it. *)
Theorem Watcher_ids_grow
    (fuel vm : nat) (expOrFn : GProg) (expression : string)
    (cb : Value → Value → CProg) (options : option WatcherOptions)
    (isRenderWatcher : bool) (w : World) :
  ids_bounded w →
  match new_Watcher fuel vm expOrFn expression cb options isRenderWatcher w with
  | Ok this w' =>
      this = S (watcher_uid w) ∧ watcher_uid w' = this
      ∧ is_Some (watchers w' !! this)
      ∧ (∀ i, is_Some (watchers w !! i) → i < this)
      ∧ ids_bounded w'
  | _ => True
  end.
Proof.
  intros Hb.
  destruct (new_Watcher fuel vm expOrFn expression cb options isRenderWatcher w)
    as [this w'|e w'|] eqn:Hnew; [|done..].
  destruct (new_Watcher_id _ _ _ _ _ _ _ _ _ _ Hnew) as (? & ? & ? & Hrest).
  destruct (Hrest Hb). by split_and!.
Qed.

(** ** Watchers and reads, beyond the claims *)

Lemma reactiveGetter_no_target fuel r w :
  Dep_target w = None →
  reactiveGetter fuel r w = Ok (if r_getter r then r_backing r else r_val r) w.
Proof.
  intros Ht. unfold reactiveGetter, gets, mbind, M_bind, skip. simpl. by rewrite Ht.
Qed.

Lemma read_prop_no_target fuel obj key w :
  Dep_target w = None → ∃ v, read_prop fuel obj key w = Ok v w.
Proof.
  intros Ht. unfold read_prop, gets. unfold mbind at 1, M_bind at 1.
  destruct (heap w !! obj ≫= lookup_slot key) as [[v c|b g s c|r]|];
    [by eexists | by eexists | | by eexists].
  rewrite reactiveGetter_no_target by done. by eexists.
Qed.

Lemma exec_getter_no_target fuel p w :
  Dep_target w = None →
  (∃ v, exec_getter fuel p w = Ok v w) ∨ (∃ e, exec_getter fuel p w = Thrown e w).
Proof.
  intros Ht. induction p as [v|e|o k cont IH]; simpl.
  - left. by exists v.
  - right. by exists e.
  - unfold mbind, M_bind.
    destruct (read_prop_no_target fuel o k w Ht) as [v ->]. apply IH.
Qed.

(** X9.  A getter that runs while no watcher is collecting
    ([Dep.target] is not set) only reads: whether it returns or throws,
    it leaves no subscription, no event, nothing changed; and it needs no
    fuel. *)
Theorem getter_without_target_is_pure (fuel : nat) (p : GProg) (w : World) :
  Dep_target w = None →
  (∃ v, exec_getter fuel p w = Ok v w) ∨ (∃ e, exec_getter fuel p w = Thrown e w).
Proof. apply exec_getter_no_target. Qed.


(** X11.  [run()] calls the callback only when there is something to
    tell: for a watcher that is active and not deep, whose getter
    returns a value that is not an object and is the one it had, [run()]
    evaluates the getter and stops there: the callback is not called and
    the value is kept. *)
Theorem run_skips_unchanged_value
    (fuel this : nat) (W : Watcher) (v : Value) (w w1 : World) :
  watchers w !! this = Some W →
  w_active W = true → w_deep W = false →
  Watcher_get fuel this (upd_trace (cons (ERunBegin this)) w) = Ok v w1 →
  isObject v = false → strict_eq v (w_value W) = true →
  Watcher_run (S fuel) this w = Ok tt (upd_trace (cons (ERunEnd this)) w1)
  ∧ callback_calls (new_events w (upd_trace (cons (ERunEnd this)) w1)) = []
  ∧ ∃ W', watchers w1 !! this = Some W' ∧ w_value W' = w_value W.
Proof.
  intros HW Ha Hdeep Hget Hobj Heqv.
  pose proof (Watcher_get_post fuel this W (upd_trace (cons (ERunBegin this)) w) HW)
    as Hpost.
  rewrite Hget in Hpost.
  destruct Hpost as [_ _ _ _ _ _ _ _ _ _ _ (evs & W' & Ht & Hevs & HW' & Heq & _)].
  assert (w_value W' = w_value W ∧ w_deep W' = w_deep W) as (Hv & Hd)
    by (rewrite Heq; done).
  split_and!.
  - change (Watcher_run (S fuel) this w)
      with (Watcher_run_ fuel (Watcher_run fuel) (flushSchedulerQueue fuel) this w).
    unfold Watcher_run_. rewrite bind_emit. unfold mbind, M_bind, getW. simpl.
    rewrite HW, Ha. unfold Watcher_run_active_, mbind, M_bind. rewrite Hget.
    unfold getW. rewrite HW', Hv, Hd. by rewrite Hobj, Hdeep, Heqv.
  - rewrite (new_events_app w _ (ERunEnd this :: evs ++ [EGetter this; ERunBegin this])).
    2:{ simpl. rewrite Ht. simpl. by rewrite <- (assoc_L (++)). }
    unfold callback_calls. simpl. rewrite omap_app. simpl. rewrite app_nil_r.
    clear Ht. induction Hevs as [|e evs' He _ IH]; [done|].
    destruct e; try (by destruct He); apply IH.
  - by exists W'.
Qed.

(** X12.  [addDep] records a Dep once per evaluation: a second
    [addDep(dep)] for a Dep already in the new generation changes
    nothing, so that a property read twice by a getter is recorded, and
    subscribed to, once. *)
Theorem Watcher_addDep_idempotent (this dep : nat) (W : Watcher) (w : World) :
  watchers w !! this = Some W →
  ∃ w1 W1,
    Watcher_addDep this dep w = Ok tt w1
    ∧ watchers w1 !! this = Some W1
    ∧ dep ∈ w_newDepIds W1
    ∧ Watcher_addDep this dep w1 = Ok tt w1
    ∧ (Watcher_addDep this dep;; Watcher_addDep this dep) w = Ok tt w1.
Proof.
  intros HW.
  assert (∀ w1 W1, watchers w1 !! this = Some W1 → dep ∈ w_newDepIds W1 →
                   Watcher_addDep this dep w1 = Ok tt w1) as Hskip.
  { intros w1 W1 HW1 Hin. unfold Watcher_addDep, getW, mbind, M_bind.
    rewrite HW1. by rewrite decide_True. }
  assert (∃ w1 W1, Watcher_addDep this dep w = Ok tt w1
            ∧ watchers w1 !! this = Some W1 ∧ dep ∈ w_newDepIds W1)
    as (w1 & W1 & Hfirst & HW1 & Hin).
  { unfold Watcher_addDep, getW, mbind, M_bind. rewrite HW.
    destruct (decide (dep ∈ w_newDepIds W)) as [Hin | Hin].
    - by exists w, W.
    - unfold modifyW, modify, skip, Dep_addSub. simpl.
      destruct (decide (dep ∈ w_depIds W)); simpl;
        eexists _, _; (split; [reflexivity|]); simpl;
        rewrite !lookup_alter_eq, HW; simpl;
        (split; [reflexivity|]); simpl; apply elem_of_union_l, elem_of_singleton;
        done. }
  exists w1, W1. split_and!; [done | done | done | by eapply Hskip |].
  unfold mbind, M_bind. rewrite Hfirst. by eapply Hskip.
Qed.

(** ** Observation, beyond the claims *)

Lemma bind_gets {A B} (f : World → A) (k : A → M B) w :
  (gets f ≫= k) w = k (f w) w.
Proof. done. Qed.

Lemma bind_ok {A B} (m : M A) (k : A → M B) w a w' :
  m w = Ok a w' → (m ≫= k) w = k a w'.
Proof. intros H. unfold mbind, M_bind. by rewrite H. Qed.


(** X13.  [observe] is idempotent: whatever a first [observe(value)]
    returned (the Observer of the object, or nothing when the guard
    refuses the value), a second call returns the same and changes
    nothing. *)
Theorem observe_twice (fuel fuel' r : nat) (res : option nat) (w w1 : World) :
  observe fuel (VRef r) false w = Ok res w1 →
  observe (S fuel') (VRef r) false w1 = Ok res w1.
Proof.
  destruct fuel as [|fuel]; [done|].
  change (observe (S fuel) (VRef r) false w)
    with (observe_ (observe fuel) (VRef r) false w).
  change (observe (S fuel') (VRef r) false w1)
    with (observe_ (observe fuel') (VRef r) false w1).
  unfold observe_, getObj, gets, mbind, M_bind.
  destruct (heap w !! r) as [o|] eqn:Ho; [|done].
  destruct (o_isVNode o) eqn:Hvn.
  { simpl. intros [= <- <-]. by rewrite Ho, Hvn. }
  simpl. destruct (o_ob o) as [ob|] eqn:Hob; simpl.
  { intros [= <- <-]. rewrite Ho, Hvn. simpl. by rewrite Hob. }
  destruct (shouldObserve w && negb (serverRendering (env w))
            && (bool_decide (o_kind o = KArray) || bool_decide (o_kind o = KPlain))
            && o_extensible o && negb (o_isVue o)) eqn:Hguard; simpl.
  2:{ intros [= <- <-]. rewrite Ho, Hvn. simpl. by rewrite Hob, Hguard. }
  pose proof (new_Observer_attaches (observe fuel) (observing_observe fuel) r o w Ho Hob)
    as Hnew.
  destruct (new_Observer_ (observe fuel) r w) as [[] w2|e w2|]; simpl; [|done..].
  intros [= <- <-]. destruct Hnew as [Hobs (o2 & ob2 & Ho2 & Hob2)].
  destruct (obs_heap _ _ Hobs r o Ho) as (o2' & Ho2' & _ & _ & _ & _ & Hvn2 & _).
  assert (o2' = o2) as -> by congruence.
  rewrite Ho2. rewrite Hvn2, Hvn. simpl. by rewrite Hob2.
Qed.

#[global] Instance reads_kept_refl : Reflexive reads_kept.
Proof. intros w r o Ho. by exists o. Qed.

#[global] Instance reads_kept_trans : Transitive reads_kept.
Proof.
  intros w1 w2 w3 H12 H23 r o Ho.
  destruct (H12 r o Ho) as (o2 & Ho2 & Hv2).
  destruct (H23 r o2 Ho2) as (o3 & Ho3 & Hv3).
  exists o3. split; [done|]. intros k. by rewrite Hv3, Hv2.
Qed.

Lemma assoc_set_slot_eq k s l : assoc k (set_slot k s l) = Some s.
Proof.
  induction l as [|[k' s'] l IH]; simpl.
  - by rewrite decide_True.
  - destruct (decide (k' = k)); simpl; [by rewrite decide_True|].
    by rewrite decide_False.
Qed.

Lemma assoc_set_slot_ne k k' s l : k ≠ k' → assoc k' (set_slot k s l) = assoc k' l.
Proof.
  intros Hne. induction l as [|[k0 s0] l IH]; simpl.
  - by rewrite decide_False.
  - destruct (decide (k0 = k)) as [-> | Hne0]; simpl.
    + by rewrite !decide_False.
    + destruct (decide (k0 = k')); [done | exact IH].
Qed.

Lemma reads_kept_heap w w' : heap w' = heap w → reads_kept w w'.
Proof. intros Hh r o Ho. exists o. by rewrite Hh. Qed.

Lemma reads_kept_ob f r :
  hoare any_exn always reads_kept (modifyObj r (upd_o_ob f)).
Proof.
  intros w _. unfold modifyObj, modify. split; [done|]. intros r' o Ho. simpl.
  destruct (decide (r = r')) as [-> | Hne].
  - rewrite lookup_alter_eq, Ho. simpl. by eexists.
  - rewrite lookup_alter_ne by done. by exists o.
Qed.

Section reads_kept.
Context (observe_rec : Value → bool → M (option nat)).
Context (Hrec : ∀ v b, hoare any_exn always reads_kept (observe_rec v b)).

(** [defineReactive(obj, key)], as [walk] calls it, keeps the value of
    the property. *)
Lemma reads_kept_defineReactive_ obj key cs sh :
  hoare any_exn always reads_kept (defineReactive_ observe_rec obj key None cs sh).
Proof.
  intros w _.
  unfold defineReactive_, newDep, gets, modify, getObj, mbind, M_bind. simpl.
  set (w0 := upd_deps <[dep_uid w:=[]]> (upd_dep_uid S w)).
  assert (reads_kept w w0) as H0 by (by apply reads_kept_heap).
  destruct (heap w !! obj) as [o|] eqn:Ho; [|by split_and!].
  assert (∀ (R : Reactive) (m : M (option nat)),
    hoare any_exn always reads_kept m →
    slot_value (Some (SReactive R)) = slot_value (lookup_slot key o) →
    match (childOb ← m;
           modifyObj obj (upd_o_props (set_slot key (SReactive
             {| r_dep := r_dep R; r_val := r_val R; r_childOb := childOb;
                r_getter := r_getter R; r_setter := r_setter R;
                r_backing := r_backing R; r_shallow := r_shallow R;
                r_customSetter := r_customSetter R |})))) w0 with
    | Ok _ w' => always w' ∧ reads_kept w w'
    | Thrown e w' => any_exn e ∧ always w' ∧ reads_kept w w'
    | OutOfFuel => True
    end) as Hdef.
  { intros R m Hm Hval. unfold mbind, M_bind. specialize (Hm w0 Logic.I).
    destruct (m w0) as [childOb w1|e w1|]; [| |done].
    2:{ split_and!; [done..|]. etrans; [exact H0 | tauto]. }
    destruct Hm as [_ H01]. unfold modifyObj, modify. split; [done|].
    intros r' o' Ho'.
    destruct (H0 r' o' Ho') as (o0 & Ho0 & Hv0).
    destruct (H01 r' o0 Ho0) as (o1 & Ho1 & Hv1). simpl.
    destruct (decide (obj = r')) as [<- | Hne].
    - rewrite lookup_alter_eq, Ho1. simpl. eexists. split; [done|].
      intros k. unfold lookup_slot. simpl.
      destruct (decide (key = k)) as [<- | Hk].
      + rewrite assoc_set_slot_eq. assert (o' = o) as -> by congruence.
        exact Hval.
      + rewrite assoc_set_slot_ne by done.
        fold (lookup_slot k o1). by rewrite Hv1, Hv0.
    - rewrite lookup_alter_ne by done. exists o1. split; [done|].
      intros k. by rewrite Hv1, Hv0. }
  assert (∀ v, hoare any_exn always reads_kept
                 (if sh then mret None else observe_rec v false)) as Hchild.
  { intros v. destruct sh; [apply hoare_ret; apply _ | apply Hrec]. }
  destruct (lookup_slot key o) as [[v [|]|b g s [|]|r]|] eqn:Hslot; simpl;
    try (split; [done | exact H0]).
  - apply (Hdef {| r_dep := dep_uid w; r_val := v; r_childOb := None;
                   r_getter := false; r_setter := false; r_backing := VUndef;
                   r_shallow := sh; r_customSetter := cs |} _ (Hchild v)).
    done.
  - apply (Hdef {| r_dep := dep_uid w;
                   r_val := if negb g || s then (if g then b else VUndef) else VUndef;
                   r_childOb := None;
                   r_getter := g; r_setter := s; r_backing := b;
                   r_shallow := sh; r_customSetter := cs |} _ (Hchild _)).
    simpl. by destruct g, s.
  - apply (Hdef {| r_dep := dep_uid w; r_val := VUndef; r_childOb := None;
                   r_getter := false; r_setter := false; r_backing := VUndef;
                   r_shallow := sh; r_customSetter := cs |} _ (Hchild VUndef)).
    done.
Qed.

Lemma reads_kept_walk_ obj :
  hoare any_exn always reads_kept (walk_ observe_rec obj).
Proof.
  unfold walk_.
  apply hoare_bind; try apply _; [apply hoare_getObj; try apply _; exact I|]. intros o.
  apply hoare_forM_; try apply _. intros k. apply reads_kept_defineReactive_.
Qed.

Lemma reads_kept_observeArray_ items :
  hoare any_exn always reads_kept (observeArray_ observe_rec items).
Proof.
  unfold observeArray_. apply hoare_forM_; try apply _. intros item.
  apply hoare_bind; try apply _; [apply Hrec|]. intros _. apply hoare_skip; apply _.
Qed.

Lemma reads_kept_new_Observer_ r :
  hoare any_exn always reads_kept (new_Observer_ observe_rec r).
Proof.
  unfold new_Observer_, newDep.
  repeat hoare_step ltac:(first
    [ apply reads_kept_ob | apply reads_kept_observeArray_ | apply reads_kept_walk_
    | apply hoare_getObj; [apply _ | done]
    | apply hoare_modify; intros w _; split; [done | by apply reads_kept_heap] ]).
Qed.

Lemma reads_kept_observe_ v b :
  hoare any_exn always reads_kept (observe_ observe_rec v b).
Proof.
  unfold observe_.
  repeat hoare_step ltac:(first
    [ apply reads_kept_ob | apply reads_kept_new_Observer_
    | apply hoare_getObj; [apply _ | done] ]).
Qed.
End reads_kept.

Lemma reads_kept_observe fuel v b :
  hoare any_exn always reads_kept (observe fuel v b).
Proof.
  revert v b. induction fuel as [|fuel IH]; intros v b; simpl.
  - apply hoare_out_of_fuel.
  - by apply reads_kept_observe_.
Qed.

Lemma read_prop_returns fuel obj key w v w' :
  read_prop fuel obj key w = Ok v w' →
  v = slot_value (heap w !! obj ≫= lookup_slot key).
Proof.
  unfold read_prop. rewrite bind_gets.
  destruct (heap w !! obj ≫= lookup_slot key) as [[v0 c|b g s c|r]|]; simpl;
    try (by intros [= <- _]).
  unfold reactiveGetter. rewrite bind_gets. unfold mbind, M_bind.
  match goal with
  | |- match ?m with _ => _ end = _ → _ => destruct m; try done
  end.
  by intros [= <- _].
Qed.

(** X14.  Observing a value changes no value: every object that was in
    the heap is still there, and each of its properties reads as it did
    before [observe] made it reactive (a data property keeps its value,
    an accessor property its getter); where what a property reads as is
    what [obj[key]] returns. *)
Theorem observe_keeps_values (fuel : nat) (value : Value) (asRootData : bool) (w : World) :
  match observe fuel value asRootData w with
  | Ok _ w' | Thrown _ w' =>
      ∀ r o, heap w !! r = Some o →
        ∃ o', heap w' !! r = Some o'
          ∧ ∀ k, slot_value (lookup_slot k o') = slot_value (lookup_slot k o)
  | OutOfFuel => True
  end
  ∧ ∀ fuel' obj key w0 v w0',
      read_prop fuel' obj key w0 = Ok v w0' →
      v = slot_value (heap w0 !! obj ≫= lookup_slot key).
Proof.
  split; [|apply read_prop_returns].
  pose proof (reads_kept_observe fuel value asRootData w Logic.I) as H.
  destruct (observe fuel value asRootData w); [apply H | apply H | done].
Qed.

(** ** [Vue.set] *)

Lemma assoc_not_in {A} k (l : list (Key * A)) : k ∉ fst <$> l → assoc k l = None.
Proof.
  induction l as [|[k' a] l IH]; [done|]. simpl.
  rewrite not_elem_of_cons. intros [Hne Hin].
  rewrite decide_False by done. by apply IH.
Qed.

Lemma key_in_false_slot e key o : key_in e key o = false → lookup_slot key o = None.
Proof.
  unfold key_in. rewrite !orb_false_iff. intros [[[Hown _] _] _].
  apply bool_decide_eq_false in Hown. by apply assoc_not_in.
Qed.

(** X15.  [set(target, key, val)] with a key that the target does not
    have, on an observed object that is neither a Vue instance nor root
    data: the key becomes a reactive property that reads as [val] (and
    [val] is observed on the way); until then the Dep of the object is not
    notified, and then it is, once, and [val] is handed back. *)
Theorem set_adds_reactive_property
    (fuel t : nat) (key : Key) (val : Value) (o : Obj) (ob : Observer) (w : World) :
  heap w !! t = Some o →
  o_kind o ≠ KArray →
  key_in (env w) key o = false →
  o_isVue o = false →
  o_ob o = Some ob → ob_vmCount ob = 0 →
  set fuel (VRef t) key val w
  = (defineReactive fuel t key (Some val) false false;;
     Dep_notify fuel (ob_dep ob);; mret val) w
  ∧ match defineReactive fuel t key (Some val) false false w with
    | Ok _ w1 =>
        (∃ o1 r, heap w1 !! t = Some o1 ∧ lookup_slot key o1 = Some (SReactive r)
                 ∧ slot_value (lookup_slot key o1) = val)
        ∧ notifications (ob_dep ob) (new_events w w1) = 0
    | _ => True
    end.
Proof.
  intros Ho Hk Hin Hvue Hob Hcount. split.
  - unfold set, getObj, gets, mbind, M_bind. rewrite Ho.
    destruct (decide (o_kind o = KArray)); [done|].
    rewrite Hin, Hvue, Hob, Hcount. done.
  - unfold defineReactive, defineReactive_, newDep, gets, modify, getObj, mbind, M_bind.
    simpl. rewrite Ho, (key_in_false_slot _ _ _ Hin).
    set (w0 := upd_deps <[dep_uid w:=[]]> (upd_dep_uid S w)).
    pose proof (observing_observe fuel val false w0 Logic.I) as Hobs.
    destruct (observe fuel val false w0) as [childOb w1|e w1|]; [|done..].
    destruct Hobs as [_ Hobs]. unfold modifyObj, modify. split.
    + destruct (obs_heap _ _ Hobs t o Ho) as (o1 & Ho1 & _).
      eexists _, _. simpl. rewrite lookup_alter_eq, Ho1. simpl.
      split; [reflexivity|]. unfold lookup_slot. simpl.
      rewrite assoc_set_slot_eq. done.
    + destruct (obs_trace _ _ Hobs) as (evs & Ht & Hevs).
      rewrite (new_events_app w _ evs); [by apply notifications_observe|].
      simpl. exact Ht.
Qed.

(** ** An assignment, then a read *)

Lemma strict_eq_true a b : strict_eq a b = true → a = b.
Proof.
  destruct a, b; simpl; intros H; try done; by apply bool_decide_eq_true in H.
Qed.







(** ** [getData] and [$watch] *)

(** X17.  [getData] switches dependency collection off while the [data]
    function runs, and back: also when it is called while a watcher
    collects, a [data] function that returns leaves the state exactly as
    it was (no Dep is read for that watcher); one that throws has its
    error handed to [handleError] with the info [data()], and [getData]
    returns a fresh empty object instead; it never throws. *)
Theorem getData_collects_nothing (fuel : nat) (data : GProg) (vm : nat) (w : World) :
  (∃ v, getData fuel data vm w = Ok v w)
  ∨ (∃ e w', getData fuel data vm w = Ok (VRef (heap_uid w)) w'
       ∧ trace w' = EHandleError e (Some vm) "data()" :: trace w
       ∧ (∃ o, heap w' = <[heap_uid w := o]> (heap w) ∧ o_props o = [] ∧ o_ob o = None)
       ∧ heap_uid w' = S (heap_uid w)
       ∧ targetStack w' = targetStack w
       ∧ watchers w' = watchers w ∧ deps w' = deps w).
Proof.
  assert (Dep_target (upd_targetStack (cons None) w) = None) as Ht by done.
  destruct (exec_getter_no_target fuel data _ Ht) as [[v Hv] | [e He]].
  - left. exists v.
    unfold getData, pushTarget, try_finally, try_catch, popTarget, modify, mbind, M_bind.
    simpl. rewrite Hv. simpl. by destruct w.
  - right. exists e. eexists.
    unfold getData, pushTarget, try_finally, try_catch, popTarget, modify, mbind, M_bind.
    simpl. rewrite He. simpl.
    split; [reflexivity|]. simpl. split_and!; try done. by eexists.
Qed.



(** ** Injections *)

Lemma assoc_assign_eq {A} k (a : A) l : assoc k (assign k a l) = Some a.
Proof.
  induction l as [|[k' a'] l IH]; simpl.
  - by rewrite decide_True.
  - destruct (decide (k' = k)); simpl; [by rewrite decide_True|].
    by rewrite decide_False.
Qed.

Lemma assoc_assign_ne {A} k k' (a : A) l : k ≠ k' → assoc k' (assign k a l) = assoc k' l.
Proof.
  intros Hne. induction l as [|[k0 a0] l IH]; simpl.
  - by rewrite decide_False.
  - destruct (decide (k0 = k)) as [-> | Hne0]; simpl.
    + by rewrite !decide_False.
    + destruct (decide (k0 = k')); [done | exact IH].
Qed.

Lemma assoc_None {A} k (l : list (Key * A)) : assoc k l = None ↔ k ∉ fst <$> l.
Proof.
  induction l as [|[k' a] l IH]; simpl.
  - split; [intros _; apply not_elem_of_nil | done].
  - rewrite not_elem_of_cons. destruct (decide (k' = k)) as [-> | Hne].
    + split; [done | intros [? _]; done].
    + rewrite IH. split; [intros ?; split; [congruence | done] | tauto].
Qed.

Lemma assoc_elem_of {A} k (a : A) l : assoc k l = Some a → (k, a) ∈ l.
Proof.
  induction l as [|[k' a'] l IH]; simpl; [done|].
  destruct (decide (k' = k)) as [-> | Hne].
  - intros [= ->]. by left.
  - intros H. right. by apply IH.
Qed.

Lemma elem_of_assoc {A} k (a : A) l : NoDup (fst <$> l) → (k, a) ∈ l → assoc k l = Some a.
Proof.
  induction l as [|[k' a'] l IH]; simpl; intros Hnd Hin.
  - by apply elem_of_nil in Hin.
  - apply NoDup_cons in Hnd as [Hfresh Hnd].
    apply elem_of_cons in Hin as [[= -> ->] | Hin].
    + by rewrite decide_True.
    + rewrite decide_False; [by apply IH|]. intros ->. apply Hfresh.
      apply list_elem_of_fmap. by exists (k, a).
Qed.

Lemma fst_assign {A} k (a : A) l :
  fst <$> assign k a l = if decide (k ∈ fst <$> l) then fst <$> l else (fst <$> l) ++ [k].
Proof.
  induction l as [|[k' a'] l IH].
  - destruct (decide (k ∈ fst <$> ([] : list (Key * A)))) as [Hin | _]; [|done].
    by apply elem_of_nil in Hin.
  - change (assign k a ((k', a') :: l))
      with (if decide (k' = k) then (k, a) :: l else (k', a') :: assign k a l).
    change (fst <$> (k', a') :: l) with (k' :: (fst <$> l)).
    destruct (decide (k' = k)) as [-> | Hne].
    + destruct (decide (k ∈ k :: (fst <$> l))) as [_ | Hout]; [done|].
      destruct Hout. by left.
    + change (fst <$> (k', a') :: assign k a l) with (k' :: (fst <$> assign k a l)).
      rewrite IH. destruct (decide (k ∈ fst <$> l)) as [Hin | Hin].
      * destruct (decide (k ∈ k' :: (fst <$> l))) as [_ | Hout]; [done|].
        destruct Hout. by right.
      * destruct (decide (k ∈ k' :: (fst <$> l))) as [Hin' | _]; [|done].
        apply elem_of_cons in Hin' as [-> | ?]; done.
Qed.

Lemma NoDup_assign {A} k (a : A) l : NoDup (fst <$> l) → NoDup (fst <$> assign k a l).
Proof.
  intros Hnd. rewrite fst_assign. destruct (decide (k ∈ fst <$> l)); [done|].
  apply NoDup_app. split_and!; [done | | apply NoDup_singleton].
  intros x Hx Hx'. apply list_elem_of_singleton in Hx' as ->. done.
Qed.

(** One turn of the loop, for an injection without factory. *)
Lemma resolveInject_key_pure fuel vm key inj acc w :
  (∀ f, inj_default inj ≠ Some (DefaultFactory f)) →
  ∃ res warns,
    resolveInject_key fuel vm key inj acc w = Ok (res, warns) w
    ∧ (NoDup (fst <$> fst acc) → NoDup (fst <$> res))
    ∧ (∀ k, k ≠ key ∨ key = "__ob__" → assoc k res = assoc k (fst acc))
    ∧ (key ≠ "__ob__" →
       assoc key res = match injected vm inj with
                       | Some v => Some v
                       | None => assoc key (fst acc)
                       end)
    ∧ (∀ x, x ∈ warns ↔
         x ∈ snd acc
         ∨ (x = InjectionNotFound key ∧ key ≠ "__ob__"
            ∧ lookup_provided vm (inj_from inj) = None ∧ inj_default inj = None
            ∧ production (env w) = false)).
Proof.
  intros Hnf. unfold resolveInject_key, injected.
  destruct (decide (key = "__ob__")) as [Hob | Hob].
  { exists (fst acc), (snd acc). destruct acc. split_and!; try done.
    intros x. split; [tauto | intros [? | (_ & ? & _)]; done]. }
  destruct (lookup_provided vm (inj_from inj)) as [v|] eqn:Hfound.
  { exists (assign key v (fst acc)), (snd acc). split_and!; try done.
    - apply NoDup_assign.
    - intros k [Hk | ?]; [|done]. by apply assoc_assign_ne.
    - intros _. apply assoc_assign_eq.
    - intros x. split; [tauto | intros [? | (_ & _ & ? & _)]; done]. }
  destruct (inj_default inj) as [[d|f]|] eqn:Hdef.
  - exists (assign key d (fst acc)), (snd acc). split_and!; try done.
    + apply NoDup_assign.
    + intros k [Hk | ?]; [|done]. by apply assoc_assign_ne.
    + intros _. apply assoc_assign_eq.
    + intros x. split; [tauto | intros [? | (_ & _ & _ & ? & _)]; done].
  - by destruct (Hnf f).
  - unfold gets, mbind, M_bind. simpl.
    destruct (production (env w)) eqn:Hprod; simpl.
    + exists (fst acc), (snd acc). destruct acc. split_and!; try done.
      intros x. split; [tauto | intros [? | (_ & _ & _ & _ & ?)]; done].
    + exists (fst acc), (snd acc ++ [InjectionNotFound key]). split_and!; try done.
      intros x. rewrite elem_of_app, list_elem_of_singleton. split.
      * intros [? | ->]; [by left | right; done].
      * intros [? | (-> & _)]; [by left | by right].
Qed.

Lemma resolveInject_loop_pure fuel vm keys acc w :
  no_factory keys → NoDup (fst <$> keys) →
  ∃ res warns,
    resolveInject_loop fuel vm keys acc w = Ok (res, warns) w
    ∧ (NoDup (fst <$> fst acc) → NoDup (fst <$> res))
    ∧ (∀ k, k ∉ fst <$> keys ∨ k = "__ob__" → assoc k res = assoc k (fst acc))
    ∧ (∀ key inj, (key, inj) ∈ keys → key ≠ "__ob__" →
         assoc key res = match injected vm inj with
                         | Some v => Some v
                         | None => assoc key (fst acc)
                         end)
    ∧ (∀ x, x ∈ warns ↔
         x ∈ snd acc
         ∨ ∃ key inj, x = InjectionNotFound key ∧ (key, inj) ∈ keys ∧ key ≠ "__ob__"
             ∧ lookup_provided vm (inj_from inj) = None ∧ inj_default inj = None
             ∧ production (env w) = false).
Proof.
  revert acc. induction keys as [|[key inj] keys IH]; intros acc Hnf Hnd.
  { exists (fst acc), (snd acc). destruct acc. simpl. split_and!; try done.
    - intros key inj Hin. by apply elem_of_nil in Hin.
    - intros x. split; [tauto|]. intros [? | (key & inj & _ & Hin & _)]; [done|].
      by apply elem_of_nil in Hin. }
  simpl in Hnd. apply NoDup_cons in Hnd as [Hfresh Hnd].
  destruct (resolveInject_key_pure fuel vm key inj acc w)
    as (r1 & w1 & Hstep & Hnd1 & Ho1 & Hk1 & Hw1).
  { intros f. apply (Hnf key inj f). by left. }
  destruct (IH (r1, w1)) as (res & warns & Hloop & Hndr & Ho & Hk & Hw); [|done|].
  { intros k i f Hin. apply (Hnf k i f). by right. }
  exists res, warns. simpl. unfold mbind, M_bind. rewrite Hstep.
  split; [exact Hloop|]. simpl in *. split_and!.
  - auto.
  - intros k Hcase. rewrite Ho.
    + apply Ho1. destruct (decide (k = key)) as [-> | Hne]; [|by left].
      destruct Hcase as [Hk' | ->]; [|by right]. destruct Hk'. by left.
    + destruct Hcase as [Hk' | ->]; [|by right]. left. intros Hin. apply Hk'. by right.
  - intros key' inj' Hin Hob. apply elem_of_cons in Hin as [[= -> ->] | Hin].
    + rewrite Ho by (by left). by apply Hk1.
    + rewrite (Hk key' inj' Hin Hob). destruct (injected vm inj'); [done|].
      apply Ho1. left. intros ->. apply Hfresh.
      apply list_elem_of_fmap. by exists (key, inj').
  - intros x. rewrite Hw, Hw1. split.
    + intros [[? | (-> & ? & ? & ? & ?)] | (k & i & -> & Hin & ?)].
      * by left.
      * right. exists key, inj. split_and!; try done. by left.
      * right. exists k, i. split_and!; try tauto. by right.
    + intros [? | (k & i & -> & Hin & Hrest)]; [by left; left|].
      apply elem_of_cons in Hin as [[= -> ->] | Hin].
      * left. right. tauto.
      * right. exists k, i. tauto.
Qed.

(** X19.  [resolveInject], for injections whose defaults are values: it
    changes nothing and returns, for every key (but [__ob__]), the value
    that the nearest component (from the instance up its parents)
    provides under [from]; failing that the default; failing that
    nothing, with the warning [Injection "key" not found] in a
    development build and none in production. *)
Theorem resolveInject_nearest_provider
    (fuel : nat) (keys : list (Key * Injection)) (vm : Component) (w : World) :
  no_factory keys → NoDup (fst <$> keys) →
  ∃ result warns,
    resolveInject fuel (Some keys) vm w = Ok (Some result, warns) w
    ∧ (∀ key inj, (key, inj) ∈ keys → key ≠ "__ob__" →
         assoc key result = injected vm inj)
    ∧ (∀ k, k ∉ fst <$> keys ∨ k = "__ob__" → assoc k result = None)
    ∧ (∀ key, InjectionNotFound key ∈ warns ↔
         ∃ inj, (key, inj) ∈ keys ∧ key ≠ "__ob__"
           ∧ lookup_provided vm (inj_from inj) = None ∧ inj_default inj = None
           ∧ production (env w) = false).
Proof.
  intros Hnf Hnd.
  destruct (resolveInject_loop_pure fuel vm keys ([], []) w Hnf Hnd)
    as (res & warns & Hloop & _ & Ho & Hk & Hw).
  exists res, warns. unfold resolveInject, mbind, M_bind. rewrite Hloop. simpl.
  split; [done|]. split_and!.
  - intros key inj Hin Hob. rewrite (Hk key inj Hin Hob). simpl.
    by destruct (injected vm inj).
  - intros k Hcase. by rewrite Ho.
  - intros key. rewrite Hw. simpl. split.
    + intros [Hin | (k & i & [= <-] & ?)]; [by apply elem_of_nil in Hin|].
      by exists i.
    + intros (inj & ?). right. by exists key, inj.
Qed.
(** ** initInjections *)

(** While [shouldObserve] is off, [observe] attaches nothing. *)
Lemma observe_off fuel v w :
  shouldObserve w = false →
  (∀ r, v = VRef r → is_Some (heap w !! r)) →
  ∃ res, observe (S fuel) v false w = Ok res w.
Proof.
  intros Hso Hv.
  change (observe (S fuel) v false w) with (observe_ (observe fuel) v false w).
  destruct v as [| | | | | | r]; try by eexists.
  destruct (Hv r eq_refl) as [o Ho].
  unfold observe_, getObj, gets, mbind, M_bind. rewrite Ho.
  destruct (o_isVNode o); [by eexists|]. simpl.
  destruct (o_ob o); simpl; [by eexists|].
  rewrite Hso. simpl. by eexists.
Qed.

(** One [defineReactive (vm, key, value)] of [initInjections]. *)
Lemma defineReactive_off fuel this key v cs w o :
  shouldObserve w = false → heap w !! this = Some o → lookup_slot key o = None →
  (∀ r, v = VRef r → is_Some (heap w !! r)) →
  ∃ r w',
    defineReactive (S fuel) this key (Some v) cs false w = Ok tt w'
    ∧ heap w' = <[this := upd_o_props (set_slot key (SReactive r)) o]> (heap w)
    ∧ r_val r = v ∧ r_getter r = false ∧ r_customSetter r = cs
    ∧ shouldObserve w' = false ∧ env w' = env w.
Proof.
  intros Hso Ho Hfresh Hv.
  unfold defineReactive, defineReactive_, newDep, getObj, gets, modify, mbind, M_bind.
  unfold mret, M_ret. cbv beta iota.
  change (heap (upd_deps <[dep_uid w:=[]]> (upd_dep_uid S w))) with (heap w).
  rewrite Ho. cbv beta iota. rewrite Hfresh.
  match goal with |- context [observe (S fuel) v false ?w1] =>
    destruct (observe_off fuel v w1) as [res Hres]; [done | done | rewrite Hres]
  end.
  unfold modifyObj, modify.
  exists {| r_dep := dep_uid w; r_val := v; r_childOb := res; r_getter := false;
            r_setter := false; r_backing := VUndef; r_shallow := false;
            r_customSetter := cs |}.
  eexists. split; [reflexivity|]. simpl. split_and!; try done.
  apply map_eq. intros i. destruct (decide (i = this)) as [-> | Hne].
  - by rewrite lookup_alter_eq, lookup_insert_eq, Ho.
  - by rewrite lookup_alter_ne, lookup_insert_ne.
Qed.

Lemma initInjections_loop fuel this cs l : ∀ w o,
  shouldObserve w = false → heap w !! this = Some o →
  NoDup (fst <$> l) →
  (∀ k, k ∈ fst <$> l → lookup_slot k o = None) →
  (∀ k r, (k, VRef r) ∈ l → is_Some (heap w !! r)) →
  ∃ w' o',
    forM_ l (λ kv, defineReactive (S fuel) this (fst kv) (Some (snd kv)) cs false) w
      = Ok tt w'
    ∧ shouldObserve w' = false ∧ env w' = env w
    ∧ (∀ r, r ≠ this → heap w' !! r = heap w !! r)
    ∧ heap w' !! this = Some o' ∧ o_ob o' = o_ob o
    ∧ (∀ k v, (k, v) ∈ l →
         ∃ r, lookup_slot k o' = Some (SReactive r) ∧ r_val r = v
              ∧ r_getter r = false ∧ r_customSetter r = cs)
    ∧ (∀ k, k ∉ fst <$> l → lookup_slot k o' = lookup_slot k o).
Proof.
  induction l as [|[k v] l IH]; intros w o Hso Ho Hnd Hfresh Hrefs.
  { exists w, o. split_and!; try done. intros k v Hin. by apply elem_of_nil in Hin. }
  simpl in Hnd. apply NoDup_cons in Hnd as [Hk Hnd].
  destruct (defineReactive_off fuel this k v cs w o Hso Ho) as (r & w1 & Hdef & Hh1 & Hr).
  { apply Hfresh. by left. }
  { intros x ->. apply (Hrefs k x). by left. }
  destruct Hr as (Hval & Hget & Hcs & Hso1 & Henv1).
  destruct (IH w1 (upd_o_props (set_slot k (SReactive r)) o) Hso1)
    as (w' & o' & Hloop & Hso' & Henv' & Hothers & Ho' & Hob & Hin & Hout); [| done | | |].
  { by rewrite Hh1, lookup_insert_eq. }
  { intros k' Hk'. unfold lookup_slot. simpl. rewrite assoc_set_slot_ne.
    - apply Hfresh. by right.
    - by intros ->. }
  { intros k' x Hk'. rewrite Hh1. destruct (decide (x = this)) as [-> | Hne].
    - by rewrite lookup_insert_eq.
    - rewrite lookup_insert_ne by done. apply (Hrefs k' x). by right. }
  exists w', o'. split_and!; try done.
  - simpl. unfold mbind, M_bind. simpl in Hdef. by rewrite Hdef.
  - congruence.
  - intros x Hx. rewrite (Hothers x Hx), Hh1. by rewrite lookup_insert_ne.
  - intros k' v' Hkv. apply elem_of_cons in Hkv as [[= -> ->] | Hkv]; [|by apply Hin].
    exists r. rewrite (Hout k Hk). unfold lookup_slot. simpl.
    by rewrite assoc_set_slot_eq.
  - intros k' Hk'. apply not_elem_of_cons in Hk' as [Hne Hk'].
    rewrite (Hout k' Hk'). unfold lookup_slot. simpl. by rewrite assoc_set_slot_ne.
Qed.

(** X20.  [initInjections] defines every injection found as a reactive
    property of the instance holding the injected value, under a setter
    that warns in a development build, without observing it: no other
    object of the heap changes (so an injected object gets no Observer),
    and [shouldObserve] is on afterwards, whatever it was before. *)
Theorem initInjections_defines_without_observing
    (fuel : nat) (keys : list (Key * Injection)) (vm : Component) (this : nat)
    (o : Obj) (w : World) :
  no_factory keys → NoDup (fst <$> keys) →
  heap w !! this = Some o →
  (∀ k, k ∈ fst <$> keys → lookup_slot k o = None) →
  (∀ key inj r, (key, inj) ∈ keys → injected vm inj = Some (VRef r) →
     is_Some (heap w !! r)) →
  ∃ warns w' o',
    initInjections (S fuel) (Some keys) vm this w = Ok warns w'
    ∧ shouldObserve w' = true
    ∧ (∀ r, r ≠ this → heap w' !! r = heap w !! r)
    ∧ heap w' !! this = Some o' ∧ o_ob o' = o_ob o
    ∧ (∀ key inj, (key, inj) ∈ keys → key ≠ "__ob__" →
         match injected vm inj with
         | Some v =>
             ∃ r, lookup_slot key o' = Some (SReactive r) ∧ r_val r = v
                  ∧ r_getter r = false
                  ∧ r_customSetter r = negb (production (env w))
         | None => lookup_slot key o' = None
         end)
    ∧ (∀ k, k ∉ fst <$> keys → lookup_slot k o' = lookup_slot k o).
Proof.
  intros Hnf Hnd Ho Hfresh Hrefs.
  destruct (resolveInject_loop_pure (S fuel) vm keys ([], []) w Hnf Hnd)
    as (res & warns & Hloop & Hndr & Hother & Hkey & _).
  simpl in Hndr, Hother, Hkey. specialize (Hndr (NoDup_nil_2)).
  assert (∀ key inj, (key, inj) ∈ keys → key ≠ "__ob__" →
            assoc key res = injected vm inj) as Hres.
  { intros key inj Hin Hob. rewrite (Hkey key inj Hin Hob). by destruct (injected vm inj). }
  assert (∀ k v, (k, v) ∈ res →
            ∃ inj, (k, inj) ∈ keys ∧ k ≠ "__ob__" ∧ injected vm inj = Some v) as Hback.
  { intros k v Hin. apply (elem_of_assoc _ _ _ Hndr) in Hin.
    destruct (decide (k ∈ fst <$> keys)) as [Hk | Hk].
    - destruct (decide (k = "__ob__")) as [-> | Hob].
      + rewrite Hother in Hin by (by right). done.
      + apply list_elem_of_fmap in Hk as ([k' inj] & -> & Hk). simpl in *.
        exists inj. split_and!; try done. by rewrite <- (Hres _ _ Hk Hob).
    - rewrite Hother in Hin by (by left). done. }
  set (w1 := upd_shouldObserve (λ _, false) w).
  destruct (initInjections_loop fuel this (negb (production (env w))) res w1 o)
    as (w2 & o' & Hdefs & _ & _ & Hothers & Ho' & Hob & Hin & Hout); try done.
  { intros k Hk. apply list_elem_of_fmap in Hk as ([k' v] & -> & Hk).
    destruct (Hback _ _ Hk) as (inj & Hinj & _). apply Hfresh.
    apply list_elem_of_fmap. by exists (k', inj). }
  { intros k r Hk. destruct (Hback _ _ Hk) as (inj & Hinj & _ & Hv).
    exact (Hrefs k inj r Hinj Hv). }
  exists warns, (upd_shouldObserve (λ _, true) w2), o'.
  split_and!; try done.
  - unfold initInjections, resolveInject, toggleObserving, gets, modify, mbind, M_bind.
    rewrite Hloop. simpl. fold w1.
    unfold mbind, M_bind in Hdefs. simpl in Hdefs. by rewrite Hdefs.
  - intros key inj Hk Hob'. specialize (Hres key inj Hk Hob').
    destruct (injected vm inj) as [v|].
    + apply assoc_elem_of in Hres. exact (Hin key v Hres).
    + rewrite Hout; [apply Hfresh; apply list_elem_of_fmap; by exists (key, inj)|].
      by apply assoc_None.
  - intros k Hk. apply Hout. apply assoc_None. apply Hother. by left.
Qed.
(** ** A watcher that reads a computed property *)

(** [dep.depend()] while [t] collects. *)
Lemma Dep_depend_collects t d w T :
  Dep_target w = Some t → watchers w !! t = Some T →
  ∃ w' T',
    Dep_depend d w = Ok tt w'
    ∧ targetStack w' = targetStack w ∧ heap w' = heap w ∧ vms w' = vms w
    ∧ (∀ i, i ≠ t → watchers w' !! i = watchers w !! i)
    ∧ watchers w' !! t = Some T'
    ∧ (∀ x, x ∈ w_newDepIds T' ↔ x ∈ w_newDepIds T ∨ x = d).
Proof.
  intros Ht HT. unfold Dep_depend, gets, mbind, M_bind. rewrite Ht.
  unfold emit, modify, Watcher_addDep, getW, mbind, M_bind. simpl. rewrite HT.
  destruct (decide (d ∈ w_newDepIds T)) as [Hin | Hin]; simpl.
  { exists (upd_trace (cons (EDepend d t)) w), T. split_and!; try done.
    intros x. split; [auto | intros [? | ->]; done]. }
  set (T' := upd_w_newDeps (λ l, l ++ [d]) (upd_w_newDepIds (λ s, {[d]} ∪ s) T)).
  assert (∀ x, x ∈ w_newDepIds T' ↔ x ∈ w_newDepIds T ∨ x = d) as Hids.
  { intros x. simpl. rewrite elem_of_union, elem_of_singleton. tauto. }
  destruct (decide (d ∈ w_depIds T)); simpl.
  - eexists _, T'. split; [reflexivity|]. simpl. split_and!; try done.
    + intros i Hi. by rewrite !lookup_alter_ne.
    + by rewrite !lookup_alter_eq, HT.
  - eexists _, T'. split; [reflexivity|]. simpl. split_and!; try done.
    + intros i Hi. by rewrite !lookup_alter_ne.
    + by rewrite !lookup_alter_eq, HT.
Qed.

Lemma depend_loop t l : ∀ w T,
  Dep_target w = Some t → watchers w !! t = Some T →
  ∃ w' T',
    forM_ l Dep_depend w = Ok tt w'
    ∧ targetStack w' = targetStack w ∧ heap w' = heap w ∧ vms w' = vms w
    ∧ (∀ i, i ≠ t → watchers w' !! i = watchers w !! i)
    ∧ watchers w' !! t = Some T'
    ∧ (∀ x, x ∈ w_newDepIds T' ↔ x ∈ w_newDepIds T ∨ x ∈ l).
Proof.
  induction l as [|d l IH]; intros w T Ht HT.
  { exists w, T. split_and!; try done. intros x. split; [auto|].
    intros [? | Hx]; [done | by apply elem_of_nil in Hx]. }
  destruct (Dep_depend_collects t d w T Ht HT)
    as (w1 & T1 & Hd & Hst1 & Hh1 & Hv1 & Ho1 & HT1 & Hids1).
  destruct (IH w1 T1) as (w' & T' & Hl & Hst & Hh & Hv & Ho & HT' & Hids); [|done|].
  { unfold Dep_target in *. by rewrite Hst1. }
  exists w', T'. split_and!; try congruence.
  - simpl. unfold mbind, M_bind. by rewrite Hd.
  - intros i Hi. by rewrite Ho, Ho1.
  - intros x. rewrite Hids, Hids1, elem_of_cons. tauto.
Qed.

Lemma bind_inv {A B} (m : M A) (k : A → M B) w b w' :
  (m ≫= k) w = Ok b w' → ∃ a w1, m w = Ok a w1 ∧ k a w1 = Ok b w'.
Proof.
  unfold mbind, M_bind. destruct (m w) as [a w1| |]; [|done..]. by exists a, w1.
Qed.

(** What [computedGetter] does once the value is up to date, when a
    watcher [t] collects. *)
Lemma computedGetter_depend c t C T w :
  c ≠ t → watchers w !! c = Some C → Dep_target w = Some t → watchers w !! t = Some T →
  ∃ w' T',
    (t' ← gets Dep_target;
     when (bool_decide (is_Some t')) (Watcher_depend c);;
     W ← getW c;
     mret (w_value W)) w = Ok (w_value C) w'
    ∧ Dep_target w' = Some t ∧ heap w' = heap w
    ∧ watchers w' !! c = Some C ∧ watchers w' !! t = Some T'
    ∧ (∀ x, x ∈ w_newDepIds T' ↔ x ∈ w_newDepIds T ∨ x ∈ w_deps C).
Proof.
  intros Hne HC Ht HT.
  destruct (depend_loop t (rev (w_deps C)) w T Ht HT)
    as (w' & T' & Hl & Hst & Hh & _ & Ho & HT' & Hids).
  exists w', T'. split_and!; try done.
  - unfold gets, Watcher_depend, getW, mbind, M_bind. rewrite Ht. simpl.
    unfold mbind, M_bind. rewrite HC, Hl. by rewrite Ho, HC.
  - unfold Dep_target in *. by rewrite Hst.
  - by rewrite Ho.
  - intros x. rewrite Hids, elem_of_rev. done.
Qed.

(** X21.  A watcher whose getter reads a computed property comes to depend
    on what the computed property depends on: when [computedGetter]
    returns while the watcher [t] collects, the value is that of the lazy
    watcher, which is no longer dirty, and the Deps of the lazy watcher
    are added to the new generation of [t]; with a value already up to
    date, the call returns it. *)
Theorem computed_read_makes_reader_depend
    (fuel vm c t : nat) (key : Key) (v : Vm) (C T : Watcher) (w : World) :
  vms w !! vm = Some v →
  assoc key (vm_computedWatchers v) = Some c →
  watchers w !! c = Some C →
  Dep_target w = Some t → watchers w !! t = Some T → c ≠ t →
  (w_dirty C = false → ∃ w', computedGetter fuel vm key w = Ok (w_value C) w')
  ∧ ∀ val w', computedGetter fuel vm key w = Ok val w' →
      ∃ C' T',
        watchers w' !! c = Some C' ∧ watchers w' !! t = Some T'
        ∧ w_value C' = val ∧ w_dirty C' = false
        ∧ Dep_target w' = Some t
        ∧ (∀ d, d ∈ w_newDepIds T' ↔ d ∈ w_newDepIds T ∨ d ∈ w_deps C').
Proof.
  intros Hvm Hkey HC Ht HT Hne.
  assert (computedGetter fuel vm key w
          = (when (w_dirty C) (Watcher_evaluate fuel c);;
             t' ← gets Dep_target;
             when (bool_decide (is_Some t')) (Watcher_depend c);;
             W ← getW c;
             mret (w_value W)) w) as ->.
  { unfold computedGetter, getVm, mbind at 1 2, M_bind at 1 2. rewrite Hvm, Hkey.
    unfold getW at 1, mbind at 1, M_bind at 1. by rewrite HC. }
  destruct (w_dirty C) eqn:Hdirty.
  - split; [done|]. intros val w' Hrun.
    apply bind_inv in Hrun as ([] & w2 & Hev & Hrun).
    change (Watcher_evaluate fuel c w = Ok tt w2) in Hev.
    apply bind_inv in Hev as (x & w1 & Hget & Hev).
    pose proof (Watcher_get_post fuel c C w HC) as Hpost. rewrite Hget in Hpost.
    destruct Hpost as [_ _ _ _ _ _ Hst _ _ _ Hothers (evs & C1 & _ & _ & HC1 & _)].
    injection Hev as <-.
    set (C2 := upd_w_dirty (λ _, false) (upd_w_value (λ _, x) C1)).
    match type of Hrun with _ ?w0 = _ => set (w2 := w0) in * end.
    assert (watchers w2 !! c = Some C2) as HC2
      by (unfold w2; simpl; by rewrite !lookup_alter_eq, HC1).
    assert (watchers w2 !! t = Some T) as HT2.
    { unfold w2. simpl. rewrite !lookup_alter_ne by done. rewrite Hothers; done. }
    assert (Dep_target w2 = Some t) as Ht2
      by (unfold Dep_target in *; unfold w2; simpl; by rewrite Hst).
    destruct (computedGetter_depend c t C2 T w2 Hne HC2 Ht2 HT2)
      as (w3 & T3 & Hrest & Ht3 & _ & HC3 & HT3 & Hids).
    rewrite Hrest in Hrun. injection Hrun as <- <-. by exists C2, T3.
  - destruct (computedGetter_depend c t C T w Hne HC Ht HT)
      as (w3 & T3 & Hrest & Ht3 & _ & HC3 & HT3 & Hids).
    assert (∀ k : () → M Value,
              (when false (Watcher_evaluate fuel c) ≫= k) w = k tt w) as -> by done.
    rewrite Hrest. split; [by eexists|].
    intros val w' [= <- <-]. by exists C, T3.
Qed.
(** ** From an assignment to the queue *)

(** [update()] between two flushes: it returns; a lazy watcher is marked
    dirty, another one is in the queue afterwards. *)
Lemma update_in_turn fuel i X w :
  in_turn w → watchers w !! i = Some X →
  ∃ w', Watcher_update fuel i w = Ok tt w'
    ∧ in_turn w' ∧ turn_step w w'
    ∧ trace w' = EUpdate i :: trace w
    ∧ (∀ j Y, watchers w !! j = Some Y →
         ∃ Y', watchers w' !! j = Some Y'
           ∧ (w_dirty Y = true → w_dirty Y' = true)
           ∧ (j = i → w_lazy X = true → w_dirty Y' = true))
    ∧ (w_lazy X = false → i ∈ queue (sched w')).
Proof.
  intros Hw HX. pose proof Hw as (Ha & Hns & Hf & Hnd & Hhas & Hwt).
  pose proof (in_turn_update (Watcher_run fuel) (flushSchedulerQueue fuel) i w Hw) as Hpost.
  unfold Watcher_update in *.
  revert Hpost.
  unfold Watcher_update_, emit, modify, getW, mbind, M_bind. simpl. rewrite HX.
  destruct (w_lazy X) eqn:Hlazy.
  { unfold modifyW, modify. intros [Hw' Hstep]. eexists. split; [reflexivity|].
    split_and!; try done. intros j Y HY. simpl.
    destruct (decide (j = i)) as [-> | Hne].
    - rewrite lookup_alter_eq, HY. eexists. split; [reflexivity|]. done.
    - rewrite lookup_alter_ne by done. exists Y. split_and!; done. }
  rewrite (Hns i X HX Hlazy).
  unfold queueWatcher_, gets, modifySched, modify, skip, mbind, M_bind. simpl.
  destruct (decide (i ∈ has (sched w))) as [Hin | Hin]; simpl.
  { intros [Hw' Hstep]. eexists. split; [reflexivity|]. split_and!; try done.
    - intros j Y HY. exists Y. split_and!; [done..|]. intros _ Hl. congruence.
    - intros _. by apply Hhas. }
  rewrite Hf. simpl.
  assert (negb (production (env w)) && negb (config_async (env w)) = false) as Hasync.
  { destruct Ha as [-> | ->]; [done | by rewrite andb_false_r]. }
  destruct (waiting (sched w)) eqn:Hw'; simpl.
  - intros [Hw2 Hstep]. eexists. split; [reflexivity|]. split_and!; try done.
    + intros j Y HY. exists Y. split_and!; [done..|]. intros _ Hl. congruence.
    + intros _. simpl. rewrite elem_of_app, list_elem_of_singleton. by right.
  - rewrite Hasync. unfold nextTick, modifyTick, modify, gets, mbind, M_bind. simpl.
    destruct Hwt as (Hq & Hcb & Hp & Ht). rewrite Hp. simpl.
    intros [Hw2 Hstep]. eexists. split; [reflexivity|]. split_and!; try done.
    + intros j Y HY. exists Y. split_and!; [done..|]. intros _ Hl. congruence.
    + intros _. simpl. rewrite elem_of_app, list_elem_of_singleton. by right.
Qed.

Lemma notify_loop fuel l : ∀ w,
  in_turn w → (∀ y, y ∈ l → is_Some (watchers w !! y)) →
  ∃ w', forM_ l (Watcher_update fuel) w = Ok tt w'
    ∧ in_turn w' ∧ turn_step w w'
    ∧ trace w' = (EUpdate <$> rev l) ++ trace w
    ∧ (∀ j Y, watchers w !! j = Some Y →
         ∃ Y', watchers w' !! j = Some Y'
           ∧ (w_dirty Y = true → w_dirty Y' = true)
           ∧ (j ∈ l → w_lazy Y = true → w_dirty Y' = true))
    ∧ (∀ x X, x ∈ l → watchers w !! x = Some X → w_lazy X = false →
         x ∈ queue (sched w')).
Proof.
  induction l as [|i l IH]; intros w Hw Hex.
  { exists w. split_and!; try done.
    - intros j Y HY. exists Y. split_and!; try done. intros Hj. by apply elem_of_nil in Hj.
    - intros x X Hx. by apply elem_of_nil in Hx. }
  destruct (Hex i) as [X HX]; [by left|].
  destruct (update_in_turn fuel i X w Hw HX)
    as (w1 & Hrun & Hw1 & Hstep1 & Ht1 & Hd1 & Hq1).
  destruct (IH w1 Hw1) as (w' & Hloop & Hw' & Hstep & Ht & Hd & Hq).
  { intros y Hy. destruct (Hex y) as [Y HY]; [by right|].
    destruct (Hd1 y Y HY) as (Y' & HY' & _). by exists Y'. }
  assert (∀ j Y Y1, watchers w !! j = Some Y → watchers w1 !! j = Some Y1 →
            w_lazy Y1 = w_lazy Y) as Hlazy.
  { intros j Y Y1 HY HY1.
    destruct (same_static_lookup_r w w1 j Y (ts_static _ _ Hstep1) HY)
      as (Y1' & HY1' & (_ & _ & _ & Hl & _)). congruence. }
  exists w'. split_and!; try done.
  - simpl. unfold mbind, M_bind. by rewrite Hrun.
  - by etrans.
  - rewrite Ht, Ht1. change (rev (i :: l)) with (rev l ++ [i]).
    by rewrite fmap_app, <- (assoc_L (++)).
  - intros j Y HY. destruct (Hd1 j Y HY) as (Y1 & HY1 & Hm1 & Hi1).
    destruct (Hd j Y1 HY1) as (Y' & HY' & Hm & Hl).
    exists Y'. split_and!; [done | auto |].
    intros Hj Hlz. apply elem_of_cons in Hj as [-> | Hj].
    + apply Hm, Hi1; [done|]. assert (Y = X) as -> by congruence. done.
    + apply Hl; [done|]. by rewrite (Hlazy j Y Y1 HY HY1).
  - intros x Y Hx HY Hlz. apply elem_of_cons in Hx as [-> | Hx].
    + assert (Y = X) as -> by congruence.
      apply (ts_queue _ _ Hstep). by apply Hq1.
    + destruct (Hd1 x Y HY) as (Y1 & HY1 & _).
      apply (Hq x Y1 Hx HY1). by rewrite (Hlazy x Y Y1 HY HY1).
Qed.

Lemma observe_primitive fuel v b w :
  isObject v = false → observe (S fuel) v b w = Ok None w.
Proof. by destruct v. Qed.

(** X22.  From an assignment to the queue.  Between two flushes (the
    asynchronous mode, no [sync] watcher), assigning to a reactive
    property (not a getter without setter) a value that is not an object
    and differs from the current one returns, and has called [update()]
    of every subscriber of the property's Dep: a lazy subscriber is dirty
    afterwards, any other is in the scheduler's queue, for which the
    flush is then scheduled on the next tick. *)
Theorem assignment_queues_subscribers
    (fuel obj : nat) (key : Key) (newVal : Value) (o : Obj) (r : Reactive) (w : World) :
  in_turn w →
  heap w !! obj = Some o →
  lookup_slot key o = Some (SReactive r) →
  (r_getter r = true → r_setter r = true) →
  isObject newVal = false →
  newVal ≠ slot_value (Some (SReactive r)) →
  (∀ y, y ∈ subs (r_dep r) w → is_Some (watchers w !! y)) →
  ∃ w', write_prop (S fuel) obj key newVal w = Ok tt w'
    ∧ in_turn w'
    ∧ new_events w w'
      = (EUpdate <$> rev (subs (r_dep r) w)) ++ ENotify (r_dep r)
        :: (if negb (production (env w)) && r_customSetter r
            then [EWarn (WCustomSetter obj key)] else [])
    ∧ (∀ x X, x ∈ subs (r_dep r) w → watchers w !! x = Some X →
         if w_lazy X
         then ∃ X', watchers w' !! x = Some X' ∧ w_dirty X' = true
         else x ∈ queue (sched w') ∧ flush_scheduled (tick w')).
Proof.
  intros Hturn Ho Hslot Hgs Hprim Hchg Hsubs.
  unfold write_prop, write_prop_.
  rewrite (bind_ok (getObj obj) _ w o w) by (unfold getObj; by rewrite Ho).
  rewrite Hslot. unfold reactiveSetter_.
  change (slot_value (Some (SReactive r)))
    with (if r_getter r then r_backing r else r_val r) in Hchg.
  set (value := if r_getter r then r_backing r else r_val r) in *.
  assert (strict_eq newVal value
          || negb (strict_eq newVal newVal) && negb (strict_eq value value) = false)
    as ->.
  { apply orb_false_iff. split.
    - destruct (strict_eq newVal value) eqn:Heq; [|done].
      by apply strict_eq_true in Heq.
    - destruct (negb (strict_eq newVal newVal)) eqn:H1; [|done].
      destruct (negb (strict_eq value value)) eqn:H2; [|done].
      apply negb_true_iff in H1, H2. apply strict_eq_refl_false in H1, H2. congruence. }
  rewrite bind_gets.
  assert (∃ w3,
    (when (negb (production (env w)) && r_customSetter r) (warn (WCustomSetter obj key));;
     (if r_getter r && negb (r_setter r) then skip
      else
        (if r_setter r then
           modifySlot obj key (λ r,
             {| r_dep := r_dep r; r_val := r_val r; r_childOb := r_childOb r;
                r_getter := r_getter r; r_setter := r_setter r;
                r_backing := newVal;
                r_shallow := r_shallow r; r_customSetter := r_customSetter r |})
         else
           modifySlot obj key (λ r,
             {| r_dep := r_dep r; r_val := newVal; r_childOb := r_childOb r;
                r_getter := r_getter r; r_setter := r_setter r;
                r_backing := r_backing r;
                r_shallow := r_shallow r; r_customSetter := r_customSetter r |}));;
        childOb ← (if r_shallow r then mret None else observe (S fuel) newVal false);
        modifySlot obj key (λ r,
          {| r_dep := r_dep r; r_val := r_val r; r_childOb := childOb;
             r_getter := r_getter r; r_setter := r_setter r;
             r_backing := r_backing r;
             r_shallow := r_shallow r; r_customSetter := r_customSetter r |});;
        Dep_notify_ (Watcher_run (S fuel)) (flushSchedulerQueue (S fuel)) (r_dep r))) w
    = Dep_notify (S fuel) (r_dep r) w3
    ∧ env w3 = env w ∧ watchers w3 = watchers w ∧ sched w3 = sched w
    ∧ tick w3 = tick w ∧ deps w3 = deps w
    ∧ trace w3 = (if negb (production (env w)) && r_customSetter r
                  then [EWarn (WCustomSetter obj key)] else []) ++ trace w)
    as (w3 & -> & Henv & Hws & Hsched & Htick & Hdeps & Htr3).
  { assert (r_getter r && negb (r_setter r) = false) as ->.
    { destruct (r_getter r) eqn:Hg; [|done]. by rewrite (Hgs eq_refl). }
    clear Hchg. clearbody value.
    unfold when, warn, emit, modifySlot, modifyObj, modify, skip, mbind, M_bind.
    destruct newVal; try discriminate Hprim;
    destruct (negb (production (env w)) && r_customSetter r), (r_setter r),
      (r_shallow r); simpl;
      (eexists; split; [reflexivity|]; simpl; by split_and!). }
  assert (in_turn w3) as Hturn3.
  { destruct Hturn as (Ha & Hns & Hrest). unfold in_turn.
    rewrite Henv, Hsched, Htick. split; [done|]. split; [|done].
    unfold no_sync_watcher. by rewrite Hws. }
  assert (subs (r_dep r) w3 = subs (r_dep r) w) as Hsubs3 by (unfold subs; by rewrite Hdeps).
  unfold Dep_notify, Dep_notify_. rewrite bind_emit, bind_gets.
  change (subs (r_dep r) (upd_trace (cons (ENotify (r_dep r))) w3))
    with (subs (r_dep r) w3). rewrite Hsubs3.
  destruct (notify_loop (S fuel) (subs (r_dep r) w)
              (upd_trace (cons (ENotify (r_dep r))) w3))
    as (w' & Hloop & Hturn' & Hstep & Ht & Hd & Hq); [exact Hturn3 | |].
  { intros y Hy. simpl. rewrite Hws. by apply Hsubs. }
  exists w'. split; [exact Hloop|]. split; [exact Hturn'|]. split.
  - apply new_events_app. rewrite Ht. simpl. rewrite Htr3.
    by rewrite <- (assoc_L (++)).
  - intros x X Hx HX. simpl in Hd, Hq. rewrite Hws in Hd, Hq.
    destruct (w_lazy X) eqn:Hlazy.
    + destruct (Hd x X HX) as (X' & HX' & _ & Hdirty). exists X'. auto.
    + pose proof (Hq x X Hx HX Hlazy) as Hin. split; [done|].
      destruct Hturn' as (_ & _ & _ & _ & _ & Hwt).
      destruct (waiting (sched w')); [done|]. destruct Hwt as [Hempty _].
      rewrite Hempty in Hin. by apply elem_of_nil in Hin.
Qed.
(** ** [$watch] with [immediate] *)




(** ** [observe] is deep *)

#[global] Instance settled_but_refl b : Reflexive (settled_but b).
Proof. intros w r o _ Ho Hob. by exists o. Qed.

#[global] Instance settled_but_trans b : Transitive (settled_but b).
Proof.
  intros w1 w2 w3 H12 H23 r o Hr Ho Hob.
  destruct (H12 r o Hr Ho Hob) as (o2 & Ho2 & Hp2 & Hob2).
  destruct (H23 r o2 Hr Ho2 Hob2) as (o3 & Ho3 & Hp3 & Hob3).
  exists o3. split_and!; [done | congruence | done].
Qed.

#[global] Instance settled_refl : Reflexive settled.
Proof. apply settled_but_refl. Qed.

#[global] Instance settled_trans : Transitive settled.
Proof. apply settled_but_trans. Qed.

Lemma settled_but_heap b w w' : heap w' = heap w → settled_but b w w'.
Proof. intros Hh r o _ Ho Hob. exists o. by rewrite Hh. Qed.

Lemma hoare_settled_weaken {A} b (m : M A) :
  hoare any_exn always settled m → hoare any_exn always (settled_but b) m.
Proof.
  intros Hm w Hw. specialize (Hm w Hw).
  assert (∀ w', settled w w' → settled_but b w w') as Hweak.
  { intros w' H r o _. by apply H. }
  destruct (m w) as [a w'|e w'|]; [| |done].
  - split; [done|]. apply Hweak. tauto.
  - split_and!; [done..|]. apply Hweak. tauto.
Qed.

Lemma settled_modify_props obj f :
  hoare any_exn always (settled_but (Some obj)) (modifyObj obj (upd_o_props f)).
Proof.
  intros w _. unfold modifyObj, modify. split; [done|]. intros r o Hr Ho Hob. simpl.
  rewrite lookup_alter_ne by congruence. by exists o.
Qed.

Lemma settled_modify_ob b r f :
  (∀ x, is_Some x → is_Some (f x)) →
  hoare any_exn always (settled_but b) (modifyObj r (upd_o_ob f)).
Proof.
  intros Hf w _. unfold modifyObj, modify. split; [done|]. intros r' o Hr Ho Hob. simpl.
  destruct (decide (r = r')) as [-> | Hne].
  - rewrite lookup_alter_eq, Ho. simpl. eexists. split; [reflexivity|]. simpl. auto.
  - rewrite lookup_alter_ne by done. by exists o.
Qed.

Section settled.
Context (observe_rec : Value → bool → M (option nat)).
Context (Hrec : ∀ v b, hoare any_exn always settled (observe_rec v b)).

Lemma settled_defineReactive_ obj key val cs sh :
  hoare any_exn always (settled_but (Some obj))
    (defineReactive_ observe_rec obj key val cs sh).
Proof.
  unfold defineReactive_, newDep.
  repeat hoare_step ltac:(first
    [ apply settled_modify_props
    | apply hoare_settled_weaken, Hrec
    | apply hoare_getObj; [apply _ | done]
    | apply hoare_modify; intros w _; split; [done | by apply settled_but_heap] ]).
Qed.

Lemma settled_walk_ obj :
  hoare any_exn always (settled_but (Some obj)) (walk_ observe_rec obj).
Proof.
  unfold walk_.
  repeat hoare_step ltac:(first
    [ apply settled_defineReactive_ | apply hoare_getObj; [apply _ | done] ]).
Qed.

Lemma settled_observeArray_ items :
  hoare any_exn always settled (observeArray_ observe_rec items).
Proof.
  unfold observeArray_. repeat hoare_step ltac:(apply Hrec).
Qed.

Lemma settled_new_Observer_ r :
  hoare any_exn always (settled_but (Some r)) (new_Observer_ observe_rec r).
Proof.
  unfold new_Observer_, newDep.
  repeat hoare_step ltac:(first
    [ apply settled_modify_ob; by intros
    | apply hoare_settled_weaken, settled_observeArray_
    | apply settled_walk_
    | apply hoare_getObj; [apply _ | done]
    | apply hoare_modify; intros w _; split; [done | by apply settled_but_heap] ]).
Qed.

Lemma settled_observe_ v b :
  hoare any_exn always settled (observe_ observe_rec v b).
Proof.
  destruct v; simpl; try (apply hoare_ret; apply _).
  intros w _. unfold getObj, gets, mbind, M_bind.
  destruct (heap w !! r) as [o|] eqn:Ho; [|done].
  destruct (o_isVNode o); [done|]. simpl.
  assert (∀ w1 : World, settled w w1 →
    match (when b (modifyObj r (upd_o_ob (fmap (upd_ob_vmCount S))));;
           mret (Some r)) w1 with
    | Ok _ w' => always w' ∧ settled w w'
    | Thrown e w' => any_exn e ∧ always w' ∧ settled w w'
    | OutOfFuel => True
    end) as Hcount.
  { intros w1 H1. destruct b; simpl; [|done]. split; [done|].
    etrans; [exact H1|].
    apply (settled_modify_ob None r (fmap (upd_ob_vmCount S))); [|done].
    intros x [y ->]. by eexists. }
  destruct (o_ob o) as [ob|] eqn:Hob; simpl.
  { apply Hcount. reflexivity. }
  destruct (shouldObserve w && negb (serverRendering (env w))
            && (bool_decide (o_kind o = KArray) || bool_decide (o_kind o = KPlain))
            && o_extensible o && negb (o_isVue o)); simpl; [|done].
  pose proof (settled_new_Observer_ r w I) as Hnew.
  assert (∀ w1, settled_but (Some r) w w1 → settled w w1) as Hall.
  { intros w1 H r' o' _ Ho' Hob'. apply (H r' o'); [|done..].
    intros [= ->]. rewrite Ho in Ho'. injection Ho' as <-.
    rewrite Hob in Hob'. by destruct Hob'. }
  destruct (new_Observer_ observe_rec r w) as [[] w1|e w1|]; simpl; [| |done].
  - apply Hcount, Hall. tauto.
  - split_and!; [done..|]. apply Hall. tauto.
Qed.
End settled.

Lemma settled_observe fuel v b :
  hoare any_exn always settled (observe fuel v b).
Proof.
  revert v b. induction fuel as [|fuel IH]; intros v b; simpl.
  - apply hoare_out_of_fuel.
  - by apply settled_observe_.
Qed.

Lemma observable_observing w w' c : observing w w' → observable w c → observable w' c.
Proof.
  intros H (o & Ho & Hvn & Hguard).
  destruct (obs_heap _ _ H c o Ho) as (o' & Ho' & Hk & _ & Hx & Hv & Hn & Hob).
  exists o'. split; [done|]. split; [congruence|].
  destruct Hguard as [[ob Hsome] | (Hso & Hsr & Hkind & Hext & Hvue)].
  - left. destruct (Hob ob Hsome) as (ob' & -> & _). by eexists.
  - right. rewrite (obs_shouldObserve _ _ H), (obs_env _ _ H), Hk, Hx, Hv. done.
Qed.

Lemma observed_observing w w' c : observing w w' → observed w c → observed w' c.
Proof.
  intros H (o & ob & Ho & Hob).
  destruct (obs_heap _ _ H c o Ho) as (o' & Ho' & _ & _ & _ & _ & _ & Hob').
  destruct (Hob' ob Hob) as (ob' & ? & _). by exists o', ob'.
Qed.

Section deep.
Context (observe_rec : Value → bool → M (option nat)).
Context (Hobs : ∀ v b, hoare any_exn always observing (observe_rec v b)).
Context (Hset : ∀ v b, hoare any_exn always settled (observe_rec v b)).
Context (Hdeep : ∀ c b w, observable w c →
           match observe_rec (VRef c) b w with
           | Ok _ w' => observed w' c
           | _ => True
           end).

(** One [defineReactive(obj, keys[i])] of [walk], on an object that
    carries its Observer. *)
Lemma defineReactive_walk_step r k w o w' :
  heap w !! r = Some o → is_Some (o_ob o) →
  defineReactive_ observe_rec r k None false false w = Ok tt w' →
  observing w w'
  ∧ ∃ o', heap w' !! r = Some o' ∧ is_Some (o_ob o')
      ∧ (∀ k', k' ≠ k → lookup_slot k' o' = lookup_slot k' o)
      ∧ (∀ v, lookup_slot k o = Some (SData v true) →
           (∃ rc, lookup_slot k o' = Some (SReactive rc) ∧ r_val rc = v
                  ∧ r_getter rc = false)
           ∧ (∀ c, v = VRef c → observable w c → observed w' c))
      ∧ (∀ k' rc, lookup_slot k' o = Some (SReactive rc) →
           lookup_slot k' o' = Some (SReactive rc)).
Proof.
  intros Ho Hob Hrun.
  pose proof (observing_defineReactive_ observe_rec Hobs r k None false false w I)
    as Hobsv.
  rewrite Hrun in Hobsv. destruct Hobsv as [_ Hobsv]. split; [done|].
  revert Hrun.
  unfold defineReactive_, newDep, gets, modify, getObj, mbind, M_bind. simpl.
  rewrite Ho.
  set (w0 := upd_deps <[dep_uid w:=[]]> (upd_dep_uid S w)).
  assert (∀ (val : Value) (mk : option nat → Reactive),
    (∀ rc, lookup_slot k o ≠ Some (SReactive rc)) →
    match observe_rec val false w0 with
    | Ok a w1 => modifyObj r (upd_o_props (set_slot k (SReactive (mk a)))) w1
    | Thrown e w1 => Thrown e w1
    | OutOfFuel => OutOfFuel
    end = Ok tt w' →
    ∃ o' childOb, heap w' !! r = Some o' ∧ is_Some (o_ob o')
      ∧ (∀ k', k' ≠ k → lookup_slot k' o' = lookup_slot k' o)
      ∧ lookup_slot k o' = Some (SReactive (mk childOb))
      ∧ (∀ c, val = VRef c → observable w c → observed w' c)
      ∧ (∀ k' rc, lookup_slot k' o = Some (SReactive rc) →
           lookup_slot k' o' = Some (SReactive rc))) as Hdef.
  { intros val mk Hnot.
    pose proof (Hset val false w0 I) as Hs.
    destruct (observe_rec val false w0) as [childOb w1|e w1|] eqn:Hchild; [|done..].
    destruct Hs as [_ Hs]. unfold modifyObj, modify. intros [= <-].
    destruct (Hs r o) as (o1 & Ho1 & Hp1 & Hob1); [done..|].
    exists (upd_o_props (set_slot k (SReactive (mk childOb))) o1), childOb.
    simpl. rewrite lookup_alter_eq, Ho1. split; [done|]. split; [done|].
    unfold lookup_slot. simpl. rewrite Hp1. split_and!.
    - intros k' Hk'. by rewrite assoc_set_slot_ne.
    - by rewrite assoc_set_slot_eq.
    - intros c -> Hc. pose proof (Hdeep c false w0 Hc) as Hd. rewrite Hchild in Hd.
      destruct Hd as (oc & ob & Hoc & Hobc). unfold observed. simpl.
      destruct (decide (r = c)) as [-> | Hne].
      + rewrite lookup_alter_eq, Hoc. simpl. by eexists _, ob.
      + rewrite lookup_alter_ne by done. by exists oc, ob.
    - intros k' rc Hk'. rewrite assoc_set_slot_ne; [done|].
      intros <-. by apply (Hnot rc). }
  assert (∃ o', heap w0 !! r = Some o' ∧ is_Some (o_ob o')
    ∧ (∀ k', k' ≠ k → lookup_slot k' o' = lookup_slot k' o)
    ∧ (∀ k' rc, lookup_slot k' o = Some (SReactive rc) →
         lookup_slot k' o' = Some (SReactive rc))) as Hskip
    by (by exists o).
  destruct (lookup_slot k o) as [[v [|]|b g s [|]|rc0]|] eqn:Hslot; simpl.
  - intros Hrun.
    destruct (Hdef v (λ a, {| r_dep := dep_uid w; r_val := v; r_childOb := a;
                              r_getter := false; r_setter := false;
                              r_backing := VUndef; r_shallow := false;
                              r_customSetter := false |}) ltac:(done) Hrun)
      as (o' & childOb & Ho' & Hob' & Hne & Heq & Hd & Hr).
    exists o'. split_and!; try done.
    intros v0 [= <-]. split; [|done]. by eexists.
  - intros [= <-]. destruct Hskip as (o' & ? & ? & ? & ?).
    exists o'. split_and!; try done.
  - intros Hrun.
    destruct (Hdef _ (λ a, {| r_dep := dep_uid w;
                              r_val := if negb g || s
                                       then (if g then b else VUndef) else VUndef;
                              r_childOb := a;
                              r_getter := g; r_setter := s;
                              r_backing := b; r_shallow := false;
                              r_customSetter := false |}) ltac:(done) Hrun)
      as (o' & childOb & Ho' & Hob' & Hne & Heq & Hd & Hr).
    exists o'. split_and!; try done.
  - intros [= <-]. destruct Hskip as (o' & ? & ? & ? & ?).
    exists o'. split_and!; try done.
  - intros [= <-]. destruct Hskip as (o' & ? & ? & ? & ?).
    exists o'. split_and!; try done.
  - intros Hrun.
    destruct (Hdef VUndef (λ a, {| r_dep := dep_uid w; r_val := VUndef; r_childOb := a;
                                   r_getter := false; r_setter := false;
                                   r_backing := VUndef; r_shallow := false;
                                   r_customSetter := false |}) ltac:(done) Hrun)
      as (o' & childOb & Ho' & Hob' & Hne & Heq & Hd & Hr).
    exists o'. split_and!; try done.
Qed.

(** The loop of [walk]. *)
Lemma walk_loop r ks : ∀ w o w',
  heap w !! r = Some o → is_Some (o_ob o) →
  forM_ ks (λ key, defineReactive_ observe_rec r key None false false) w = Ok tt w' →
  observing w w'
  ∧ ∃ o', heap w' !! r = Some o' ∧ is_Some (o_ob o')
      ∧ (∀ k, k ∉ ks → lookup_slot k o' = lookup_slot k o)
      ∧ (∀ k v, k ∈ ks → lookup_slot k o = Some (SData v true) →
           (∃ rc, lookup_slot k o' = Some (SReactive rc) ∧ r_val rc = v
                  ∧ r_getter rc = false)
           ∧ (∀ c, v = VRef c → observable w c → observed w' c))
      ∧ (∀ k rc, lookup_slot k o = Some (SReactive rc) →
           lookup_slot k o' = Some (SReactive rc)).
Proof.
  induction ks as [|k0 ks IH]; intros w o w' Ho Hob Hrun.
  { injection Hrun as <-. split; [reflexivity|]. exists o. split_and!; try done.
    intros k v Hk. by apply elem_of_nil in Hk. }
  simpl in Hrun. apply bind_inv in Hrun as ([] & w1 & Hstep & Hrest).
  destruct (defineReactive_walk_step r k0 w o w1 Ho Hob Hstep)
    as (Hobs1 & o1 & Ho1 & Hob1 & Hne1 & Hdata1 & Hreact1).
  destruct (IH w1 o1 w' Ho1 Hob1 Hrest)
    as (Hobs2 & o' & Ho' & Hob' & Hne & Hdata & Hreact).
  split; [by etrans|]. exists o'. split_and!; try done.
  - intros k Hk. apply not_elem_of_cons in Hk as [Hk0 Hk].
    by rewrite (Hne k Hk), (Hne1 k Hk0).
  - intros k v Hk Hslot.
    destruct (decide (k = k0)) as [-> | Hk0].
    + destruct (Hdata1 v Hslot) as ((rc & Hrc & Hval & Hget) & Hd). split.
      * exists rc. split; [by apply Hreact | done].
      * intros c -> Hc. apply (observed_observing w1 w' c Hobs2). by apply Hd.
    + apply elem_of_cons in Hk as [-> | Hk]; [done|].
      rewrite <- (Hne1 k Hk0) in Hslot.
      destruct (Hdata k v Hk Hslot) as (Hrc & Hd). split; [done|].
      intros c -> Hc. apply Hd; [done|]. by apply (observable_observing w w1).
  - intros k rc Hslot. by apply Hreact, Hreact1.
Qed.
End deep.

(** X24.  [observe] is deep.  When [observe] returns for a plain object
    that passes its guard and has no Observer yet, the object carries
    one, every configurable data property of it is reactive and holds
    the value it held, and every object that such a property held and
    that passes the guard carries an Observer too. *)
Theorem observe_is_deep
    (fuel r : nat) (o : Obj) (res : option nat) (w w' : World) :
  heap w !! r = Some o → o_ob o = None → o_kind o = KPlain →
  observable w r →
  observe fuel (VRef r) false w = Ok res w' →
  res = Some r ∧ observed w' r
  ∧ ∃ o', heap w' !! r = Some o'
      ∧ ∀ k v, lookup_slot k o = Some (SData v true) →
          (∃ rc, lookup_slot k o' = Some (SReactive rc) ∧ r_val rc = v
                 ∧ r_getter rc = false)
          ∧ (∀ c, v = VRef c → observable w c → observed w' c).
Proof.
  intros Ho Hob Hkind (o0 & Ho0 & Hvn & Hguard) Hrun.
  assert (o0 = o) as -> by congruence.
  destruct Hguard as [[ob0 Hsome] | (Hso & Hsr & _ & Hext & Hvue)]; [congruence|].
  destruct fuel as [|fuel]; [done|].
  change (observe (S fuel) (VRef r) false w)
    with (observe_ (observe fuel) (VRef r) false w) in Hrun.
  unfold observe_ in Hrun.
  rewrite (bind_ok (getObj r) _ w o w) in Hrun by (unfold getObj; by rewrite Ho).
  rewrite Hvn in Hrun. rewrite !bind_gets in Hrun.
  rewrite Hob, Hso, Hsr, Hkind, Hext, Hvue in Hrun.
  apply bind_inv in Hrun as (x & w1 & Hnew & Hrun).
  apply bind_inv in Hnew as ([] & w2 & Hnew & [= <- ->]).
  injection Hrun as <- <-. split; [done|].
  revert Hnew.
  unfold new_Observer_, newDep, gets, modify, modifyObj, emit, getObj, mbind, M_bind.
  simpl. rewrite lookup_alter_eq, Ho. simpl. rewrite Hkind.
  rewrite decide_False by done.
  set (ob := {| ob_dep := dep_uid w; ob_vmCount := 0 |}).
  set (w0 := upd_deps <[dep_uid w:=[]]> (upd_dep_uid S w)).
  set (wa := upd_trace (cons (EObserve r))
               (upd_heap (alter (upd_o_ob (λ _, Some ob)) r) w0)).
  unfold walk_, getObj, mbind, M_bind.
  assert (heap wa !! r = Some (upd_o_ob (λ _, Some ob) o)) as Hoa
    by (subst wa w0; simpl; by rewrite lookup_alter_eq, Ho).
  rewrite Hoa. intros Hwalk.
  assert (observing w wa) as Hwa.
  { trans w0.
    - pose proof (observing_newDep w I) as H. unfold newDep, gets, modify, mbind,
        M_bind in H. simpl in H. apply H.
    - by apply (observing_attach r o ob w0). }
  destruct (walk_loop (observe fuel) (observing_observe fuel) (settled_observe fuel)
              (observe_observed fuel) r _ wa _ w1 Hoa ltac:(by eexists) Hwalk)
    as (Hobs & o' & Ho' & [ob' Hob'] & _ & Hdata & _).
  split; [by exists o', ob'|].
  exists o'. split; [done|]. intros k v Hslot.
  destruct (Hdata k v) as (Hrc & Hd); [| exact Hslot |].
  { simpl. destruct (decide (k ∈ fst <$> o_props o)) as [|Hout]; [done|].
    apply assoc_None in Hout. unfold lookup_slot in Hslot. congruence. }
  split; [done|]. intros c -> Hc. apply Hd; [done|].
  by apply (observable_observing w wa).
Qed.
(** ** Reading subscribes *)


(** ** The theorems at concrete inputs *)

Lemma reactiveSetter_same_value_noop_witness :
  heap computed_world !! 0 = Some (the_obj 0 computed_world)
  ∧ lookup_slot "b" (the_obj 0 computed_world)
    = Some (SReactive (the_reactive "b" (the_obj 0 computed_world)))
  ∧ write_prop 3 0 "b" (VNum 1) computed_world = Ok tt computed_world.
Proof.
  assert (heap computed_world !! 0 = Some (the_obj 0 computed_world)) as H1
    by (vm_compute; reflexivity).
  assert (lookup_slot "b" (the_obj 0 computed_world)
          = Some (SReactive (the_reactive "b" (the_obj 0 computed_world)))) as H2
    by (vm_compute; reflexivity).
  split; [exact H1|]. split; [exact H2|].
  apply (reactiveSetter_same_value_noop 3 0 "b" (VNum 1) _ _ computed_world H1 H2).
  left. vm_compute. reflexivity.
Defined.

Lemma set_on_root_noop_witness :
  heap computed_world !! 0 = Some (the_obj 0 computed_world)
  ∧ ob_vmCount (the_observer 0 computed_world) = 1
  ∧ key_in (env computed_world) "fresh" (the_obj 0 computed_world) = false
  ∧ set 3 (VRef 0) "fresh" (VNum 9) computed_world
    = Ok (VNum 9) (upd_trace (cons (EWarn WSetOnRoot)) computed_world).
Proof.
  assert (heap computed_world !! 0 = Some (the_obj 0 computed_world)) as H1
    by (vm_compute; reflexivity).
  assert (key_in (env computed_world) "fresh" (the_obj 0 computed_world) = false) as H2
    by (vm_compute; reflexivity).
  split; [exact H1|]. split; [vm_compute; reflexivity|]. split; [exact H2|].
  apply (set_on_root_noop 3 0 "fresh" (VNum 9) _ computed_world H1).
  - vm_compute. discriminate.
  - right. exists (the_observer 0 computed_world).
    split; [vm_compute; reflexivity|]. vm_compute. lia.
  - exact H2.
Defined.



Lemma Watcher_teardown_idempotent_witness :
  watchers dirty_world !! 1 = Some (the_watcher 1 dirty_world)
  ∧ vms dirty_world !! w_vm (the_watcher 1 dirty_world) = Some (the_vm 0 dirty_world)
  ∧ ∃ w', Watcher_teardown 1 dirty_world = Ok tt w'
          ∧ Watcher_teardown 1 w' = Ok tt w'.
Proof.
  assert (watchers dirty_world !! 1 = Some (the_watcher 1 dirty_world)) as H1
    by (vm_compute; reflexivity).
  assert (vms dirty_world !! w_vm (the_watcher 1 dirty_world)
          = Some (the_vm 0 dirty_world)) as H2 by (vm_compute; reflexivity).
  split; [exact H1|]. split; [exact H2|].
  destruct (Watcher_teardown_idempotent 3 1 _ _ dirty_world H1 H2)
    as (w' & Ht & _ & _ & _ & _ & _ & Hagain & _).
  exists w'. exact (conj Ht Hagain).
Defined.

Lemma flush_aborts_runaway_watcher_witness :
  queue (sched flushing_world) !! index (sched flushing_world) = Some 1
  ∧ watchers flushing_world !! 1 = Some (the_watcher 1 flushing_world)
  ∧ 1 ∈ has (sched (world_after (Watcher_run 5 1)
                      (flush_pre 1 (the_watcher 1 flushing_world) flushing_world)))
  ∧ ∃ w', microtask 300 (runaway_world false true 1000) = Ok tt w'
          ∧ runs 1 (new_events (runaway_world false true 1000) w') = 101.
Proof.
  assert (queue (sched flushing_world) !! index (sched flushing_world) = Some 1) as H1
    by (vm_compute; reflexivity).
  assert (watchers flushing_world !! 1 = Some (the_watcher 1 flushing_world)) as H2
    by (vm_compute; reflexivity).
  assert (Watcher_run 5 1 (flush_pre 1 (the_watcher 1 flushing_world) flushing_world)
          = Ok tt (world_after (Watcher_run 5 1)
                     (flush_pre 1 (the_watcher 1 flushing_world) flushing_world))) as H3
    by (vm_compute; reflexivity).
  assert (production (env (world_after (Watcher_run 5 1)
            (flush_pre 1 (the_watcher 1 flushing_world) flushing_world))) = false) as H4
    by (vm_compute; reflexivity).
  assert (1 ∈ has (sched (world_after (Watcher_run 5 1)
            (flush_pre 1 (the_watcher 1 flushing_world) flushing_world)))) as H5
    by (apply (bool_decide_unpack _); vm_compute; exact I).
  split; [exact H1|]. split; [exact H2|]. split; [exact H5|].
  destruct (flush_aborts_runaway_watcher 5 (Watcher_run 5) 1 _ flushing_world _
              H1 H2 H3 H4 H5) as (_ & _ & (w' & Hm & Hr & _) & _).
  exists w'. exact (conj Hm Hr).
Defined.

Lemma mutator_mutates_observes_notifies_witness :
  heap (list_world true) !! 1 = Some (the_obj 1 (list_world true))
  ∧ o_ob (the_obj 1 (list_world true)) = Some (the_observer 1 (list_world true))
  ∧ 1 ≠ heap_uid (list_world true)
  ∧ ∃ w', mutator 5 m_push 1 [VRef 2] (list_world true) = Ok (VNum 1) w'
          ∧ notifications 2 (new_events (list_world true) w') = 1.
Proof.
  assert (heap (list_world true) !! 1 = Some (the_obj 1 (list_world true))) as H1
    by (vm_compute; reflexivity).
  assert (o_ob (the_obj 1 (list_world true))
          = Some (the_observer 1 (list_world true))) as H2
    by (vm_compute; reflexivity).
  assert (1 ≠ heap_uid (list_world true)) as H3 by (vm_compute; discriminate).
  split; [exact H1|]. split; [exact H2|]. split; [exact H3|].
  destruct (mutator_mutates_observes_notifies 5 m_push 1 [VRef 2] _ _
              (list_world true) H1 H2 H3) as (_ & (w' & Hm & _ & Hn & _)).
  exists w'. exact (conj Hm Hn).
Defined.

Lemma flush_runs_parent_before_child_witness :
  1 < 2
  ∧ queue (sched family_world) = [2; 1]
  ∧ waiting (sched family_world) = true
  ∧ w_sync (the_watcher 2 family_world) = false
  ∧ match flushSchedulerQueue 5 family_world with
    | Ok _ w' | Thrown _ w' => ordered_since 1 2 (trace family_world) w'
    | OutOfFuel => True
    end.
Proof.
  assert (queue (sched family_world) = [2; 1]) as H1 by (vm_compute; reflexivity).
  assert (waiting (sched family_world) = true) as H2 by (vm_compute; reflexivity).
  assert (watchers family_world !! 2 = Some (the_watcher 2 family_world)) as H3
    by (vm_compute; reflexivity).
  assert (w_sync (the_watcher 2 family_world) = false) as H4
    by (vm_compute; reflexivity).
  assert (1 ∈ queue (sched family_world)) as H5
    by (rewrite H1; apply list_elem_of_further, list_elem_of_here).
  assert (∀ W, watchers family_world !! 2 = Some W → w_sync W = false) as H6.
  { intros W HW. rewrite H3 in HW.
    exact (eq_ind (Some (the_watcher 2 family_world))
             (λ o, match o with Some W => w_sync W = false | None => True end)
             H4 (Some W) HW). }
  split; [lia|]. split; [exact H1|]. split; [exact H2|]. split; [exact H4|].
  assert (1 < 2) as H0 by lia.
  pose proof (flush_runs_parent_before_child 5 1 2 family_world H0 H5 H2 H6) as H.
  destruct H as [H _]. exact H.
Defined.

Lemma count_world_watchers :
  watchers count_world = {[1 := the_watcher 1 count_world]}.
Proof. vm_compute. reflexivity. Qed.

Lemma count_world_no_sync : no_sync_watcher count_world.
Proof.
  intros i X HX _. rewrite count_world_watchers in HX.
  apply lookup_singleton_Some in HX as [_ <-]. vm_compute. reflexivity.
Qed.


Lemma count_world_idle : idle count_world.
Proof. repeat split; vm_compute; reflexivity. Qed.

Lemma turn_of_writes_only_queues_witness :
  async_mode (env count_world)
  ∧ idle count_world
  ∧ match assign_all 5 three_writes count_world with
    | Ok _ w1 | Thrown _ w1 =>
        (∀ i, runs i (new_events count_world w1) = 0)
        ∧ flushing (sched w1) = false
        ∧ NoDup (queue (sched w1))
        ∧ (∀ x X, EUpdate x ∈ new_events count_world w1 →
             watchers count_world !! x = Some X →
             w_lazy X = false → x ∈ queue (sched w1))
        ∧ (queue (sched w1) ≠ [] → flush_scheduled (tick w1))
    | OutOfFuel => True
    end.
Proof.
  assert (async_mode (env count_world)) as H1 by (right; vm_compute; reflexivity).
  split; [exact H1|]. split; [exact count_world_idle|].
  exact (turn_of_writes_only_queues 5 three_writes count_world
           H1 count_world_no_sync count_world_idle).
Defined.



Lemma nextTick_arms_one_timer_witness :
  forM_ [TFlushSchedulerQueue; TUser CRet] nextTick (empty_world (example_env false true))
  = Ok tt (upd_tick (λ t,
      {| callbacks := callbacks t ++ [TFlushSchedulerQueue; TUser CRet];
         pending := true;
         timers := if pending t then timers t else S (timers t) |})
      (empty_world (example_env false true))).
Proof.
  apply (nextTick_arms_one_timer [TFlushSchedulerQueue; TUser CRet]). discriminate.
Defined.

Lemma count_world_ids_bounded : ids_bounded count_world.
Proof.
  intros i [X HX]. rewrite count_world_watchers in HX.
  apply lookup_singleton_Some in HX as [<- _]. vm_compute. lia.
Qed.

Lemma Watcher_ids_grow_witness :
  ids_bounded count_world
  ∧ match new_Watcher 5 0 (GRead 0 "count" GRet) "count" (λ _ _, CRet) None false
            count_world with
    | Ok this w' =>
        this = S (watcher_uid count_world) ∧ watcher_uid w' = this
        ∧ is_Some (watchers w' !! this)
        ∧ (∀ i, is_Some (watchers count_world !! i) → i < this)
        ∧ ids_bounded w'
    | _ => True
    end.
Proof.
  split; [exact count_world_ids_bounded|].
  exact (Watcher_ids_grow 5 0 (GRead 0 "count" GRet) "count" (λ _ _, CRet) None false
           count_world count_world_ids_bounded).
Defined.

Lemma getter_without_target_is_pure_witness :
  Dep_target count_world = None
  ∧ ((∃ v, exec_getter 0 (GRead 0 "count" GRet) count_world = Ok v count_world)
     ∨ (∃ e, exec_getter 0 (GRead 0 "count" GRet) count_world = Thrown e count_world)).
Proof.
  assert (Dep_target count_world = None) as H by (vm_compute; reflexivity).
  split; [exact H|].
  exact (getter_without_target_is_pure 0 (GRead 0 "count" GRet) count_world H).
Defined.


Lemma run_skips_unchanged_value_witness :
  Watcher_get 5 1 (upd_trace (cons (ERunBegin 1)) count_world)
  = Ok (VNum 0)
      (world_after (Watcher_get 5 1) (upd_trace (cons (ERunBegin 1)) count_world))
  ∧ Watcher_run 6 1 count_world
    = Ok tt (upd_trace (cons (ERunEnd 1))
               (world_after (Watcher_get 5 1)
                  (upd_trace (cons (ERunBegin 1)) count_world))).
Proof.
  assert (watchers count_world !! 1 = Some (the_watcher 1 count_world)) as H1
    by (vm_compute; reflexivity).
  assert (w_active (the_watcher 1 count_world) = true) as H2
    by (vm_compute; reflexivity).
  assert (w_deep (the_watcher 1 count_world) = false) as H3
    by (vm_compute; reflexivity).
  assert (Watcher_get 5 1 (upd_trace (cons (ERunBegin 1)) count_world)
          = Ok (VNum 0)
              (world_after (Watcher_get 5 1)
                 (upd_trace (cons (ERunBegin 1)) count_world))) as H4
    by (vm_compute; reflexivity).
  assert (isObject (VNum 0) = false) as H5 by reflexivity.
  assert (strict_eq (VNum 0) (w_value (the_watcher 1 count_world)) = true) as H6
    by (vm_compute; reflexivity).
  split; [exact H4|].
  pose proof (run_skips_unchanged_value 5 1 _ (VNum 0) count_world _ H1 H2 H3 H4 H5 H6)
    as H.
  destruct H as [H _]. exact H.
Defined.

Lemma Watcher_addDep_idempotent_witness :
  watchers count_world !! 1 = Some (the_watcher 1 count_world)
  ∧ ∃ w1 W1,
      Watcher_addDep 1 7 count_world = Ok tt w1
      ∧ watchers w1 !! 1 = Some W1
      ∧ 7 ∈ w_newDepIds W1
      ∧ Watcher_addDep 1 7 w1 = Ok tt w1
      ∧ (Watcher_addDep 1 7;; Watcher_addDep 1 7) count_world = Ok tt w1.
Proof.
  assert (watchers count_world !! 1 = Some (the_watcher 1 count_world)) as H1
    by (vm_compute; reflexivity).
  split; [exact H1|].
  exact (Watcher_addDep_idempotent 1 7 _ count_world H1).
Defined.

Lemma observe_twice_witness :
  observe 5 (VRef 2) false (list_world true)
  = Ok (Some 2) (world_after (observe 5 (VRef 2) false) (list_world true))
  ∧ observe 1 (VRef 2) false (world_after (observe 5 (VRef 2) false) (list_world true))
    = Ok (Some 2) (world_after (observe 5 (VRef 2) false) (list_world true)).
Proof.
  assert (observe 5 (VRef 2) false (list_world true)
          = Ok (Some 2) (world_after (observe 5 (VRef 2) false) (list_world true)))
    as H by (vm_compute; reflexivity).
  split; [exact H|].
  exact (observe_twice 5 0 2 (Some 2) (list_world true) _ H).
Defined.

Lemma set_adds_reactive_property_witness :
  heap profile_world !! 1 = Some (the_obj 1 profile_world)
  ∧ o_ob (the_obj 1 profile_world) = Some (the_observer 1 profile_world)
  ∧ ob_vmCount (the_observer 1 profile_world) = 0
  ∧ key_in (env profile_world) "age" (the_obj 1 profile_world) = false
  ∧ set 5 (VRef 1) "age" (VNum 3) profile_world
    = (defineReactive 5 1 "age" (Some (VNum 3)) false false;;
       Dep_notify 5 (ob_dep (the_observer 1 profile_world));; mret (VNum 3))
        profile_world.
Proof.
  assert (heap profile_world !! 1 = Some (the_obj 1 profile_world)) as H1
    by (vm_compute; reflexivity).
  assert (o_kind (the_obj 1 profile_world) ≠ KArray) as H2
    by (vm_compute; discriminate).
  assert (key_in (env profile_world) "age" (the_obj 1 profile_world) = false) as H3
    by (vm_compute; reflexivity).
  assert (o_isVue (the_obj 1 profile_world) = false) as H4 by (vm_compute; reflexivity).
  assert (o_ob (the_obj 1 profile_world) = Some (the_observer 1 profile_world)) as H5
    by (vm_compute; reflexivity).
  assert (ob_vmCount (the_observer 1 profile_world) = 0) as H6
    by (vm_compute; reflexivity).
  split; [exact H1|]. split; [exact H5|]. split; [exact H6|]. split; [exact H3|].
  pose proof (set_adds_reactive_property 5 1 "age" (VNum 3) _ _ profile_world
    H1 H2 H3 H4 H5 H6) as H.
  destruct H as [H _]. exact H.
Defined.

Lemma count_world_in_turn : in_turn count_world.
Proof.
  apply idle_in_turn; [right; vm_compute; reflexivity | | exact count_world_idle].
  exact count_world_no_sync.
Qed.


Lemma theme_inject_no_factory : no_factory theme_inject.
Proof.
  intros k inj f Hin.
  repeat (apply elem_of_cons in Hin as [[= -> ->] | Hin]; [discriminate|]).
  by apply elem_of_nil in Hin.
Qed.

Lemma theme_inject_NoDup : NoDup (fst <$> theme_inject).
Proof. apply (bool_decide_unpack _). vm_compute. exact I. Qed.

Lemma resolveInject_nearest_provider_witness :
  ∃ result warns,
    resolveInject 0 (Some theme_inject) theme_tree inject_world
    = Ok (Some result, warns) inject_world
    ∧ assoc "theme" result = Some (VStr "dark")
    ∧ assoc "lang" result = Some (VStr "en")
    ∧ assoc "user" result = Some VNull
    ∧ assoc "token" result = None
    ∧ InjectionNotFound "token" ∈ warns.
Proof.
  destruct (resolveInject_nearest_provider 0 theme_inject theme_tree inject_world
              theme_inject_no_factory theme_inject_NoDup)
    as (result & warns & Hrun & Hkeys & _ & Hwarns).
  exists result, warns. split; [exact Hrun|].
  assert (∀ key inj, (key, inj) ∈ theme_inject → key ≠ "__ob__") as Hob.
  { intros key inj Hin.
    repeat (apply elem_of_cons in Hin as [[= -> ->] | Hin]; [discriminate|]).
    apply elem_of_nil in Hin. destruct Hin. }
  assert (("theme", {| inj_from := "theme"; inj_default := None |}) ∈ theme_inject)
    as Htheme by (by left).
  assert (("lang", {| inj_from := "locale";
                      inj_default := Some (DefaultValue (VStr "fr")) |}) ∈ theme_inject)
    as Hlang by (right; by left).
  assert (("user", {| inj_from := "user";
                      inj_default := Some (DefaultValue VNull) |}) ∈ theme_inject)
    as Huser by (do 3 right; by left).
  assert (("token", {| inj_from := "token"; inj_default := None |}) ∈ theme_inject)
    as Htoken by (do 4 right; by left).
  split; [rewrite (Hkeys _ _ Htheme (Hob _ _ Htheme)); vm_compute; reflexivity|].
  split; [rewrite (Hkeys _ _ Hlang (Hob _ _ Hlang)); vm_compute; reflexivity|].
  split; [rewrite (Hkeys _ _ Huser (Hob _ _ Huser)); vm_compute; reflexivity|].
  split; [rewrite (Hkeys _ _ Htoken (Hob _ _ Htoken)); vm_compute; reflexivity|].
  apply Hwarns. exists {| inj_from := "token"; inj_default := None |}.
  split; [exact Htoken|]. split; [exact (Hob _ _ Htoken)|].
  split; [vm_compute; reflexivity|]. split; vm_compute; reflexivity.
Defined.

Lemma initInjections_defines_without_observing_witness :
  ∃ warns w' o',
    initInjections 1 (Some theme_inject) theme_tree 3 inject_world = Ok warns w'
    ∧ shouldObserve w' = true
    ∧ heap w' !! 2 = heap inject_world !! 2
    ∧ heap w' !! 3 = Some o'
    ∧ ∃ r, lookup_slot "store" o' = Some (SReactive r) ∧ r_val r = VRef 2.
Proof.
  assert (heap inject_world !! 3 = Some (the_obj 3 inject_world)) as H3
    by (vm_compute; reflexivity).
  assert (∀ k, k ∈ fst <$> theme_inject → lookup_slot k (the_obj 3 inject_world) = None)
    as H4 by (intros k _; vm_compute; reflexivity).
  assert (∀ key inj r, (key, inj) ∈ theme_inject →
            injected theme_tree inj = Some (VRef r) → is_Some (heap inject_world !! r))
    as H5.
  { intros key inj r Hin Hv.
    repeat (apply elem_of_cons in Hin as [[= -> ->] | Hin]);
      [..| apply elem_of_nil in Hin; destruct Hin]; vm_compute in Hv; try discriminate.
    injection Hv as <-. eexists. vm_compute. reflexivity. }
  destruct (initInjections_defines_without_observing 0 theme_inject theme_tree 3 _
              inject_world theme_inject_no_factory theme_inject_NoDup H3 H4 H5)
    as (warns & w' & o' & Hrun & Hso & Hothers & Ho' & _ & Hkeys & _).
  exists warns, w', o'. split; [exact Hrun|]. split; [exact Hso|].
  split; [apply Hothers; discriminate|]. split; [exact Ho'|].
  assert (("store", {| inj_from := "store"; inj_default := None |}) ∈ theme_inject)
    as Hstore by (do 2 right; by left).
  assert ("store" ≠ "__ob__") as Hob by discriminate.
  pose proof (Hkeys _ _ Hstore Hob) as Hslot.
  change (injected theme_tree {| inj_from := "store"; inj_default := None |})
    with (Some (VRef 2)) in Hslot.
  destruct Hslot as (r & Hr & Hval & _). exists r. split; [exact Hr | exact Hval].
Defined.

Lemma computed_read_makes_reader_depend_witness :
  Dep_target reader_world = Some 2
  ∧ ∀ val w', computedGetter 3 0 "sum" reader_world = Ok val w' →
      ∃ C' T',
        watchers w' !! 1 = Some C' ∧ watchers w' !! 2 = Some T'
        ∧ w_value C' = val ∧ w_dirty C' = false
        ∧ Dep_target w' = Some 2
        ∧ (∀ d, d ∈ w_newDepIds T'
                ↔ d ∈ w_newDepIds (the_watcher 2 reader_world) ∨ d ∈ w_deps C').
Proof.
  assert (vms reader_world !! 0 = Some (the_vm 0 reader_world)) as H1
    by (vm_compute; reflexivity).
  assert (assoc "sum" (vm_computedWatchers (the_vm 0 reader_world)) = Some 1) as H2
    by (vm_compute; reflexivity).
  assert (watchers reader_world !! 1 = Some (the_watcher 1 reader_world)) as H3
    by (vm_compute; reflexivity).
  assert (Dep_target reader_world = Some 2) as H4 by (vm_compute; reflexivity).
  assert (watchers reader_world !! 2 = Some (the_watcher 2 reader_world)) as H5
    by (vm_compute; reflexivity).
  assert (1 ≠ 2) as H6 by discriminate.
  split; [exact H4|].
  pose proof (computed_read_makes_reader_depend 3 0 1 2 "sum" _ _ _ reader_world
                H1 H2 H3 H4 H5 H6) as H.
  destruct H as [_ H]. exact H.
Defined.
Lemma assignment_queues_subscribers_witness :
  in_turn count_world
  ∧ ∃ w', write_prop 5 0 "count" (VNum 7) count_world = Ok tt w'
      ∧ if w_lazy (the_watcher 1 count_world)
        then ∃ X', watchers w' !! 1 = Some X' ∧ w_dirty X' = true
        else 1 ∈ queue (sched w') ∧ flush_scheduled (tick w').
Proof.
  assert (heap count_world !! 0 = Some (the_obj 0 count_world)) as H1
    by (vm_compute; reflexivity).
  assert (lookup_slot "count" (the_obj 0 count_world)
          = Some (SReactive (the_reactive "count" (the_obj 0 count_world)))) as H2
    by (vm_compute; reflexivity).
  assert (r_getter (the_reactive "count" (the_obj 0 count_world)) = true
          → r_setter (the_reactive "count" (the_obj 0 count_world)) = true) as H3
    by (vm_compute; discriminate).
  assert (isObject (VNum 7) = false) as H4 by reflexivity.
  assert (VNum 7 ≠ slot_value
            (Some (SReactive (the_reactive "count" (the_obj 0 count_world))))) as H5
    by (vm_compute; discriminate).
  assert (subs (r_dep (the_reactive "count" (the_obj 0 count_world))) count_world = [1])
    as Hsubs by (vm_compute; reflexivity).
  assert (watchers count_world !! 1 = Some (the_watcher 1 count_world)) as HW
    by (vm_compute; reflexivity).
  assert (∀ y, y ∈ subs (r_dep (the_reactive "count" (the_obj 0 count_world))) count_world
               → is_Some (watchers count_world !! y)) as H6.
  { intros y Hy. rewrite Hsubs in Hy. apply list_elem_of_singleton in Hy.
    rewrite Hy, HW. eexists. reflexivity. }
  split; [exact count_world_in_turn|].
  pose proof (assignment_queues_subscribers 4 0 "count" (VNum 7) _ _ count_world
                count_world_in_turn H1 H2 H3 H4 H5 H6) as H.
  destruct H as (w' & Hrun & _ & _ & Hall).
  exists w'. split; [exact Hrun|].
  apply (Hall 1 (the_watcher 1 count_world)); [|exact HW].
  rewrite Hsubs. apply list_elem_of_here.
Defined.

Lemma raw_profile_observable r :
  r < 2 → observable raw_profile_world r.
Proof.
  intros Hr. exists (the_obj r raw_profile_world).
  destruct r as [|[|r]]; [| |lia].
  - split; [vm_compute; reflexivity|]. split; [vm_compute; reflexivity|]. right.
    split; [vm_compute; reflexivity|]. split; [vm_compute; reflexivity|].
    split; [right; vm_compute; reflexivity|].
    split; vm_compute; reflexivity.
  - split; [vm_compute; reflexivity|]. split; [vm_compute; reflexivity|]. right.
    split; [vm_compute; reflexivity|]. split; [vm_compute; reflexivity|].
    split; [right; vm_compute; reflexivity|].
    split; vm_compute; reflexivity.
Qed.

Lemma observe_is_deep_witness :
  observe 5 (VRef 0) false raw_profile_world
  = Ok (Some 0) (world_after (observe 5 (VRef 0) false) raw_profile_world)
  ∧ observed (world_after (observe 5 (VRef 0) false) raw_profile_world) 1.
Proof.
  assert (observe 5 (VRef 0) false raw_profile_world
          = Ok (Some 0) (world_after (observe 5 (VRef 0) false) raw_profile_world))
    as Hrun by (vm_compute; reflexivity).
  assert (heap raw_profile_world !! 0 = Some (the_obj 0 raw_profile_world)) as H1
    by (vm_compute; reflexivity).
  assert (o_ob (the_obj 0 raw_profile_world) = None) as H2 by (vm_compute; reflexivity).
  assert (o_kind (the_obj 0 raw_profile_world) = KPlain) as H3
    by (vm_compute; reflexivity).
  assert (lookup_slot "user" (the_obj 0 raw_profile_world) = Some (SData (VRef 1) true))
    as H4 by (vm_compute; reflexivity).
  split; [exact Hrun|].
  pose proof (observe_is_deep 5 0 _ _ _ _ H1 H2 H3
                (raw_profile_observable 0 ltac:(lia)) Hrun) as H.
  destruct H as (_ & _ & o' & _ & Hdata).
  destruct (Hdata "user" (VRef 1) H4) as [_ Hdeep].
  exact (Hdeep 1 eq_refl (raw_profile_observable 1 ltac:(lia))).
Defined.
